(** * waver: the audio-reactive slideshow compositor

    A shallow embedding of
      - [src/components/VisualizerCanvas.tsx]: [drawFrame], [drawImageProp],
        [animate], [startExport] and its [checkEnd] loop body, the
        recorder's handlers and [loadImages];
      - [src/services/geminiService.ts]: [getAiClient],
        [generateVideoMetadata], [analyzeMoodAndSuggestFont];
      - [src/App.tsx]: the state of the page, its handlers and the
        conditions under which its controls are shown and enabled;
    followed by the properties of the specification that concern them and
    by further properties of the code.

    Numbers.  A JavaScript [number] is a binary64 float.  The calls of a
    frame are read over exact rationals [Q]: comparisons, [Math.floor],
    [Math.min], [Math.max], [Math.abs] and the [1e-14] tolerance are as
    written, rounding is left out.  [NaN] is kept where the program can
    meet it: [HTMLMediaElement.duration] is [NaN] until the metadata is
    loaded, and reading a typed array past its end gives [undefined],
    which arithmetic turns into [NaN].  Where rounding decides what is
    drawn it is modelled: the cover fit of [drawImageProp] is embedded
    twice more, over the machine's floats ([Binary64]), where a rectangle
    can be computed, and over [Q] with every operation rounded as binary64
    rounds it ([Rounded]), where the rectangle is bounded for every
    bitmap; the slide index of [drawFrame] is embedded in [Rounded] as
    well, to locate the slide boundaries.

    Effects.  [drawFrame] only writes to the 2D context, so its effect is
    the ordered list of context calls it makes; a thrown exception ends the
    list.  The same writer-with-exceptions monad, over another event type,
    carries [startExport]. *)

From Stdlib Require Import ZArith QArith Qround Qminmax Qabs Qpower.
From Stdlib Require Import List String Ascii Bool Lia Lqa.
From Stdlib Require Floats.
Import ListNotations.

Set Warnings "-register-all".

Local Open Scope Z_scope.
Local Open Scope Q_scope.

(** ** JavaScript values *)

(** A [number] that may be [NaN]. *)
Inductive number : Type :=
| NaN
| Num (q : Q).

(** [a < b] on rationals, as a boolean. *)
Definition Qltb (a b : Q) : bool := negb (Qle_bool b a).

(** [x > 0]; false on [NaN]. *)
Definition gt0 (x : number) : bool :=
  match x with
  | Num q => Qltb 0 q
  | NaN => false
  end.

(** [x || d]: [0] and [NaN] are the falsy numbers. *)
Definition or_else (x : number) (d : Q) : number :=
  match x with
  | Num q => if Qeq_bool q 0 then Num d else Num q
  | NaN => Num d
  end.

(** Truthiness of a number ([if (x)], [x && ...]). *)
Definition truthy (x : number) : bool :=
  match x with
  | Num q => negb (Qeq_bool q 0)
  | NaN => false
  end.

(** The value of [x] where the program has just tested [x > 0]. *)
Definition finite (x : number) : Q :=
  match x with
  | Num q => q
  | NaN => 0
  end.

(** NaN-propagating arithmetic; the divisors met below are non-zero
    constants. *)
Definition ndiv (a b : number) : number :=
  match a, b with
  | Num x, Num y => Num (x / y)
  | _, _ => NaN
  end.

Definition nmul (a b : number) : number :=
  match a, b with
  | Num x, Num y => Num (x * y)
  | _, _ => NaN
  end.

Definition nsub (a b : number) : number :=
  match a, b with
  | Num x, Num y => Num (x - y)
  | _, _ => NaN
  end.

(** [ToNumber] of an element read from a [Uint8Array]: [undefined] is
    [NaN]. *)
Definition ToNumber (v : option Z) : number :=
  match v with
  | Some z => Num (inject_Z z)
  | None => NaN
  end.

(** [arr[i]] for an integral index: [undefined] outside the array. *)
Definition array_get {A : Type} (arr : list A) (i : Z) : option A :=
  if (i <? 0)%Z then None else nth_error arr (Z.to_nat i).

Inductive JsError : Type :=
| Error (message : string)
| TypeError (message : string)
| SyntaxError (message : string)
| Rejected (reason : string).

(** How a function body ends. *)
Inductive completion (A : Type) : Type :=
| Normal (a : A)
| Throw (e : JsError).
Arguments Normal {A} a.
Arguments Throw {A} e.

(** ** Effects: the events emitted, in order, and the completion *)

Definition Eff (E A : Type) : Type := (list E * completion A)%type.

Definition ret {E A : Type} (a : A) : Eff E A := ([], Normal a).

Definition throw {E A : Type} (e : JsError) : Eff E A := ([], Throw e).

Definition emit {E : Type} (ev : E) : Eff E unit := ([ev], Normal tt).

Definition bind {E A B : Type} (m : Eff E A) (k : A -> Eff E B) : Eff E B :=
  match m with
  | (evs, Normal a) => let (evs', r) := k a in (evs ++ evs', r)
  | (evs, Throw e) => (evs, Throw e)
  end.

(** [try { m } catch (e) { h e }] *)
Definition try_catch {E A : Type} (m : Eff E A) (h : JsError -> Eff E A)
  : Eff E A :=
  match m with
  | (evs, Normal a) => (evs, Normal a)
  | (evs, Throw e) => let (evs', r) := h e in (evs ++ evs', r)
  end.

Declare Scope eff_scope.
Delimit Scope eff_scope with eff.
Notation "x <- m ;; k" := (bind m (fun x => k))
  (at level 61, m at next level, right associativity) : eff_scope.
Notation "m ;; k" := (bind m (fun _ => k))
  (at level 61, right associativity) : eff_scope.
Local Open Scope eff_scope.

Definition events {E A : Type} (m : Eff E A) : list E := fst m.
Definition outcome {E A : Type} (m : Eff E A) : completion A := snd m.

(** [for (let i = i0; ...; i++) body(i)], [n] iterations. *)
Fixpoint for_loop {E : Type} (i : Z) (n : nat) (body : Z -> Eff E unit)
  : Eff E unit :=
  match n with
  | O => ret tt
  | S n' => body i ;; for_loop (i + 1)%Z n' body
  end.

(** ** The browser objects the component holds *)

Record ImageBitmap : Type := {
  bitmap : nat;          (* which decoded picture *)
  width : Z;
  height : Z
}.

Inductive FontFamily : Type := sans | serif | mono.

Record VideoConfig : Type := {
  title : string;
  subtitle : string;
  fontFamily : FontFamily;
  images : list string;     (* the image files, by name *)
  audio : option string     (* the audio file, by name *)
}.

(** An [AnalyserNode]: [frequencyData] is what the node would report now;
    it changes as the audio plays. *)
Record AnalyserNode : Type := {
  fftSize : nat;
  frequencyData : list Z
}.

Definition frequencyBinCount (a : AnalyserNode) : nat := Nat.div (fftSize a) 2.

(** [analyser.getByteFrequencyData(array)]: the first
    [min(array.length, frequencyBinCount)] entries of [array] are
    overwritten with the current data, the others are left as they are. *)
Definition getByteFrequencyData (a : AnalyserNode) (array : list Z) : list Z :=
  let bins := firstn (frequencyBinCount a) (frequencyData a) in
  firstn (List.length array) bins ++ skipn (List.length bins) array.

(** [new Uint8Array(n)] *)
Definition new_Uint8Array (n : nat) : list Z := repeat 0%Z n.

Record CanvasGradient : Type := {
  gx0 : Q; gy0 : Q; gx1 : Q; gy1 : Q;
  colorStops : list (Q * string)
}.

Definition createLinearGradient (x0 y0 x1 y1 : Q) : CanvasGradient :=
  {| gx0 := x0; gy0 := y0; gx1 := x1; gy1 := y1; colorStops := [] |}.

Definition addColorStop (offset : Q) (color : string) (g : CanvasGradient)
  : CanvasGradient :=
  {| gx0 := gx0 g; gy0 := gy0 g; gx1 := gx1 g; gy1 := gy1 g;
     colorStops := colorStops g ++ [(offset, color)] |}.

Inductive FillStyle : Type :=
| Color (css : string)
| Gradient (g : CanvasGradient).

(** The [CanvasRenderingContext2D] members [drawFrame] uses. *)
Inductive CanvasCall : Type :=
| SetGlobalAlpha (a : Q)
| SetFillStyle (s : FillStyle)
| SetTextAlign (a : string)
| SetFont (f : string)
| DrawImage (img : ImageBitmap) (dx dy dw dh : Q)
| FillRect (x y w h : Q)
| FillText (text : string) (x y : Q)
| BeginPath
| RoundRect (x : Q) (y : number) (w : Q) (h : number) (radii : Q)
| Fill.

Definition Draw (A : Type) : Type := Eff CanvasCall A.

Record HTMLCanvasElement : Type := {
  context2d : bool      (* whether [getContext('2d')] gives a context *)
}.

Record HTMLAudioElement : Type := {
  audio_currentTime : Q;
  audio_duration : number;   (* [NaN] while unknown *)
  audio_ended : bool
}.

(** The props and refs of the [VisualizerCanvas] component that its
    functions read. *)
Record Component : Type := {
  config : VideoConfig;
  isPlaying : bool;
  onExportProgress : bool;                 (* whether the prop is given *)
  canvasRef : option HTMLCanvasElement;
  audioRef : option HTMLAudioElement;
  analyserRef : option AnalyserNode;
  requestRef : option nat;
  imageBitmapsRef : list ImageBitmap
}.

(** ** [VisualizerCanvas.tsx] *)

Definition WIDTH : Q := 1280.
Definition HEIGHT : Q := 720.

(** *** The timing locals of [drawFrame] (lines 86-97) *)

(** [duration > 0 ? duration / totalImages : 5] *)
Definition slideDuration (duration : number) (totalImages : Z) : Q :=
  if gt0 duration then finite duration / inject_Z totalImages else 5.

(** [Math.min(Math.floor(currentTime / slideDuration), totalImages - 1)] *)
Definition currentIndex (currentTime : Q) (duration : number)
  (totalImages : Z) : Z :=
  Z.min (Qfloor (currentTime / slideDuration duration totalImages))
        (totalImages - 1).

(** [(currentIndex + 1) % totalImages]; [%] truncates like [Z.rem]. *)
Definition nextIndex (currentTime : Q) (duration : number)
  (totalImages : Z) : Z :=
  Z.rem (currentIndex currentTime duration totalImages + 1) totalImages.

(** [currentTime - (currentIndex * slideDuration)] *)
Definition timeInSlide (currentTime : Q) (duration : number)
  (totalImages : Z) : Q :=
  currentTime
  - inject_Z (currentIndex currentTime duration totalImages)
    * slideDuration duration totalImages.

Definition fadeDuration : Q := 1.0.

(** The test of line 104:
    [totalImages > 1 && timeInSlide > slideDuration - fadeDuration] *)
Definition crossfading (currentTime : Q) (duration : number)
  (totalImages : Z) : bool :=
  (1 <? totalImages)%Z
  && Qltb (slideDuration duration totalImages - fadeDuration)
          (timeInSlide currentTime duration totalImages).

(** [(timeInSlide - (slideDuration - fadeDuration)) / fadeDuration] *)
Definition fadeProgress (currentTime : Q) (duration : number)
  (totalImages : Z) : Q :=
  (timeInSlide currentTime duration totalImages
   - (slideDuration duration totalImages - fadeDuration)) / fadeDuration.

(** *** [drawImageProp] (lines 187-202) *)

(** The rectangle [(cx, cy, nw, nh)] handed to [ctx.drawImage]. *)
Definition coverRect (img : ImageBitmap) (w h : Q) : Q * Q * Q * Q :=
  let r := Qmin (w / inject_Z (width img)) (h / inject_Z (height img)) in
  let nw := inject_Z (width img) * r in
  let nh := inject_Z (height img) * r in
  let ar := 1 in
  let ar := if Qltb nw w then w / nw else ar in
  let ar := if Qltb (Qabs (ar - 1)) 1e-14 && Qltb nh h then h / nh else ar in
  let nw := nw * ar in
  let nh := nh * ar in
  let cx := (w - nw) * 0.5 in
  let cy := (h - nh) * 0.5 in
  (cx, cy, nw, nh).

(** [img] is [undefined] when the index was outside the array: reading
    [img.width] then throws. *)
Definition drawImageProp (img : option ImageBitmap) (x y w h : Q)
  : Draw unit :=
  match img with
  | None => throw (TypeError "Cannot read properties of undefined")
  | Some img =>
      let '(cx, cy, nw, nh) := coverRect img w h in
      emit (DrawImage img cx cy nw nh)
  end.

(** *** [drawFrame] (lines 82-165) *)

Definition titleFace (f : FontFamily) : string :=
  match f with
  | serif => "Playfair Display"
  | mono => "Roboto Mono"
  | sans => "Inter"
  end.

Definition subtitleFace (f : FontFamily) : string :=
  match f with
  | serif => "Playfair Display"
  | _ => "Inter"
  end.

Definition barWidth : Q := 6.
Definition gap : Q := 2.
Definition maxBarHeight : Q := 150.
Definition visualizerX : Q := 50.
Definition visualizerY : Q := HEIGHT - 50.
Definition barsToDraw : nat := 40.

(** [dataArray[i] / 255 * maxBarHeight] *)
Definition barHeight (dataArray : list Z) (i : Z) : number :=
  let value := array_get dataArray i in
  let percent := ndiv (ToNumber value) (Num 255) in
  nmul percent (Num maxBarHeight).

(** The body of the loop of lines 150-163. *)
Definition drawBar (dataArray : list Z) (i : Z) : Draw unit :=
  let height := barHeight dataArray i in
  let x := visualizerX + inject_Z i * (barWidth + gap) in
  let y := nsub (Num visualizerY) height in
  emit BeginPath ;;
  emit (RoundRect x y barWidth height 4) ;;
  emit Fill.

Definition drawFrame (c : Component) (currentTime : Q) (duration : number)
  (dataArray : list Z) : Draw unit :=
  let imageBitmaps := imageBitmapsRef c in
  if Nat.eqb (List.length imageBitmaps) 0 then ret tt else
  (* 1. Background (Image Transitions) *)
  let totalImages := Z.of_nat (List.length imageBitmaps) in
  let currentIndex := currentIndex currentTime duration totalImages in
  let nextIndex := nextIndex currentTime duration totalImages in
  emit (SetGlobalAlpha 1) ;;
  drawImageProp (array_get imageBitmaps currentIndex) 0 0 WIDTH HEIGHT ;;
  (if crossfading currentTime duration totalImages then
     emit (SetGlobalAlpha (fadeProgress currentTime duration totalImages)) ;;
     drawImageProp (array_get imageBitmaps nextIndex) 0 0 WIDTH HEIGHT
   else ret tt) ;;
  emit (SetGlobalAlpha 1) ;;
  (* 2. Dark Gradient Overlay *)
  let gradient :=
    addColorStop 1 "rgba(0,0,0,0.7)"
      (addColorStop 0.5 "rgba(0,0,0,0)"
         (addColorStop 0 "rgba(0,0,0,0.3)"
            (createLinearGradient 0 0 0 HEIGHT))) in
  emit (SetFillStyle (Gradient gradient)) ;;
  emit (FillRect 0 0 WIDTH HEIGHT) ;;
  (* 3. Title (Fades out after 4 seconds) *)
  (if Qltb currentTime 4 then
     let titleOpacity := 1 - currentTime / 4 in
     emit (SetGlobalAlpha (Qmax 0 titleOpacity)) ;;
     emit (SetFillStyle (Color "white")) ;;
     emit (SetTextAlign "center") ;;
     emit (SetFont ("bold 80px " ++ titleFace (fontFamily (config c)))) ;;
     emit (FillText (title (config c)) (WIDTH / 2) (HEIGHT / 2)) ;;
     emit (SetGlobalAlpha 1)
   else ret tt) ;;
  (* 4. Subtitle *)
  emit (SetFillStyle (Color "rgba(255, 255, 255, 0.9)")) ;;
  emit (SetTextAlign "right") ;;
  emit (SetFont ("italic 30px " ++ subtitleFace (fontFamily (config c)))) ;;
  emit (FillText (subtitle (config c)) (WIDTH - 50) (HEIGHT - 50)) ;;
  (* 5. Visualizer *)
  match analyserRef c with
  | Some analyser =>
      let dataArray := getByteFrequencyData analyser dataArray in
      emit (SetFillStyle (Color "#4E8cFF")) ;;
      for_loop 0 barsToDraw (drawBar dataArray)
  | None => ret tt
  end.

(** *** The drivers: [animate] (lines 167-184), [startExport] and
    [checkEnd] (lines 204-284) *)

(** What the drivers do to the page, besides drawing. *)
Inductive BrowserEvent : Type :=
| Canvas (call : CanvasCall)
| RequestAnimationFrame (callback : string)
| CancelAnimationFrame (id : nat)
| AudioPause
| AudioSetCurrentTime (t : Q)
| AudioPlay
| CanvasCaptureStream (fps : Z)
| AudioCaptureStream
| StreamAddTrack
| NewMediaRecorder (mimeType : option string)
| RecorderStart
| RecorderStop
| ExportProgress (percent : Q)
| ConsoleError (label : string).

(** A drawing carried out on the canvas of the page. *)
Definition on_canvas {A : Type} (m : Draw A) : Eff BrowserEvent A :=
  (map Canvas (fst m), snd m).

Definition animate (c : Component) : Eff BrowserEvent unit :=
  match canvasRef c, audioRef c with
  | Some canvas, Some audio =>
      if negb (context2d canvas) then ret tt else
      let currentTime := audio_currentTime audio in
      let duration := or_else (audio_duration audio) 1 in
      let bufferLength :=
        match analyserRef c with
        | Some analyser => frequencyBinCount analyser
        | None => O
        end in
      let dataArray := new_Uint8Array bufferLength in
      on_canvas (drawFrame c currentTime duration dataArray) ;;
      if isPlaying c then emit (RequestAnimationFrame "animate") else ret tt
  | _, _ => ret tt
  end.

(** One run of [checkEnd], on the state the component has at that frame. *)
Definition checkEnd (c : Component) (canvas : HTMLCanvasElement)
  (audio : HTMLAudioElement) : Eff BrowserEvent unit :=
  if audio_ended audio then emit RecorderStop
  else
    (if onExportProgress c && truthy (audio_duration audio) then
       emit (ExportProgress
               (audio_currentTime audio / finite (audio_duration audio) * 100))
     else ret tt) ;;
    emit (RequestAnimationFrame "checkEnd") ;;
    if context2d canvas then
      match analyserRef c with
      | Some analyser =>
          let dataArray := new_Uint8Array (frequencyBinCount analyser) in
          on_canvas (drawFrame c (audio_currentTime audio)
                       (audio_duration audio) dataArray)
      | None => ret tt
      end
    else ret tt.

(** What the browser answers during [startExport]. *)
Record Platform : Type := {
  audioTracks : option nat;
    (* [None]: the audio element has no [captureStream];
       [Some n]: its stream has [n] audio tracks *)
  isTypeSupported : string -> bool;
  recorderAccepts : string -> bool;
    (* whether [new MediaRecorder(stream, { mimeType })] succeeds *)
  recorderDefault : bool;
    (* whether [new MediaRecorder(stream)] succeeds *)
  playRejection : option JsError
    (* [Some e]: the promise of [audio.play()] rejects with [e] *)
}.

Definition chooseMimeType (p : Platform) : string :=
  if isTypeSupported p "video/mp4" then "video/mp4"
  else if isTypeSupported p "video/webm" then "video/webm"
  else "video/webm;codecs=vp9".

(** [startExport] up to the moment the recorder is started.  [Throw e] is
    the returned promise rejected with [e]; [Normal mimeType] is the
    recording under way, to be resolved with a blob of that type when
    [checkEnd] stops the recorder. *)
Definition startExport (p : Platform) (c : Component)
  : Eff BrowserEvent string :=
  match canvasRef c, audioRef c with
  | Some canvas, Some audio =>
      (match requestRef c with
       | Some id =>
           if Nat.eqb id 0 then ret tt else emit (CancelAnimationFrame id)
       | None => ret tt
       end) ;;
      emit AudioPause ;;
      emit (AudioSetCurrentTime 0) ;;
      emit (CanvasCaptureStream 30) ;;
      (match audioTracks p with
       | Some tracks =>
           emit AudioCaptureStream ;;
           if Nat.ltb 0 tracks then emit StreamAddTrack else ret tt
       | None => ret tt
       end) ;;
      let mimeType := chooseMimeType p in
      try_catch
        (if recorderAccepts p mimeType
         then emit (NewMediaRecorder (Some mimeType))
         else throw (Error "NotSupportedError"))
        (fun _ =>
           if recorderDefault p then emit (NewMediaRecorder None)
           else throw (Error "NotSupportedError")) ;;
      emit AudioPlay ;;
      match playRejection p with
      | None => emit RecorderStart ;; ret mimeType
      | Some e => emit (ConsoleError "Export Play Error:") ;; throw e
      end
  | _, _ => throw (Error "Not ready")
  end.

(** ** The 2D context, as far as the calls above act on it

    The state a [CanvasRenderingContext2D] keeps and what each call does
    with it (HTML Living Standard, 4.12.5): a setter of [globalAlpha]
    outside [0, 1] is ignored; [roundRect] with a non-finite coordinate
    adds nothing to the path; filling an empty path paints nothing.  The
    surface is the ordered record of what was painted. *)

Record Subpath : Type := {
  sx : Q; sy : Q; sw : Q; sh : Q; sradii : Q
}.

Inductive Paint : Type :=
| PaintImage (img : ImageBitmap) (dx dy dw dh : Q) (alpha : Q)
| PaintRect (style : FillStyle) (x y w h : Q) (alpha : Q)
| PaintText (text : string) (x y : Q) (style : FillStyle)
    (font align : string) (alpha : Q)
| PaintPath (path : list Subpath) (style : FillStyle) (alpha : Q).

Record Context2D : Type := {
  globalAlpha : Q;
  fillStyle : FillStyle;
  textAlign : string;
  font : string;
  path : list Subpath;
  surface : list Paint
}.

Definition painted (p : Paint) (s : Context2D) : Context2D :=
  {| globalAlpha := globalAlpha s; fillStyle := fillStyle s;
     textAlign := textAlign s; font := font s; path := path s;
     surface := surface s ++ [p] |}.

(** The values a setter of [globalAlpha] accepts. *)
Definition validAlpha (a : Q) : bool := Qle_bool 0 a && Qle_bool a 1.

Definition exec (call : CanvasCall) (s : Context2D) : Context2D :=
  match call with
  | SetGlobalAlpha a =>
      if validAlpha a then
        {| globalAlpha := a; fillStyle := fillStyle s;
           textAlign := textAlign s; font := font s; path := path s;
           surface := surface s |}
      else s
  | SetFillStyle st =>
      {| globalAlpha := globalAlpha s; fillStyle := st;
         textAlign := textAlign s; font := font s; path := path s;
         surface := surface s |}
  | SetTextAlign a =>
      {| globalAlpha := globalAlpha s; fillStyle := fillStyle s;
         textAlign := a; font := font s; path := path s;
         surface := surface s |}
  | SetFont f =>
      {| globalAlpha := globalAlpha s; fillStyle := fillStyle s;
         textAlign := textAlign s; font := f; path := path s;
         surface := surface s |}
  | DrawImage img dx dy dw dh =>
      painted (PaintImage img dx dy dw dh (globalAlpha s)) s
  | FillRect x y w h =>
      painted (PaintRect (fillStyle s) x y w h (globalAlpha s)) s
  | FillText text x y =>
      painted (PaintText text x y (fillStyle s) (font s) (textAlign s)
                 (globalAlpha s)) s
  | BeginPath =>
      {| globalAlpha := globalAlpha s; fillStyle := fillStyle s;
         textAlign := textAlign s; font := font s; path := [];
         surface := surface s |}
  | RoundRect x (Num y) w (Num h) r =>
      {| globalAlpha := globalAlpha s; fillStyle := fillStyle s;
         textAlign := textAlign s; font := font s;
         path := path s ++ [{| sx := x; sy := y; sw := w; sh := h;
                               sradii := r |}];
         surface := surface s |}
  | RoundRect _ _ _ _ _ => s
  | Fill =>
      match path s with
      | [] => s
      | sub :: rest =>
          painted (PaintPath (sub :: rest) (fillStyle s) (globalAlpha s)) s
      end
  end.

Definition run (calls : list CanvasCall) (s : Context2D) : Context2D :=
  fold_left (fun st call => exec call st) calls s.

(** A context as [getContext('2d')] first gives it, on a cleared canvas. *)
Definition fresh : Context2D :=
  {| globalAlpha := 1; fillStyle := Color "#000000"; textAlign := "start";
     font := "10px sans-serif"; path := []; surface := [] |}.

(** *** State carried from one frame to the next

    A frame starts on whatever styles, opacity and path the previous frame
    left in the context.  [selfContained] checks that a run of calls fixes
    each of these before it reads it, with [learn] and [reads] saying what
    a call fixes and reads. *)

(** Which parts of the context state the calls so far have fixed. *)
Record Known : Type := {
  k_alpha : bool; k_fill : bool; k_align : bool; k_font : bool; k_path : bool
}.

Definition nothingKnown : Known :=
  {| k_alpha := false; k_fill := false; k_align := false; k_font := false;
     k_path := false |}.

(** What is fixed after one more call. *)
Definition learn (call : CanvasCall) (k : Known) : Known :=
  match call with
  | SetGlobalAlpha a =>
      {| k_alpha := k_alpha k || validAlpha a; k_fill := k_fill k;
         k_align := k_align k; k_font := k_font k; k_path := k_path k |}
  | SetFillStyle _ =>
      {| k_alpha := k_alpha k; k_fill := true;
         k_align := k_align k; k_font := k_font k; k_path := k_path k |}
  | SetTextAlign _ =>
      {| k_alpha := k_alpha k; k_fill := k_fill k;
         k_align := true; k_font := k_font k; k_path := k_path k |}
  | SetFont _ =>
      {| k_alpha := k_alpha k; k_fill := k_fill k;
         k_align := k_align k; k_font := true; k_path := k_path k |}
  | BeginPath =>
      {| k_alpha := k_alpha k; k_fill := k_fill k;
         k_align := k_align k; k_font := k_font k; k_path := true |}
  | _ => k
  end.

(** Whether the call reads only state that is fixed. *)
Definition reads (call : CanvasCall) (k : Known) : bool :=
  match call with
  | DrawImage _ _ _ _ _ => k_alpha k
  | FillRect _ _ _ _ => k_alpha k && k_fill k
  | FillText _ _ _ => k_alpha k && k_fill k && k_align k && k_font k
  | RoundRect _ _ _ _ _ => k_path k
  | Fill => k_alpha k && k_fill k && k_path k
  | _ => true
  end.

(** A run of calls that sets whatever it uses before using it. *)
Fixpoint selfContained (k : Known) (calls : list CanvasCall) : bool :=
  match calls with
  | [] => true
  | call :: rest => reads call k && selfContained (learn call k) rest
  end.

(** Two contexts that agree on what is fixed, and on the surface. *)
Definition agree (k : Known) (s1 s2 : Context2D) : Prop :=
  (k_alpha k = true -> globalAlpha s1 = globalAlpha s2)
  /\ (k_fill k = true -> fillStyle s1 = fillStyle s2)
  /\ (k_align k = true -> textAlign s1 = textAlign s2)
  /\ (k_font k = true -> font s1 = font s2)
  /\ (k_path k = true -> path s1 = path s2)
  /\ surface s1 = surface s2.

(** *** What a paint leaves visible

    A subpath of zero width or zero height encloses no pixel, so filling
    it changes no pixel; a fill whose path encloses nothing leaves the
    canvas as it was.  [ink] is the surface without such paints. *)






(** ** What a frame shows, read off the calls [drawFrame] made *)

(** The images drawn, in order, each with the opacity last written to
    [globalAlpha] before it. *)
Fixpoint imageAlphas (written : Q) (calls : list CanvasCall)
  : list (ImageBitmap * Q) :=
  match calls with
  | [] => []
  | SetGlobalAlpha a :: rest => imageAlphas a rest
  | DrawImage img _ _ _ _ :: rest => (img, written) :: imageAlphas written rest
  | _ :: rest => imageAlphas written rest
  end.

(** The texts drawn, each with its anchor and the opacity last written. *)
Fixpoint textAlphas (written : Q) (calls : list CanvasCall)
  : list (string * Q * Q * Q) :=
  match calls with
  | [] => []
  | SetGlobalAlpha a :: rest => textAlphas a rest
  | FillText text x y :: rest => (text, x, y, written) :: textAlphas written rest
  | _ :: rest => textAlphas written rest
  end.

(** The image shown as the current slide. *)
Definition currentImageOf (calls : list CanvasCall) : option ImageBitmap :=
  match imageAlphas 1 calls with
  | (img, _) :: _ => Some img
  | [] => None
  end.

(** The image blended over it, if one is. *)
Definition nextImageOf (calls : list CanvasCall) : option ImageBitmap :=
  match imageAlphas 1 calls with
  | _ :: (img, _) :: _ => Some img
  | _ => None
  end.

(** The opacity computed for the next image; [0] when it is not drawn. *)
Definition crossfadeAlphaOf (calls : list CanvasCall) : Q :=
  match imageAlphas 1 calls with
  | _ :: (_, a) :: _ => a
  | _ => 0
  end.

Definition atCentre (t : string * Q * Q * Q) : bool :=
  let '(_, x, y, _) := t in
  Qeq_bool x (WIDTH / 2) && Qeq_bool y (HEIGHT / 2).

(** Whether the title (the text anchored at the centre) is drawn. *)
Definition titleDrawn (calls : list CanvasCall) : bool :=
  existsb atCentre (textAlphas 1 calls).

(** The opacity of the title; [0] when it is not drawn. *)
Definition titleAlphaOf (calls : list CanvasCall) : Q :=
  match find atCentre (textAlphas 1 calls) with
  | Some (_, _, _, a) => a
  | None => 0
  end.

(** The bars of the visualizer: the [roundRect] calls, in order. *)
Fixpoint barsOf (calls : list CanvasCall) : list (Q * number * Q * number) :=
  match calls with
  | [] => []
  | RoundRect x y w h _ :: rest => (x, y, w, h) :: barsOf rest
  | _ :: rest => barsOf rest
  end.

(** ** The frame clock as the specification words it (section 4.1)

    Kept apart from the embedding: these definitions follow the text of the
    specification and are what the code is compared with. *)
Module FrameClock.

Definition slideDuration (duration : Q) (imageCount : Z) : Q :=
  if Qltb 0 duration then duration / inject_Z imageCount else 5.

Definition currentIndex (currentTime duration : Q) (imageCount : Z) : Z :=
  Z.min (Qfloor (currentTime / slideDuration duration imageCount))
        (imageCount - 1).

Definition nextIndex (currentTime duration : Q) (imageCount : Z) : Z :=
  ((currentIndex currentTime duration imageCount + 1) mod imageCount)%Z.

Definition timeInSlide (currentTime duration : Q) (imageCount : Z) : Q :=
  currentTime
  - inject_Z (currentIndex currentTime duration imageCount)
    * slideDuration duration imageCount.

Definition crossfadeAlpha (currentTime duration : Q) (imageCount : Z) : Q :=
  if (1 <? imageCount)%Z
     && Qltb (slideDuration duration imageCount - 1.0)
             (timeInSlide currentTime duration imageCount)
  then (timeInSlide currentTime duration imageCount
        - (slideDuration duration imageCount - 1.0)) / 1.0
  else 0.

Definition titleAlpha (currentTime : Q) : Q :=
  if Qltb currentTime 4 then Qmax 0 (1 - currentTime / 4) else 0.

End FrameClock.

(** ** [geminiService.ts] *)

Record ProcessEnv : Type := {
  API_KEY : option string
}.

Record GoogleGenAI : Type := {
  apiKey : string
}.

Inductive Schema : Type :=
| TypeSTRING
| TypeARRAY (items : Schema)
| TypeOBJECT (properties : list (string * Schema)).

Record GenerateContentParameters : Type := {
  model : string;
  contents : string;
  responseMimeType : string;
  responseSchema : Schema
}.

Record GenerateContentResponse : Type := {
  text : option string
}.

(** The values [JSON.parse] can give. *)
Inductive json : Type :=
| JNull
| JBool (b : bool)
| JNumber (q : Q)
| JString (s : string)
| JArray (elements : list json)
| JObject (members : list (string * json)).

Inductive ConsoleEvent : Type :=
| console_error (label : string) (error : JsError).

Definition of_completion {E A : Type} (r : completion A) : Eff E A := ([], r).

(** [!apiKey] holds for [undefined] and for the empty string. *)
Definition getAiClient (env : ProcessEnv) : completion GoogleGenAI :=
  match API_KEY env with
  | Some key =>
      if String.eqb key "" then Throw (Error "API_KEY is missing")
      else Normal {| apiKey := key |}
  | None => Throw (Error "API_KEY is missing")
  end.

Definition dquote : string := String (ascii_of_nat 34) EmptyString.
Definition newline : string := String (ascii_of_nat 10) EmptyString.

Definition metadataPrompt (title subtitle : string) : string :=
  (newline
   ++ "      I have created a music video with the title " ++ dquote ++ title
   ++ dquote ++ " and subtitle " ++ dquote ++ subtitle ++ dquote ++ "."
   ++ newline
   ++ "      Generate a catchy YouTube video description and a list of 5 relevant hashtags."
   ++ newline
   ++ "      Return the response in JSON format."
   ++ newline ++ "    ")%string.

Definition metadataRequest (title subtitle : string)
  : GenerateContentParameters :=
  {| model := "gemini-2.5-flash";
     contents := metadataPrompt title subtitle;
     responseMimeType := "application/json";
     responseSchema :=
       TypeOBJECT [("description"%string, TypeSTRING);
                   ("hashtags"%string, TypeARRAY TypeSTRING)] |}.

Definition metadataFallback (title : string) : json :=
  JObject
    [("description"%string,
      JString ("Check out my new video: " ++ title ++ "!"));
     ("hashtags"%string,
      JArray [JString "#musicvideo"; JString "#newupload"])].

Section GeminiService.

(** The two things the module calls and does not define: the awaited
    [ai.models.generateContent] (a rejection is [Throw]) and
    [JSON.parse]. *)
Variable generateContent :
  GoogleGenAI -> GenerateContentParameters ->
  completion GenerateContentResponse.
Variable JSON_parse : option string -> completion json.

Definition generateVideoMetadata (env : ProcessEnv)
  (title subtitle : string) : Eff ConsoleEvent json :=
  try_catch
    (ai <- of_completion (getAiClient env) ;;
     response <-
       of_completion (generateContent ai (metadataRequest title subtitle)) ;;
     of_completion (JSON_parse (text response)))
    (fun error =>
       emit (console_error "Gemini Metadata Error:" error) ;;
       ret (metadataFallback title)).

End GeminiService.

(** ** The calls of a frame, layer by layer

    Names for the runs of calls that [drawFrame] is shown to emit
    ([drawFrame_layers] below). *)

Definition imageCall (img : ImageBitmap) : CanvasCall :=
  let '(cx, cy, nw, nh) := coverRect img WIDTH HEIGHT in
  DrawImage img cx cy nw nh.

Definition backgroundCalls (current next : ImageBitmap) (currentTime : Q)
  (duration : number) (totalImages : Z) : list CanvasCall :=
  [SetGlobalAlpha 1; imageCall current]
  ++ (if crossfading currentTime duration totalImages
      then [SetGlobalAlpha (fadeProgress currentTime duration totalImages);
            imageCall next]
      else [])
  ++ [SetGlobalAlpha 1].

Definition overlayCalls : list CanvasCall :=
  [SetFillStyle
     (Gradient
        (addColorStop 1 "rgba(0,0,0,0.7)"
           (addColorStop 0.5 "rgba(0,0,0,0)"
              (addColorStop 0 "rgba(0,0,0,0.3)"
                 (createLinearGradient 0 0 0 HEIGHT)))));
   FillRect 0 0 WIDTH HEIGHT].

Definition titleCalls (cfg : VideoConfig) (currentTime : Q)
  : list CanvasCall :=
  if Qltb currentTime 4 then
    [SetGlobalAlpha (Qmax 0 (1 - currentTime / 4));
     SetFillStyle (Color "white");
     SetTextAlign "center";
     SetFont ("bold 80px " ++ titleFace (fontFamily cfg));
     FillText (title cfg) (WIDTH / 2) (HEIGHT / 2);
     SetGlobalAlpha 1]
  else [].

Definition subtitleCalls (cfg : VideoConfig) : list CanvasCall :=
  [SetFillStyle (Color "rgba(255, 255, 255, 0.9)");
   SetTextAlign "right";
   SetFont ("italic 30px " ++ subtitleFace (fontFamily cfg));
   FillText (subtitle cfg) (WIDTH - 50) (HEIGHT - 50)].

Definition barCalls (dataArray : list Z) (i : Z) : list CanvasCall :=
  [BeginPath;
   RoundRect (visualizerX + inject_Z i * (barWidth + gap))
     (nsub (Num visualizerY) (barHeight dataArray i))
     barWidth (barHeight dataArray i) 4;
   Fill].

(** The indices [i0, i0 + 1, ..., i0 + n - 1] a loop runs through. *)
Definition indices (i0 : Z) (n : nat) : list Z :=
  map (fun k => (i0 + Z.of_nat k)%Z) (seq 0 n).

Definition visualizerCalls (analyser : option AnalyserNode)
  (dataArray : list Z) : list CanvasCall :=
  match analyser with
  | Some a =>
      SetFillStyle (Color "#4E8cFF")
      :: flat_map (barCalls (getByteFrequencyData a dataArray))
           (indices 0 barsToDraw)
  | None => []
  end.

(** The opacity last written once [calls] are done. *)
Fixpoint lastAlpha (written : Q) (calls : list CanvasCall) : Q :=
  match calls with
  | [] => written
  | SetGlobalAlpha a :: rest => lastAlpha a rest
  | _ :: rest => lastAlpha written rest
  end.

Definition isDrawImage (call : CanvasCall) : bool :=
  match call with
  | DrawImage _ _ _ _ _ => true
  | _ => false
  end.

Definition isFillText (call : CanvasCall) : bool :=
  match call with
  | FillText _ _ _ => true
  | _ => false
  end.

(** ** [drawImageProp] in binary64

    The same lines 188-199 over the machine's floats, to see what rounding
    does to the rectangle.  [Math.min] gives NaN when an argument is
    NaN. *)
Module Binary64.
Import Floats.
Local Open Scope float_scope.

Definition Math_min (a b : float) : float :=
  if is_nan a || is_nan b then nan else if b <? a then b else a.

Definition coverRect (imgWidth imgHeight w h : float)
  : float * float * float * float :=
  let r := Math_min (w / imgWidth) (h / imgHeight) in
  let nw := imgWidth * r in
  let nh := imgHeight * r in
  let ar := 1 in
  let ar := if nw <? w then w / nw else ar in
  (* 0x1.6849b86a12b9bp-47 is the float written 1e-14 *)
  let ar := if (abs (ar - 1) <? 0x1.6849b86a12b9bp-47) && (nh <? h)
            then h / nh else ar in
  let nw := nw * ar in
  let nh := nh * ar in
  let cx := (w - nw) * 0.5 in
  let cy := (h - nh) * 0.5 in
  (cx, cy, nw, nh).

Definition WIDTH : float := 1280.
Definition HEIGHT : float := 720.

(** A 4436 x 76 strip and a 601 x 706 upright, fitted to the box. *)
Definition stripRect : float * float * float * float :=
  coverRect 4436 76 WIDTH HEIGHT.
Definition uprightRect : float * float * float * float :=
  coverRect 601 706 WIDTH HEIGHT.

End Binary64.

(** ** The arithmetic with every operation rounded

    The slide index of [drawFrame] and lines 188-199 of [drawImageProp]
    once more: over [Q], with each arithmetic operation followed by the
    rounding binary64 applies to its exact result, so that the rectangle
    can be bounded for every bitmap and not only computed for one, and
    the slide boundaries located.  [fl x] is the binary64 number nearest to [x], ties going to
    the even significand; below 2^-1022 the grid is the subnormal one, of
    step 2^-1074.  Overflow is left out: no value here comes near 2^1024.
    Comparisons, [Math.min] and [Math.abs] are exact in binary64, and the
    width and height of a bitmap are integers below 2^32, which binary64
    holds exactly. *)
Module Rounded.

Definition pow2 (e : Z) : Q := 2 ^ e.

(** The [k] with [2^k <= x < 2^(k+1)], for [x > 0]. *)
Definition ilog2 (x : Q) : Z :=
  let k := (Z.log2 (Qnum x) - Z.log2 (Zpos (Qden x)))%Z in
  if Qle_bool (pow2 k) x then k else (k - 1)%Z.

Definition roundHalfEven (y : Q) : Z :=
  let f := Qfloor y in
  match Qcompare (y - inject_Z f) (1 # 2) with
  | Lt => f
  | Gt => (f + 1)%Z
  | Eq => if Z.even f then f else (f + 1)%Z
  end.

(** The exponent of the last place of [x]: 53 significant bits, and never
    below the subnormal step. *)
Definition exponent (x : Q) : Z := Z.max (ilog2 (Qabs x) - 52) (-1074).

Definition fl (x : Q) : Q :=
  if Qeq_bool x 0 then 0
  else inject_Z (roundHalfEven (x / pow2 (exponent x))) * pow2 (exponent x).

(** The unit roundoff 2^-53, and the bound 2^-50 of the results below. *)
Definition u : Q := 1 # 9007199254740992.
Definition eps : Q := 1 # 1125899906842624.

(** The float written [1e-14]. *)
Definition c14 : Q := fl 1e-14.

(** Above [small] = 2^-80 every rounding is in the normal range. *)
Definition small : Q := 1 # 1208925819614629174706176.

(** The timing locals of [drawFrame] (lines 88-93), a division and a
    quotient rounded. *)
Definition slideDuration (duration : number) (totalImages : Z) : Q :=
  if gt0 duration then fl (finite duration / inject_Z totalImages) else 5.

Definition currentIndex (currentTime : Q) (duration : number)
  (totalImages : Z) : Z :=
  Z.min (Qfloor (fl (currentTime / slideDuration duration totalImages)))
        (totalImages - 1).

Definition nextIndex (currentTime : Q) (duration : number)
  (totalImages : Z) : Z :=
  Z.rem (currentIndex currentTime duration totalImages + 1) totalImages.

(** Lines 188-199. *)
Definition coverRect (img : ImageBitmap) (w h : Q) : Q * Q * Q * Q :=
  let r := Qmin (fl (w / inject_Z (width img)))
                (fl (h / inject_Z (height img))) in
  let nw := fl (inject_Z (width img) * r) in
  let nh := fl (inject_Z (height img) * r) in
  let ar := 1 in
  let ar := if Qltb nw w then fl (w / nw) else ar in
  let ar := if Qltb (Qabs (fl (ar - 1))) (fl 1e-14) && Qltb nh h
            then fl (h / nh) else ar in
  let nw := fl (nw * ar) in
  let nh := fl (nh * ar) in
  let cx := fl (fl (w - nw) * 0.5) in
  let cy := fl (fl (h - nh) * 0.5) in
  (cx, cy, nw, nh).

Definition drawImageProp (img : option ImageBitmap) (x y w h : Q)
  : Draw unit :=
  match img with
  | None => throw (TypeError "Cannot read properties of undefined")
  | Some img =>
      let '(cx, cy, nw, nh) := coverRect img w h in
      emit (DrawImage img cx cy nw nh)
  end.

(** The rational a finite float stands for. *)
Definition ofFloat (f : PrimFloat.float) : option Q :=
  match FloatOps.Prim2SF f with
  | SpecFloat.S754_zero _ => Some 0
  | SpecFloat.S754_finite s m e =>
      Some ((if s then -1 else 1) * inject_Z (Zpos m) * pow2 e)
  | _ => None
  end.

Definition sameNumber (f : PrimFloat.float) (q : Q) : bool :=
  match ofFloat f with
  | Some q' => Qeq_bool q' q
  | None => false
  end.

(** [Binary64.coverRect] and [coverRect] give the same rectangle for a
    bitmap of the given size. *)
Definition sameRect (size : Z * Z) : bool :=
  let '(iw, ih) := size in
  let '(cx, cy, nw, nh) :=
    Binary64.coverRect (PrimFloat.of_uint63 (Uint63.of_Z iw))
      (PrimFloat.of_uint63 (Uint63.of_Z ih)) Binary64.WIDTH Binary64.HEIGHT in
  let '(cx', cy', nw', nh') :=
    coverRect {| bitmap := 0; width := iw; height := ih |} WIDTH HEIGHT in
  sameNumber cx cx' && sameNumber cy cy'
  && sameNumber nw nw' && sameNumber nh nh'.

End Rounded.

(** ** The rest of [VisualizerCanvas.tsx] *)

(** *** [loadImages] (lines 30-37) *)

(** [await Promise.all(promises)]: the values in order when every promise
    fulfils, a rejection when one rejects.  Which rejection is reported
    depends on timing; the first in order stands for it. *)
Fixpoint Promise_all {A : Type} (promises : list (completion A))
  : completion (list A) :=
  match promises with
  | [] => Normal []
  | Normal a :: rest =>
      match Promise_all rest with
      | Normal values => Normal (a :: values)
      | Throw e => Throw e
      end
  | Throw e :: _ => Throw e
  end.

Definition set_imageBitmapsRef (bitmaps : list ImageBitmap) (c : Component)
  : Component :=
  {| config := config c; isPlaying := isPlaying c;
     onExportProgress := onExportProgress c; canvasRef := canvasRef c;
     audioRef := audioRef c; analyserRef := analyserRef c;
     requestRef := requestRef c; imageBitmapsRef := bitmaps |}.

(** The effect on [config.images]: the ref is assigned after the [await],
    so a rejection leaves it as it was (nothing catches it). *)
Definition loadImages (createImageBitmap : string -> completion ImageBitmap)
  (c : Component) : Component :=
  match Promise_all (map createImageBitmap (images (config c))) with
  | Normal bitmaps => set_imageBitmapsRef bitmaps c
  | Throw _ => c
  end.

(** *** The recorder's handlers in [startExport] (lines 243-254) *)

Record Blob : Type := {
  blob_bytes : list Z;
  blob_type : string
}.

Definition blob_size (b : Blob) : nat := List.length (blob_bytes b).

(** [new Blob(parts, { type })] *)
Definition new_Blob (parts : list Blob) (type : string) : Blob :=
  {| blob_bytes := flat_map blob_bytes parts; blob_type := type |}.

(** [recorder.ondataavailable]: [if (e.data.size > 0) chunks.push(e.data)] *)
Definition ondataavailable (chunks : list Blob) (data : Blob) : list Blob :=
  if Nat.ltb 0 (blob_size data) then chunks ++ [data] else chunks.

(** [recorder.onstop]: the promise is resolved with the blob, then the
    audio is paused and rewound. *)
Definition onstop (chunks : list Blob) (mimeType : string)
  : Eff BrowserEvent Blob :=
  let blob := new_Blob chunks mimeType in
  emit AudioPause ;;
  emit (AudioSetCurrentTime 0) ;;
  ret blob.

(** The chunks held once the recorder has delivered [datas], in order. *)
Definition collected (datas : list Blob) : list Blob :=
  fold_left ondataavailable datas [].

(** *** The [then] callback of [audio.play()] (lines 257-263)

    [startExport] above stops where [recorder.start()] is called.  Here
    the callback is spelled out: [start] is how [recorder.start()] ends
    and [firstTick] is the first run of [checkEnd]; what either throws is
    caught by the [catch] chained after the [then], logged like a refusal
    of [play()] and given to [reject]. *)
Definition startExportThen (start : completion unit)
  (firstTick : Eff BrowserEvent unit) (p : Platform) (c : Component)
  : Eff BrowserEvent string :=
  match canvasRef c, audioRef c with
  | Some canvas, Some audio =>
      (match requestRef c with
       | Some id =>
           if Nat.eqb id 0 then ret tt else emit (CancelAnimationFrame id)
       | None => ret tt
       end) ;;
      emit AudioPause ;;
      emit (AudioSetCurrentTime 0) ;;
      emit (CanvasCaptureStream 30) ;;
      (match audioTracks p with
       | Some tracks =>
           emit AudioCaptureStream ;;
           if Nat.ltb 0 tracks then emit StreamAddTrack else ret tt
       | None => ret tt
       end) ;;
      let mimeType := chooseMimeType p in
      try_catch
        (if recorderAccepts p mimeType
         then emit (NewMediaRecorder (Some mimeType))
         else throw (Error "NotSupportedError"))
        (fun _ =>
           if recorderDefault p then emit (NewMediaRecorder None)
           else throw (Error "NotSupportedError")) ;;
      emit AudioPlay ;;
      try_catch
        (match playRejection p with
         | None =>
             emit RecorderStart ;;
             of_completion start ;;
             firstTick ;;
             ret mimeType
         | Some e => throw e
         end)
        (fun e => emit (ConsoleError "Export Play Error:") ;; throw e)
  | _, _ => throw (Error "Not ready")
  end.

(** *** Reading the drivers' events *)

(** The calls made on the canvas among the events of a driver. *)
Definition canvasCalls (evs : list BrowserEvent) : list CanvasCall :=
  flat_map (fun ev => match ev with Canvas call => [call] | _ => [] end) evs.

(** How often a frame was requested. *)
Definition frameRequests (evs : list BrowserEvent) : nat :=
  List.length
    (filter (fun ev => match ev with
                       | RequestAnimationFrame _ => true
                       | _ => false
                       end) evs).

(** The progress values reported. *)
Definition progressReports (evs : list BrowserEvent) : list Q :=
  flat_map (fun ev => match ev with ExportProgress p => [p] | _ => [] end)
    evs.

(** ** The rest of [geminiService.ts]: [analyzeMoodAndSuggestFont] *)

Definition squote : string := String (ascii_of_nat 39) EmptyString.

Definition moodPrompt (audioFileName : string) : string :=
  (newline
   ++ "      Suggest a font style (" ++ squote ++ "sans" ++ squote ++ ", "
   ++ squote ++ "serif" ++ squote ++ ", or " ++ squote ++ "mono" ++ squote
   ++ ") and a short 3-word subtitle "
   ++ newline
   ++ "      for a music video based on this audio filename: " ++ dquote
   ++ audioFileName ++ dquote ++ "."
   ++ newline
   ++ "      Return JSON."
   ++ newline ++ "    ")%string.

Definition moodRequest (audioFileName : string) : GenerateContentParameters :=
  {| model := "gemini-2.5-flash";
     contents := moodPrompt audioFileName;
     responseMimeType := "application/json";
     responseSchema :=
       TypeOBJECT [("font"%string, TypeSTRING);
                   ("suggestedSubtitle"%string, TypeSTRING)] |}.

Definition moodFallback : json :=
  JObject [("font"%string, JString "sans");
           ("suggestedSubtitle"%string, JString "Music & Vibes")].

Section GeminiMood.

Variable generateContent :
  GoogleGenAI -> GenerateContentParameters ->
  completion GenerateContentResponse.
Variable JSON_parse : option string -> completion json.

Definition analyzeMoodAndSuggestFont (env : ProcessEnv)
  (audioFileName : string) : Eff ConsoleEvent json :=
  try_catch
    (ai <- of_completion (getAiClient env) ;;
     response <-
       of_completion (generateContent ai (moodRequest audioFileName)) ;;
     of_completion (JSON_parse (text response)))
    (fun error =>
       emit (console_error "Gemini Analysis Error:" error) ;;
       ret moodFallback).

End GeminiMood.

(** ** [App.tsx]: the state of the page and its handlers

    The state is the nine [useState] cells.  A handler is modelled up to
    its first [await]; what runs after an [await] or a timer is a
    continuation, kept in a list of pending work until the page is told
    how the awaited call ended.  The step relation [App.Step] offers a
    control exactly when the render functions show it enabled; it has the
    events that leave the page standing.  [App.PageStep] adds the events
    on which React takes the page down, and what still happens after. *)
Module App.

Inductive AppStep : Type := LOGIN | UPLOAD | EDITOR | PROCESSING | DONE.

Record User : Type := {
  name : string;
  avatar : string;
  email : string
}.

(** A value of type [any] that came out of [JSON.parse]: [undefined] or a
    JSON value. *)
Definition any : Type := option json.

(** Truthiness: [undefined], [null], [false], [0] and [""] are falsy. *)
Definition truthyAny (v : any) : bool :=
  match v with
  | None => false
  | Some JNull => false
  | Some (JBool b) => b
  | Some (JNumber q) => negb (Qeq_bool q 0)
  | Some (JString s) => negb (String.eqb s "")
  | Some (JArray _) => true
  | Some (JObject _) => true
  end.

(** [a || b] *)
Definition orAny (a b : any) : any := if truthyAny a then a else b.

(** The member an object parsed from JSON has under [key]: the last one
    written wins. *)
Fixpoint lastMember (key : string) (members : list (string * json)) : any :=
  match members with
  | [] => None
  | (k, v) :: rest =>
      match lastMember key rest with
      | Some later => Some later
      | None => if String.eqb k key then Some v else None
      end
  end.

(** [v.key] for the keys the page reads ([font], [suggestedSubtitle],
    [description], [hashtags]): a [TypeError] on [null], the member on an
    object, [undefined] on anything else. *)
Definition getProp (v : json) (key : string) : completion any :=
  match v with
  | JNull => Throw (TypeError "Cannot read properties of null")
  | JObject members => Normal (lastMember key members)
  | _ => Normal None
  end.

(** The [config] cell.  Its [subtitle] and [fontFamily] receive values
    read from the analysis, whatever they are. *)
Record Config : Type := {
  title : string;
  subtitle : any;
  fontFamily : any;
  images : list string;
  audio : option string
}.

Record ProcessingResult : Type := {
  videoUrl : string;
  videoDescription : any;
  hashtags : any
}.

Record State : Type := {
  step : AppStep;
  user : option User;
  config : Config;
  isPlaying : bool;
  isProcessing : bool;
  exportProgress : Q;
  result : option ProcessingResult;
  resultBlob : option Blob;
  isGeminiLoading : bool
}.

Definition init : State :=
  {| step := LOGIN;
     user := None;
     config := {| title := ""; subtitle := Some (JString "");
                  fontFamily := Some (JString "sans"); images := [];
                  audio := None |};
     isPlaying := false;
     isProcessing := false;
     exportProgress := 0;
     result := None;
     resultBlob := None;
     isGeminiLoading := false |}.

(** Setters of single cells. *)
Definition setStep (v : AppStep) (s : State) : State :=
  {| step := v; user := user s; config := config s;
     isPlaying := isPlaying s; isProcessing := isProcessing s;
     exportProgress := exportProgress s; result := result s;
     resultBlob := resultBlob s; isGeminiLoading := isGeminiLoading s |}.

Definition setUser (v : option User) (s : State) : State :=
  {| step := step s; user := v; config := config s;
     isPlaying := isPlaying s; isProcessing := isProcessing s;
     exportProgress := exportProgress s; result := result s;
     resultBlob := resultBlob s; isGeminiLoading := isGeminiLoading s |}.

Definition setConfig (v : Config) (s : State) : State :=
  {| step := step s; user := user s; config := v;
     isPlaying := isPlaying s; isProcessing := isProcessing s;
     exportProgress := exportProgress s; result := result s;
     resultBlob := resultBlob s; isGeminiLoading := isGeminiLoading s |}.

Definition setIsPlaying (v : bool) (s : State) : State :=
  {| step := step s; user := user s; config := config s;
     isPlaying := v; isProcessing := isProcessing s;
     exportProgress := exportProgress s; result := result s;
     resultBlob := resultBlob s; isGeminiLoading := isGeminiLoading s |}.

Definition setIsProcessing (v : bool) (s : State) : State :=
  {| step := step s; user := user s; config := config s;
     isPlaying := isPlaying s; isProcessing := v;
     exportProgress := exportProgress s; result := result s;
     resultBlob := resultBlob s; isGeminiLoading := isGeminiLoading s |}.

Definition setExportProgress (v : Q) (s : State) : State :=
  {| step := step s; user := user s; config := config s;
     isPlaying := isPlaying s; isProcessing := isProcessing s;
     exportProgress := v; result := result s;
     resultBlob := resultBlob s; isGeminiLoading := isGeminiLoading s |}.

Definition setResult (v : option ProcessingResult) (s : State) : State :=
  {| step := step s; user := user s; config := config s;
     isPlaying := isPlaying s; isProcessing := isProcessing s;
     exportProgress := exportProgress s; result := v;
     resultBlob := resultBlob s; isGeminiLoading := isGeminiLoading s |}.

Definition setResultBlob (v : option Blob) (s : State) : State :=
  {| step := step s; user := user s; config := config s;
     isPlaying := isPlaying s; isProcessing := isProcessing s;
     exportProgress := exportProgress s; result := result s;
     resultBlob := v; isGeminiLoading := isGeminiLoading s |}.

Definition setIsGeminiLoading (v : bool) (s : State) : State :=
  {| step := step s; user := user s; config := config s;
     isPlaying := isPlaying s; isProcessing := isProcessing s;
     exportProgress := exportProgress s; result := result s;
     resultBlob := resultBlob s; isGeminiLoading := v |}.

(** Updates of single fields of the configuration ([{...prev, f: v}]). *)
Definition withTitle (v : string) (c : Config) : Config :=
  {| title := v; subtitle := subtitle c; fontFamily := fontFamily c;
     images := images c; audio := audio c |}.

Definition withSubtitle (v : any) (c : Config) : Config :=
  {| title := title c; subtitle := v; fontFamily := fontFamily c;
     images := images c; audio := audio c |}.

Definition withFontFamily (v : any) (c : Config) : Config :=
  {| title := title c; subtitle := subtitle c; fontFamily := v;
     images := images c; audio := audio c |}.

Definition withImages (v : list string) (c : Config) : Config :=
  {| title := title c; subtitle := subtitle c; fontFamily := fontFamily c;
     images := v; audio := audio c |}.

Definition withAudio (v : option string) (c : Config) : Config :=
  {| title := title c; subtitle := subtitle c; fontFamily := fontFamily c;
     images := images c; audio := v |}.

(** What is under way after an [await] or a timer. *)
Inductive Pending : Type :=
| AwaitAnalysis (fileName : string)
    (* [handleAudioUpload] at [await analyzeMoodAndSuggestFont(file.name)] *)
| AwaitMetadata (requestTitle : string) (requestSubtitle : any)
    (* [handleGenerateMetadata] at [await generateVideoMetadata(...)] *)
| AwaitExportMetadata (requestTitle : string) (requestSubtitle : any)
    (* [handleExport] at [await generateVideoMetadata(...)] *)
| AwaitExportTimer
    (* [handleExport] at [setTimeout(..., 100)] *)
| AwaitExport.
    (* the timer's callback at [await visualizerRef.current.startExport()] *)

(** *** Step 1: login (lines 31-39) *)

Definition handleLogin (s : State) : State :=
  setStep UPLOAD
    (setUser (Some {| name := "Creator Studio User";
                      email := "user@example.com";
                      avatar := "https://picsum.photos/100/100" |}) s).

(** *** Step 2: upload (lines 42-63) *)

(** [files] is [e.target.files], [None] when it is [null]. *)
Definition handleImageUpload (files : option (list string)) (s : State)
  : State :=
  match files with
  | Some fs => setConfig (withImages (images (config s) ++ fs) (config s)) s
  | None => s
  end.

(** Up to the [await]. *)
Definition handleAudioUpload (files : option (list string)) (s : State)
  : State * list Pending :=
  match files with
  | Some (file :: _) =>
      (setIsGeminiLoading true
         (setConfig (withAudio (Some file) (config s)) s),
       [AwaitAnalysis file])
  | _ => (s, [])
  end.

(** After the [await]: the updater of [setConfig] reads [analysis.font]
    and, when the subtitle is still empty, [analysis.suggestedSubtitle]. *)
Definition audioAnalysed (analysis : json) (s : State) : completion State :=
  match getProp analysis "font" with
  | Throw e => Throw e
  | Normal font =>
      let readSubtitle :=
        if truthyAny (subtitle (config s)) then Normal (subtitle (config s))
        else getProp analysis "suggestedSubtitle" in
      match readSubtitle with
      | Throw e => Throw e
      | Normal sub =>
          Normal
            (setIsGeminiLoading false
               (setConfig
                  (withSubtitle sub
                     (withFontFamily (orAny font (Some (JString "sans")))
                        (config s)))
                  s))
      end
  end.

(** The button [Next: Editor] is disabled while
    [!config.audio || config.images.length === 0] (line 179). *)
Definition nextEnabled (s : State) : bool :=
  match audio (config s), images (config s) with
  | Some _, _ :: _ => true
  | _, _ => false
  end.

(** *** Step 3: editor (lines 66-81 and the inputs of [renderEditor]) *)

(** Up to the [await]: the request is made with the title of the render
    in which the button was clicked. *)
Definition handleGenerateMetadata (s : State) : State * list Pending :=
  let s1 := setIsGeminiLoading true s in
  let s2 :=
    if String.eqb (title (config s)) ""
    then setConfig (withTitle "My Awesome Journey" (config s1)) s1
    else s1 in
  (s2,
   [AwaitMetadata
      (if String.eqb (title (config s)) "" then "My Video"
       else title (config s))
      (subtitle (config s))]).

Definition prevVideoUrl (r : option ProcessingResult) : string :=
  match r with
  | Some prev => videoUrl prev
  | None => ""
  end.

(** After the [await]: the updater of [setResult] reads
    [meta.description] and [meta.hashtags]. *)
Definition metadataGenerated (meta : json) (s : State) : completion State :=
  match getProp meta "description" with
  | Throw e => Throw e
  | Normal description =>
      match getProp meta "hashtags" with
      | Throw e => Throw e
      | Normal tags =>
          Normal
            (setIsGeminiLoading false
               (setResult
                  (Some {| videoUrl := prevVideoUrl (result s);
                           videoDescription := description;
                           hashtags := tags |})
                  s))
      end
  end.

(** *** Step 4: export (lines 84-124) *)

Definition hasDescription (r : option ProcessingResult) : bool :=
  match r with
  | Some prev => truthyAny (videoDescription prev)
  | None => false
  end.

(** Up to the first [await], or to the timer when the description is
    there already. *)
Definition handleExport (s : State) : State * list Pending :=
  (setIsProcessing true (setStep PROCESSING (setIsPlaying false s)),
   if hasDescription (result s) then [AwaitExportTimer]
   else [AwaitExportMetadata (title (config s)) (subtitle (config s))]).

(** After the [await] of the metadata: the object handed to [setResult]
    is built in the handler itself, so a [TypeError] ends the handler
    there, before the timer is set. *)
Definition exportMetadata (meta : json) (s : State)
  : completion (State * list Pending) :=
  match getProp meta "description" with
  | Throw e => Throw e
  | Normal description =>
      match getProp meta "hashtags" with
      | Throw e => Throw e
      | Normal tags =>
          Normal
            (setResult
               (Some {| videoUrl := "";
                        videoDescription := description;
                        hashtags := tags |})
               s,
             [AwaitExportTimer])
      end
  end.

(** The visualizer is mounted, and [visualizerRef.current] set, while the
    editor is rendered (line 410). *)
Definition editorMounted (s : State) : bool :=
  match step s with
  | EDITOR | PROCESSING => true
  | _ => false
  end.

(** The timer's callback up to [await startExport()]. *)
Definition exportTimer (s : State) : State * list Pending :=
  if editorMounted s then (s, [AwaitExport])
  else (setIsProcessing false (setStep EDITOR s), []).

(** After [startExport] settled, with [url] what this call of
    [URL.createObjectURL(blob)] returned (every call returns a new URL). *)
Definition exportSettled (url : string) (settled : completion Blob)
  (s : State) : State :=
  match settled with
  | Normal blob =>
      let withUrl :=
        match result s with
        | Some prev =>
            {| videoUrl := url;
               videoDescription := videoDescription prev;
               hashtags := hashtags prev |}
        | None =>
            {| videoUrl := url;
               videoDescription := None; hashtags := None |}
        end in
      setIsProcessing false
        (setStep DONE
           (setResult (Some withUrl) (setResultBlob (Some blob) s)))
  | Throw _ => setIsProcessing false (setStep EDITOR s)
  end.

(** *** The page as a transition system *)

(** Removing one occurrence of a pending continuation. *)
Inductive Removed : Pending -> list Pending -> list Pending -> Prop :=
| Removed_here k rest : Removed k (k :: rest) rest
| Removed_later k k' rest rest' :
    Removed k rest rest' -> Removed k (k' :: rest) (k' :: rest').

(** One event of the page that leaves it mounted: a control used where it
    is shown and enabled, a callback of the visualizer, or an awaited call
    settling without an updater throwing. *)
Inductive Step : State * list Pending -> State * list Pending -> Prop :=
| ClickLogin s ks :
    step s = LOGIN ->
    Step (s, ks) (handleLogin s, ks)
| PickImages files s ks :
    step s = UPLOAD ->
    Step (s, ks) (handleImageUpload files s, ks)
| PickAudio files s ks :
    step s = UPLOAD ->
    Step (s, ks)
      (fst (handleAudioUpload files s), ks ++ snd (handleAudioUpload files s))
| ClickNext s ks :
    step s = UPLOAD -> nextEnabled s = true ->
    Step (s, ks) (setStep EDITOR s, ks)
| TypeTitle v s ks :
    editorMounted s = true ->
    Step (s, ks) (setConfig (withTitle v (config s)) s, ks)
| TypeSubtitle v s ks :
    editorMounted s = true ->
    Step (s, ks)
      (setConfig (withSubtitle (Some (JString v)) (config s)) s, ks)
| PickFont f s ks :
    editorMounted s = true ->
    (f = "sans" \/ f = "serif" \/ f = "mono")%string ->
    Step (s, ks)
      (setConfig (withFontFamily (Some (JString f)) (config s)) s, ks)
| ClickWand s ks :
    editorMounted s = true ->
    Step (s, ks)
      (fst (handleGenerateMetadata s), ks ++ snd (handleGenerateMetadata s))
| TogglePlay s ks :
    step s = EDITOR ->
    Step (s, ks) (setIsPlaying (negb (isPlaying s)) s, ks)
| ClickExport s ks :
    step s = EDITOR ->
    Step (s, ks) (fst (handleExport s), ks ++ snd (handleExport s))
| VisualizerEnded s ks :
    editorMounted s = true ->
    Step (s, ks) (setIsPlaying false s, ks)
| VisualizerProgress p s ks :
    editorMounted s = true ->
    Step (s, ks) (setExportProgress p s, ks)
| ClickBack s ks :
    step s = DONE ->
    Step (s, ks) (setStep EDITOR s, ks)
| ClickPublish s ks :
    step s = DONE ->
    Step (s, ks) (s, ks)
| AnalysisSettled fileName analysis s s' ks ks' :
    Removed (AwaitAnalysis fileName) ks ks' ->
    audioAnalysed analysis s = Normal s' ->
    Step (s, ks) (s', ks')
| MetadataSettled t sub meta s s' ks ks' :
    Removed (AwaitMetadata t sub) ks ks' ->
    metadataGenerated meta s = Normal s' ->
    Step (s, ks) (s', ks')
| ExportMetadataSettled t sub meta s ks ks' :
    Removed (AwaitExportMetadata t sub) ks ks' ->
    Step (s, ks)
      (match exportMetadata meta s with
       | Normal (s', more) => (s', ks' ++ more)
       | Throw _ => (s, ks')
       end)
| ExportTimerFired s ks ks' :
    Removed AwaitExportTimer ks ks' ->
    Step (s, ks) (fst (exportTimer s), ks' ++ snd (exportTimer s))
| ExportSettled url settled s ks ks' :
    Removed AwaitExport ks ks' ->
    Step (s, ks) (exportSettled url settled s, ks').

(** The states the page can be in. *)
Inductive Reachable : State * list Pending -> Prop :=
| Reachable_init : Reachable (init, [])
| Reachable_step x y : Reachable x -> Step x y -> Reachable y.

(** *** The page once an updater has thrown

    The updaters handed to [setConfig] and [setResult] after an [await]
    (lines 56-60 and 74-79) run while React renders.  When one throws,
    which they do when the answer parsed to [null], React removes the
    whole page: nothing is shown or can be used any more and
    [visualizerRef.current] is null.  What was awaited still settles and
    the timer still fires; their [set...] calls then change nothing. *)
Inductive Page : Type :=
| Mounted (s : State)
| Unmounted.

Inductive PageStep : Page * list Pending -> Page * list Pending -> Prop :=
| Page_event s ks s' ks' :
    Step (s, ks) (s', ks') ->
    PageStep (Mounted s, ks) (Mounted s', ks')
| Analysis_throws fileName analysis e s ks ks' :
    Removed (AwaitAnalysis fileName) ks ks' ->
    audioAnalysed analysis s = Throw e ->
    PageStep (Mounted s, ks) (Unmounted, ks')
| Metadata_throws t sub meta e s ks ks' :
    Removed (AwaitMetadata t sub) ks ks' ->
    metadataGenerated meta s = Throw e ->
    PageStep (Mounted s, ks) (Unmounted, ks')
| Unmounted_analysis fileName ks ks' :
    Removed (AwaitAnalysis fileName) ks ks' ->
    PageStep (Unmounted, ks) (Unmounted, ks')
| Unmounted_metadata t sub ks ks' :
    Removed (AwaitMetadata t sub) ks ks' ->
    PageStep (Unmounted, ks) (Unmounted, ks')
| Unmounted_exportMetadata t sub meta ks ks' :
    (* [handleExport] goes on: it reads the two members and sets the timer *)
    Removed (AwaitExportMetadata t sub) ks ks' ->
    PageStep (Unmounted, ks)
      (Unmounted,
       ks' ++ match getProp meta "description", getProp meta "hashtags" with
              | Normal _, Normal _ => [AwaitExportTimer]
              | _, _ => []
              end)
| Unmounted_timer ks ks' :
    (* the ref is null: "Visualizer ref is missing" *)
    Removed AwaitExportTimer ks ks' ->
    PageStep (Unmounted, ks) (Unmounted, ks')
| Unmounted_export ks ks' :
    Removed AwaitExport ks ks' ->
    PageStep (Unmounted, ks) (Unmounted, ks').

Inductive PageReachable : Page * list Pending -> Prop :=
| PageReachable_init : PageReachable (Mounted init, [])
| PageReachable_step x y : PageReachable x -> PageStep x y -> PageReachable y.

(** [PageRun x y]: the page gets from [x] to [y] in some number of
    events. *)
Inductive PageRun : Page * list Pending -> Page * list Pending -> Prop :=
| PageRun_refl x : PageRun x x
| PageRun_step x y z : PageRun x y -> PageStep y z -> PageRun x z.

(** An export is under way: one of its three continuations is pending. *)
Definition exportPending (k : Pending) : bool :=
  match k with
  | AwaitExportMetadata _ _ | AwaitExportTimer | AwaitExport => true
  | _ => false
  end.

Definition exportsPending (ks : list Pending) : nat :=
  List.length (filter exportPending ks).

(** The page is hung: gone, or standing in PROCESSING with the preview
    paused; and no part of an export is pending. *)
Definition hung (x : Page * list Pending) : Prop :=
  exportsPending (snd x) = 0%nat
  /\ match fst x with
     | Unmounted => True
     | Mounted s =>
         step s = PROCESSING /\ isProcessing s = true /\ isPlaying s = false
     end.

(** Both kinds of asset are there. *)
Definition hasAssets (s : State) : Prop :=
  audio (config s) <> None /\ images (config s) <> [].

(** The second half of an export is pending: the timer or the recording. *)
Definition recordingPending (k : Pending) : bool :=
  match k with
  | AwaitExportTimer | AwaitExport => true
  | _ => false
  end.

(** What holds of the page and its pending work after every event
    ([Reachable_wellFormed] below). *)
Definition wellFormed (x : State * list Pending) : Prop :=
  let s := fst x in
  let ks := snd x in
  (step s = LOGIN \/ step s = UPLOAD \/ hasAssets s)
  /\ (exportsPending ks <= 1)%nat
  /\ (exportsPending ks = 1%nat -> step s = PROCESSING)
  /\ (step s = PROCESSING -> isPlaying s = false)
  /\ (isProcessing s = true <-> step s = PROCESSING)
  /\ (existsb recordingPending ks = true -> result s <> None)
  /\ (step s = DONE -> resultBlob s <> None /\ result s <> None).

End App.

(** ** Sample values

    A landscape, a portrait and an exact-fit picture; a configuration; an
    analyser heard in silence and at full level; components built from
    them.  They serve the worked instances below. *)

Definition landscape : ImageBitmap :=
  {| bitmap := 0; width := 1920; height := 1080 |}.
Definition portrait : ImageBitmap :=
  {| bitmap := 1; width := 600; height := 800 |}.
Definition panorama : ImageBitmap :=
  {| bitmap := 2; width := 4000; height := 1000 |}.
Definition strip : ImageBitmap :=
  {| bitmap := 3; width := 4436; height := 76 |}.
Definition upright : ImageBitmap :=
  {| bitmap := 4; width := 601; height := 706 |}.

(** Bitmap sizes on which the two embeddings of binary64 are compared. *)
Definition sampleSizes : list (Z * Z) :=
  [(601, 706); (4436, 76); (600, 800); (1920, 1080); (1280, 720); (1, 1);
   (4000, 1000); (333, 4001); (1279, 719); (1281, 721); (3, 7);
   (4294967295, 1); (1, 4294967295); (4294967295, 4294967295);
   (1366, 768); (2048, 1153); (97, 55); (7919, 4447)]%Z.

Definition sampleConfig (files : list string) : VideoConfig :=
  {| title := "Summer Vibes"; subtitle := "Artist Name"; fontFamily := sans;
     images := files; audio := Some "track.mp3"%string |}.

Definition silence : AnalyserNode :=
  {| fftSize := 256; frequencyData := repeat 0%Z 128 |}.
Definition fullLevel : AnalyserNode :=
  {| fftSize := 256; frequencyData := repeat 255%Z 128 |}.

Definition sampleAudio (t : Q) (d : number) : HTMLAudioElement :=
  {| audio_currentTime := t; audio_duration := d; audio_ended := false |}.

Definition sampleComponent (bitmaps : list ImageBitmap)
  (analyser : option AnalyserNode) (audio : option HTMLAudioElement)
  : Component :=
  {| config := sampleConfig (map (fun _ => "photo.jpg"%string) bitmaps);
     isPlaying := true;
     onExportProgress := true;
     canvasRef := Some {| context2d := true |};
     audioRef := audio;
     analyserRef := analyser;
     requestRef := None;
     imageBitmapsRef := bitmaps |}.

Definition chromium : Platform :=
  {| audioTracks := Some 1%nat;
     isTypeSupported := fun _ => true;
     recorderAccepts := fun _ => true;
     recorderDefault := true;
     playRejection := None |}.

(** The component with another font chosen in the editor. *)
Definition set_fontFamily (f : FontFamily) (c : Component) : Component :=
  {| config := {| title := title (config c); subtitle := subtitle (config c);
                  fontFamily := f; images := images (config c);
                  audio := audio (config c) |};
     isPlaying := isPlaying c;
     onExportProgress := onExportProgress c; canvasRef := canvasRef c;
     audioRef := audioRef c; analyserRef := analyserRef c;
     requestRef := requestRef c; imageBitmapsRef := imageBitmapsRef c |}.

(** The component as it is mounted: a canvas, and nothing loaded yet. *)
Definition mounted (cfg : VideoConfig) : Component :=
  {| config := cfg; isPlaying := false; onExportProgress := true;
     canvasRef := Some {| context2d := true |}; audioRef := None;
     analyserRef := None; requestRef := None; imageBitmapsRef := [] |}.

(** A decoder that fails on one file name. *)
Definition sampleDecoder (file : string) : completion ImageBitmap :=
  if String.eqb file "broken.jpg" then Throw (Error "InvalidStateError")
  else Normal landscape.

(** The fonts a run of calls selects, in order. *)
Fixpoint fontsOf (calls : list CanvasCall) : list string :=
  match calls with
  | [] => []
  | SetFont f :: rest => f :: fontsOf rest
  | _ :: rest => fontsOf rest
  end.

(** An entry of a [Uint8Array]. *)
Definition isByte (v : Z) : Prop := (0 <= v <= 255)%Z.

(** A bar with a finite height between 0 and [maxBarHeight], standing on
    the line [visualizerY], inside the strip the 40 bars are given. *)
Definition barInBox (bar : Q * number * Q * number) : Prop :=
  let '(x, y, w, h) := bar in
  exists height : Q,
    h = Num height /\ y = Num (visualizerY - height)
    /\ 0 <= height /\ height <= maxBarHeight
    /\ w = barWidth
    /\ visualizerX <= x
    /\ x + w <= visualizerX + 40 * (barWidth + gap) - gap.

(** A browser whose recorder refuses every container named to it but can
    be constructed without one. *)
Definition safari : Platform :=
  {| audioTracks := None;
     isTypeSupported := fun _ => false;
     recorderAccepts := fun _ => false;
     recorderDefault := true;
     playRejection := None |}.

(** A session of the page: login, two photos and a song picked, the
    analysis answered with the fallback, on to the editor, export
    clicked. *)
Definition pickedAssets : App.State :=
  fst (App.handleAudioUpload (Some ["song.mp3"%string])
         (App.handleImageUpload (Some ["a.jpg"; "b.jpg"]%string)
            (App.handleLogin App.init))).

Definition sampleEditor : App.State :=
  App.setStep App.EDITOR
    (match App.audioAnalysed moodFallback pickedAssets with
     | Normal s => s
     | Throw _ => pickedAssets
     end).

Definition sampleExporting : App.State * list App.Pending :=
  (fst (App.handleExport sampleEditor),
   snd (App.handleExport sampleEditor)).

(** The same session with the wand used first, its request answered with
    the fallback, and then export clicked. *)
Definition sampleDescribed : App.State :=
  match App.metadataGenerated (metadataFallback "My Video")
          (fst (App.handleGenerateMetadata sampleEditor)) with
  | Normal s => s
  | Throw _ => sampleEditor
  end.

Definition sampleTimer : App.State * list App.Pending :=
  (fst (App.handleExport sampleDescribed),
   snd (App.handleExport sampleDescribed)).

(** * Properties *)

(** ** Rationals and the effect monad *)

Lemma Qltb_true (a b : Q) : Qltb a b = true <-> a < b.
Proof.
  unfold Qltb. rewrite negb_true_iff. split; intro H.
  - apply Qnot_le_lt. intro Hle. apply Qle_bool_iff in Hle. congruence.
  - destruct (Qle_bool b a) eqn:E; [|reflexivity].
    apply Qle_bool_iff in E. exfalso. apply (Qlt_not_le _ _ H E).
Qed.

Lemma Qltb_false (a b : Q) : Qltb a b = false <-> b <= a.
Proof.
  unfold Qltb. rewrite negb_false_iff. apply Qle_bool_iff.
Qed.

Lemma inject_Z_pos (n : Z) : (1 <= n)%Z -> 0 < inject_Z n.
Proof. intro H. unfold Qlt, inject_Z. simpl. lia. Qed.

Lemma bind_events {E A B : Type} (evs : list E) (a : A) (k : A -> Eff E B) :
  bind (evs, Normal a) k = (evs ++ fst (k a), snd (k a)).
Proof. unfold bind. destruct (k a). reflexivity. Qed.

Lemma drawBar_calls (dataArray : list Z) (i : Z) :
  drawBar dataArray i = (barCalls dataArray i, Normal tt).
Proof. reflexivity. Qed.

Lemma indices_succ (i0 : Z) (n : nat) :
  indices i0 (S n) = i0 :: indices (i0 + 1) n.
Proof.
  unfold indices. cbn [seq map]. rewrite Z.add_0_r. f_equal.
  rewrite <- seq_shift, map_map. apply map_ext. intro k. lia.
Qed.

Lemma for_loop_drawBar (dataArray : list Z) (n : nat) (i0 : Z) :
  for_loop i0 n (drawBar dataArray)
  = (flat_map (barCalls dataArray) (indices i0 n), Normal tt).
Proof.
  revert i0. induction n as [|n IH]; intro i0.
  - reflexivity.
  - cbn [for_loop]. rewrite drawBar_calls, bind_events, IH, indices_succ.
    reflexivity.
Qed.

(** ** The timing locals *)

Lemma slideDuration_pos (duration : number) (n : Z) :
  (1 <= n)%Z -> 0 < slideDuration duration n.
Proof.
  intro Hn. unfold slideDuration.
  destruct duration as [|d]; cbn [gt0 finite]; [reflexivity|].
  destruct (Qltb 0 d) eqn:Hd; [|reflexivity].
  apply Qltb_true in Hd. apply Qlt_shift_div_l.
  - now apply inject_Z_pos.
  - now rewrite Qmult_0_l.
Qed.

Lemma currentIndex_range (t : Q) (duration : number) (n : Z) :
  (1 <= n)%Z -> 0 <= t -> (0 <= currentIndex t duration n <= n - 1)%Z.
Proof.
  intros Hn Ht. unfold currentIndex.
  pose proof (slideDuration_pos duration n Hn) as Hs.
  assert (0 <= Qfloor (t / slideDuration duration n))%Z as Hfloor.
  { change 0%Z with (Qfloor 0). apply Qfloor_resp_le.
    apply Qle_shift_div_l; [exact Hs|]. now rewrite Qmult_0_l. }
  lia.
Qed.

Lemma nextIndex_range (t : Q) (duration : number) (n : Z) :
  (1 <= n)%Z -> 0 <= t -> (0 <= nextIndex t duration n <= n - 1)%Z.
Proof.
  intros Hn Ht. unfold nextIndex.
  pose proof (currentIndex_range t duration n Hn Ht) as Hc.
  pose proof (Z.rem_bound_pos (currentIndex t duration n + 1) n) as Hr.
  lia.
Qed.

Lemma array_get_in_range {A : Type} (arr : list A) (i : Z) :
  (0 <= i < Z.of_nat (List.length arr))%Z ->
  exists x, array_get arr i = Some x.
Proof.
  intros [Hlo Hhi]. unfold array_get.
  destruct (i <? 0)%Z eqn:E; [apply Z.ltb_lt in E; lia|].
  destruct (nth_error arr (Z.to_nat i)) as [x|] eqn:Hx; [now exists x|].
  apply nth_error_None in Hx. lia.
Qed.

(** ** The calls of [drawFrame] *)

Lemma drawImageProp_some (img : ImageBitmap) (x y : Q) :
  drawImageProp (Some img) x y WIDTH HEIGHT = ([imageCall img], Normal tt).
Proof.
  unfold drawImageProp, imageCall.
  destruct (coverRect img WIDTH HEIGHT) as [[[cx cy] nw] nh]. reflexivity.
Qed.

Lemma drawFrame_layers (c : Component) (t : Q) (duration : number)
  (dataArray : list Z) :
  let n := Z.of_nat (List.length (imageBitmapsRef c)) in
  (1 <= n)%Z -> 0 <= t ->
  exists current next,
    array_get (imageBitmapsRef c) (currentIndex t duration n) = Some current
    /\ array_get (imageBitmapsRef c) (nextIndex t duration n) = Some next
    /\ drawFrame c t duration dataArray
       = (backgroundCalls current next t duration n
          ++ overlayCalls
          ++ titleCalls (config c) t
          ++ subtitleCalls (config c)
          ++ visualizerCalls (analyserRef c) dataArray,
          Normal tt).
Proof.
  intros n Hn Ht.
  destruct (array_get_in_range (imageBitmapsRef c) (currentIndex t duration n))
    as [current Hcur].
  { pose proof (currentIndex_range t duration n Hn Ht). lia. }
  destruct (array_get_in_range (imageBitmapsRef c) (nextIndex t duration n))
    as [next Hnext].
  { pose proof (nextIndex_range t duration n Hn Ht). lia. }
  exists current, next. split; [exact Hcur|]. split; [exact Hnext|].
  unfold drawFrame.
  destruct (Nat.eqb (List.length (imageBitmapsRef c)) 0) eqn:Hlen.
  { apply Nat.eqb_eq in Hlen. subst n. rewrite Hlen in Hn. simpl in Hn. lia. }
  fold n. rewrite Hcur, Hnext, !drawImageProp_some.
  unfold backgroundCalls, titleCalls, visualizerCalls, emit.
  destruct (crossfading t duration n);
    destruct (Qltb t 4);
    destruct (analyserRef c) as [a|];
    rewrite ?for_loop_drawBar; reflexivity.
Qed.

(** ** Reading a frame off the calls *)

Lemma imageAlphas_app (l1 l2 : list CanvasCall) (w : Q) :
  imageAlphas w (l1 ++ l2)
  = imageAlphas w l1 ++ imageAlphas (lastAlpha w l1) l2.
Proof.
  revert w. induction l1 as [|call l1 IH]; intro w; [reflexivity|].
  destruct call; cbn [app imageAlphas lastAlpha]; rewrite IH; reflexivity.
Qed.

Lemma textAlphas_app (l1 l2 : list CanvasCall) (w : Q) :
  textAlphas w (l1 ++ l2)
  = textAlphas w l1 ++ textAlphas (lastAlpha w l1) l2.
Proof.
  revert w. induction l1 as [|call l1 IH]; intro w; [reflexivity|].
  destruct call; cbn [app textAlphas lastAlpha]; rewrite IH; reflexivity.
Qed.

Lemma imageAlphas_none (l : list CanvasCall) (w : Q) :
  forallb (fun call => negb (isDrawImage call)) l = true ->
  imageAlphas w l = [].
Proof.
  revert w. induction l as [|call l IH]; intros w H; [reflexivity|].
  cbn [forallb] in H. apply andb_true_iff in H as [Hc Hl].
  destruct call; cbn [imageAlphas]; try (apply IH; exact Hl).
  discriminate Hc.
Qed.

Lemma textAlphas_none (l : list CanvasCall) (w : Q) :
  forallb (fun call => negb (isFillText call)) l = true ->
  textAlphas w l = [].
Proof.
  revert w. induction l as [|call l IH]; intros w H; [reflexivity|].
  cbn [forallb] in H. apply andb_true_iff in H as [Hc Hl].
  destruct call; cbn [textAlphas]; try (apply IH; exact Hl).
  discriminate Hc.
Qed.

Lemma forallb_flat_map {A B : Type} (p : B -> bool) (f : A -> list B)
  (l : list A) :
  (forall a, forallb p (f a) = true) -> forallb p (flat_map f l) = true.
Proof.
  intro H. induction l as [|a l IH]; [reflexivity|].
  cbn [flat_map]. rewrite forallb_app, H, IH. reflexivity.
Qed.

Lemma visualizerCalls_no_image (analyser : option AnalyserNode)
  (dataArray : list Z) :
  forallb (fun call => negb (isDrawImage call))
    (visualizerCalls analyser dataArray) = true.
Proof.
  destruct analyser as [a|]; [|reflexivity].
  cbn [visualizerCalls forallb isDrawImage negb andb].
  apply forallb_flat_map. reflexivity.
Qed.

Lemma visualizerCalls_no_text (analyser : option AnalyserNode)
  (dataArray : list Z) :
  forallb (fun call => negb (isFillText call))
    (visualizerCalls analyser dataArray) = true.
Proof.
  destruct analyser as [a|]; [|reflexivity].
  cbn [visualizerCalls forallb isFillText negb andb].
  apply forallb_flat_map. reflexivity.
Qed.

Lemma lastAlpha_background (current next : ImageBitmap) (t : Q)
  (duration : number) (n : Z) (w : Q) :
  lastAlpha w (backgroundCalls current next t duration n) = 1.
Proof.
  unfold backgroundCalls, imageCall.
  destruct (coverRect current WIDTH HEIGHT) as [[[? ?] ?] ?].
  destruct (coverRect next WIDTH HEIGHT) as [[[? ?] ?] ?].
  destruct (crossfading t duration n); reflexivity.
Qed.

Lemma lastAlpha_title (cfg : VideoConfig) (t : Q) :
  lastAlpha 1 (titleCalls cfg t) = 1.
Proof. unfold titleCalls. destruct (Qltb t 4); reflexivity. Qed.

(** The images a frame draws: the current one at full opacity, then the
    next one at [fadeProgress] exactly when line 104 holds. *)
Lemma drawFrame_imageAlphas (c : Component) (t : Q) (duration : number)
  (dataArray : list Z) :
  let n := Z.of_nat (List.length (imageBitmapsRef c)) in
  (1 <= n)%Z -> 0 <= t ->
  exists current next,
    array_get (imageBitmapsRef c) (currentIndex t duration n) = Some current
    /\ array_get (imageBitmapsRef c) (nextIndex t duration n) = Some next
    /\ imageAlphas 1 (events (drawFrame c t duration dataArray))
       = (current, 1)
         :: (if crossfading t duration n
             then [(next, fadeProgress t duration n)] else []).
Proof.
  intros n Hn Ht.
  destruct (drawFrame_layers c t duration dataArray Hn Ht)
    as (current & next & Hcur & Hnext & ->).
  exists current, next. split; [exact Hcur|]. split; [exact Hnext|].
  unfold events. cbn [fst].
  rewrite imageAlphas_app, lastAlpha_background.
  rewrite (imageAlphas_none (_ ++ _)).
  2:{ rewrite !forallb_app, visualizerCalls_no_image.
      unfold titleCalls. destruct (Qltb t 4); reflexivity. }
  rewrite app_nil_r. unfold backgroundCalls, imageCall. fold n.
  destruct (coverRect current WIDTH HEIGHT) as [[[? ?] ?] ?].
  destruct (coverRect next WIDTH HEIGHT) as [[[? ?] ?] ?].
  destruct (crossfading t duration n); reflexivity.
Qed.

(** The texts a frame draws: the title at the centre while
    [currentTime < 4], then the subtitle. *)
Lemma drawFrame_textAlphas (c : Component) (t : Q) (duration : number)
  (dataArray : list Z) :
  (1 <= Z.of_nat (List.length (imageBitmapsRef c)))%Z -> 0 <= t ->
  textAlphas 1 (events (drawFrame c t duration dataArray))
  = (if Qltb t 4
     then [(title (config c), WIDTH / 2, HEIGHT / 2, Qmax 0 (1 - t / 4))]
     else [])
    ++ [(subtitle (config c), WIDTH - 50, HEIGHT - 50, 1)].
Proof.
  intros Hn Ht.
  destruct (drawFrame_layers c t duration dataArray Hn Ht)
    as (current & next & _ & _ & ->).
  unfold events. cbn [fst].
  rewrite textAlphas_app, lastAlpha_background.
  rewrite (textAlphas_none (backgroundCalls _ _ _ _ _)).
  2:{ unfold backgroundCalls, imageCall.
      destruct (coverRect current WIDTH HEIGHT) as [[[? ?] ?] ?].
      destruct (coverRect next WIDTH HEIGHT) as [[[? ?] ?] ?].
      destruct (crossfading t duration _); reflexivity. }
  cbn [app]. change (textAlphas 1 (overlayCalls ++ ?l))
    with (textAlphas 1 l).
  rewrite textAlphas_app, lastAlpha_title.
  rewrite (textAlphas_app (subtitleCalls _)).
  rewrite (textAlphas_none (visualizerCalls _ _)), app_nil_r
    by apply visualizerCalls_no_text.
  unfold titleCalls. destruct (Qltb t 4); reflexivity.
Qed.

Lemma slideDuration_known (d : Q) (n : Z) :
  0 < d -> slideDuration (Num d) n = d / inject_Z n.
Proof.
  intro Hd. unfold slideDuration. cbn [gt0 finite].
  apply Qltb_true in Hd. rewrite Hd. reflexivity.
Qed.


Lemma drawFrame_crossfadeAlpha (c : Component) (t : Q) (duration : number)
  (dataArray : list Z) :
  let n := Z.of_nat (List.length (imageBitmapsRef c)) in
  (1 <= n)%Z -> 0 <= t ->
  crossfadeAlphaOf (events (drawFrame c t duration dataArray))
  = if crossfading t duration n then fadeProgress t duration n else 0.
Proof.
  intros n Hn Ht. unfold crossfadeAlphaOf.
  destruct (drawFrame_imageAlphas c t duration dataArray Hn Ht)
    as (current & next & _ & _ & ->).
  fold n. destruct (crossfading t duration n); reflexivity.
Qed.

Lemma drawFrame_shown (c : Component) (t : Q) (duration : number)
  (dataArray : list Z) :
  let n := Z.of_nat (List.length (imageBitmapsRef c)) in
  let calls := events (drawFrame c t duration dataArray) in
  (1 <= n)%Z -> 0 <= t ->
  currentImageOf calls
  = array_get (imageBitmapsRef c) (currentIndex t duration n)
  /\ nextImageOf calls
     = if crossfading t duration n
       then array_get (imageBitmapsRef c) (nextIndex t duration n)
       else None.
Proof.
  intros n calls Hn Ht. subst calls. unfold currentImageOf, nextImageOf.
  destruct (drawFrame_imageAlphas c t duration dataArray Hn Ht)
    as (current & next & Hcur & Hnext & Himgs).
  fold n in Hcur, Hnext, Himgs. rewrite Himgs, Hcur, Hnext.
  destruct (crossfading t duration n); split; reflexivity.
Qed.

(** ** C1: the crossfade *)

(** C1.  For every duration > 0, at least one image and currentTime >= 0,
    the opacity [drawFrame] computes for the next image is
    [(timeInSlide - (slideDuration - 1.0)) / 1.0] when there are several
    images and [timeInSlide > slideDuration - 1.0], and the next image is
    not drawn (opacity 0) otherwise, with
    [timeInSlide = currentTime - currentIndex * slideDuration]; this is the
    crossfadeAlpha of the specification's frame clock.  With one image it
    is 0 at every time.  For duration 10, two images and currentTime 4.5:
    currentIndex 0, nextIndex 1, crossfadeAlpha 0.5, and the frame shows
    image 0 with image 1 over it. *)
Theorem C1_crossfade_alpha (c : Component) (t d : Q) (dataArray : list Z) :
  let n := Z.of_nat (List.length (imageBitmapsRef c)) in
  let calls := events (drawFrame c t (Num d) dataArray) in
  let slide := d / inject_Z n in
  let inSlide := t - inject_Z (currentIndex t (Num d) n) * slide in
  0 < d -> (1 <= n)%Z -> 0 <= t ->
  ((1 < n)%Z /\ slide - 1.0 < inSlide ->
   crossfadeAlphaOf calls = (inSlide - (slide - 1.0)) / 1.0)
  /\ (~ ((1 < n)%Z /\ slide - 1.0 < inSlide) -> crossfadeAlphaOf calls = 0)
  /\ crossfadeAlphaOf calls = FrameClock.crossfadeAlpha t d n
  /\ (n = 1%Z -> crossfadeAlphaOf calls = 0)
  /\ (d = 10 -> n = 2%Z -> t = 4.5 ->
      currentIndex t (Num d) n = 0%Z
      /\ nextIndex t (Num d) n = 1%Z
      /\ crossfadeAlphaOf calls == 0.5
      /\ currentImageOf calls = nth_error (imageBitmapsRef c) 0
      /\ nextImageOf calls = nth_error (imageBitmapsRef c) 1).
Proof.
  intros n calls slide inSlide Hd Hn Ht.
  assert (crossfadeAlphaOf calls
          = if (1 <? n)%Z && Qltb (slide - 1.0) inSlide
            then (inSlide - (slide - 1.0)) / 1.0 else 0) as Halpha.
  { unfold calls. rewrite drawFrame_crossfadeAlpha by assumption. fold n.
    unfold crossfading, fadeProgress, timeInSlide, fadeDuration.
    rewrite (slideDuration_known d n Hd). reflexivity. }
  repeat split.
  - intros [H1 H2]. rewrite Halpha.
    apply Z.ltb_lt in H1. apply Qltb_true in H2. rewrite H1, H2. reflexivity.
  - intro Hnot. rewrite Halpha.
    destruct (1 <? n)%Z eqn:H1; [|reflexivity].
    destruct (Qltb (slide - 1.0) inSlide) eqn:H2; [|reflexivity].
    exfalso. apply Hnot. split; [now apply Z.ltb_lt | now apply Qltb_true].
  - rewrite Halpha. unfold FrameClock.crossfadeAlpha, FrameClock.timeInSlide,
      FrameClock.currentIndex, FrameClock.slideDuration, inSlide, slide,
      currentIndex.
    rewrite (slideDuration_known d n Hd).
    apply Qltb_true in Hd. rewrite Hd. reflexivity.
  - intro H1. rewrite Halpha, H1. reflexivity.
  - subst d t. rewrite H0. reflexivity.
  - subst d t. rewrite H0. reflexivity.
  - rewrite Halpha. unfold inSlide, slide. subst d t. rewrite H0.
    reflexivity.
  - destruct (drawFrame_shown c t (Num d) dataArray Hn Ht) as [Hcur _].
    unfold calls. rewrite Hcur. fold n. subst d t. rewrite H0. reflexivity.
  - destruct (drawFrame_shown c t (Num d) dataArray Hn Ht) as [_ Hnext].
    unfold calls. rewrite Hnext. fold n. subst d t. rewrite H0. reflexivity.
Qed.

(** The instance of scenario A on a two-image component. *)
Lemma C1_crossfade_alpha_witness :
  crossfadeAlphaOf
    (events (drawFrame (sampleComponent [landscape; portrait] None None)
               4.5 (Num 10) []))
  == 0.5.
Proof.
  destruct (C1_crossfade_alpha
              (sampleComponent [landscape; portrait] None None) 4.5 10 [])
    as (_ & _ & _ & _ & H); [reflexivity | cbn; lia | discriminate |].
  destruct H as (_ & _ & H & _); [reflexivity | reflexivity | reflexivity |].
  exact H.
Defined.

(** ** C2: the index of the current slide *)

Lemma currentIndex_last (t : Q) (duration : number) (n : Z) :
  (1 <= n)%Z ->
  inject_Z (n - 1) * slideDuration duration n <= t ->
  currentIndex t duration n = (n - 1)%Z.
Proof.
  intros Hn Hlast. unfold currentIndex.
  pose proof (slideDuration_pos duration n Hn) as Hs.
  assert (n - 1 <= Qfloor (t / slideDuration duration n))%Z as Hfloor.
  { rewrite <- (Qfloor_Z (n - 1)) at 1. apply Qfloor_resp_le.
    apply Qle_shift_div_l; assumption. }
  lia.
Qed.

Lemma last_boundary_le_duration (d : Q) (n : Z) :
  (1 <= n)%Z -> 0 < d -> inject_Z (n - 1) * (d / inject_Z n) <= d.
Proof.
  intros Hn Hd. pose proof (inject_Z_pos n Hn) as HN.
  unfold Z.sub. rewrite inject_Z_plus, inject_Z_opp.
  change (inject_Z 1) with 1.
  assert (0 <= d / inject_Z n) as Hx.
  { apply Qle_shift_div_l; [exact HN|]. rewrite Qmult_0_l.
    now apply Qlt_le_weak. }
  assert (inject_Z n * (d / inject_Z n) == d) as Hmul.
  { field. intro Hz. rewrite Hz in HN. now apply Qlt_irrefl in HN. }
  setoid_replace ((inject_Z n + - (1)) * (d / inject_Z n))
    with (inject_Z n * (d / inject_Z n) - d / inject_Z n) by ring.
  rewrite Hmul. lra.
Qed.

(** C2.  With at least one image and currentTime >= 0 (so in particular
    for every currentTime in [0, duration)), the currentIndex [drawFrame]
    computes lies in [0, imageCount - 1]: the look-up of the current image
    succeeds, that image is the one drawn and the frame completes.  A
    currentTime at or past the last slide boundary, and so one at or past
    the duration, selects index imageCount - 1. *)
Theorem C2_current_index_in_range (c : Component) (t : Q)
  (duration : number) (dataArray : list Z) :
  let n := Z.of_nat (List.length (imageBitmapsRef c)) in
  let calls := events (drawFrame c t duration dataArray) in
  (1 <= n)%Z -> 0 <= t ->
  (forall d, duration = Num d -> t < d ->
     (0 <= currentIndex t duration n <= n - 1)%Z)
  /\ (0 <= currentIndex t duration n <= n - 1)%Z
  /\ (exists img,
        array_get (imageBitmapsRef c) (currentIndex t duration n) = Some img
        /\ currentImageOf calls = Some img)
  /\ outcome (drawFrame c t duration dataArray) = Normal tt
  /\ (inject_Z (n - 1) * slideDuration duration n <= t ->
      currentIndex t duration n = (n - 1)%Z)
  /\ (forall d, duration = Num d -> 0 < d -> d <= t ->
      currentIndex t duration n = (n - 1)%Z).
Proof.
  intros n calls Hn Ht.
  pose proof (currentIndex_range t duration n Hn Ht) as Hrange.
  split; [intros; exact Hrange|]. split; [exact Hrange|].
  split.
  { destruct (drawFrame_shown c t duration dataArray Hn Ht) as [Hcur _].
    destruct (array_get_in_range (imageBitmapsRef c)
                (currentIndex t duration n)) as [img Himg]; [fold n; lia|].
    exists img. split; [exact Himg|]. subst calls. rewrite Hcur. exact Himg. }
  split.
  { destruct (drawFrame_layers c t duration dataArray Hn Ht)
      as (current & next & _ & _ & ->). reflexivity. }
  split.
  { intro Hlast. now apply currentIndex_last. }
  intros d -> Hd Hpast. apply currentIndex_last; [exact Hn|].
  rewrite (slideDuration_known d n Hd).
  apply Qle_trans with d; [|exact Hpast].
  now apply last_boundary_le_duration.
Qed.

(** Three images over 9 seconds: at 8.9 s and at 9 s the index is 2. *)
Lemma C2_current_index_in_range_witness :
  (0 <= currentIndex 8.9 (Num 9) 3 <= 2)%Z
  /\ currentIndex 9 (Num 9) 3 = 2%Z.
Proof.
  destruct (C2_current_index_in_range
              (sampleComponent [landscape; portrait; panorama] None None)
              8.9 (Num 9) [])
    as (_ & H & _); [cbn; lia | discriminate |].
  split; [exact H | reflexivity].
Defined.

(** ** C3: the slide duration and its fallback *)



(** ** C4: the title *)

Lemma drawFrame_titleAlpha (c : Component) (t : Q) (duration : number)
  (dataArray : list Z) :
  (1 <= Z.of_nat (List.length (imageBitmapsRef c)))%Z -> 0 <= t ->
  let calls := events (drawFrame c t duration dataArray) in
  titleAlphaOf calls = (if Qltb t 4 then Qmax 0 (1 - t / 4) else 0)
  /\ titleDrawn calls = Qltb t 4.
Proof.
  intros Hn Ht calls. subst calls. unfold titleAlphaOf, titleDrawn.
  rewrite (drawFrame_textAlphas c t duration dataArray Hn Ht).
  destruct (Qltb t 4); split; reflexivity.
Qed.

Lemma titleAlpha_antitone (t1 t2 : Q) :
  t1 <= t2 -> FrameClock.titleAlpha t2 <= FrameClock.titleAlpha t1.
Proof.
  intro Hle. unfold FrameClock.titleAlpha.
  destruct (Qltb t1 4) eqn:H1; destruct (Qltb t2 4) eqn:H2.
  - apply Q.max_le_compat_l. unfold Qdiv. change (/ 4) with (1 # 4). lra.
  - apply Q.le_max_l.
  - apply Qltb_false in H1. apply Qltb_true in H2. lra.
  - apply Qle_refl.
Qed.

(** C4.  In a frame with at least one image and currentTime >= 0 the
    title is drawn exactly while currentTime < 4, with opacity
    max(0, 1 - currentTime / 4), which lies in [0, 1]; the title opacity
    (0 when the title is not drawn) does not increase as currentTime
    grows, and for currentTime >= 4 the title is not drawn and the opacity
    is exactly 0. *)
Theorem C4_title_alpha (c : Component) (t1 t2 : Q) (duration : number)
  (dataArray : list Z) :
  let calls := fun t => events (drawFrame c t duration dataArray) in
  (1 <= Z.of_nat (List.length (imageBitmapsRef c)))%Z ->
  0 <= t1 -> t1 <= t2 ->
  (titleDrawn (calls t1) = true <-> t1 < 4)
  /\ (t1 < 4 -> titleAlphaOf (calls t1) = Qmax 0 (1 - t1 / 4))
  /\ titleAlphaOf (calls t1) = FrameClock.titleAlpha t1
  /\ 0 <= titleAlphaOf (calls t1) <= 1
  /\ titleAlphaOf (calls t2) <= titleAlphaOf (calls t1)
  /\ (4 <= t1 ->
      titleDrawn (calls t1) = false /\ titleAlphaOf (calls t1) = 0).
Proof.
  intros calls Hn Ht1 Hle.
  assert (0 <= t2) as Ht2 by (apply Qle_trans with t1; assumption).
  destruct (drawFrame_titleAlpha c t1 duration dataArray Hn Ht1)
    as [Ha1 Hd1].
  destruct (drawFrame_titleAlpha c t2 duration dataArray Hn Ht2)
    as [Ha2 _].
  fold (calls t1) in Ha1, Hd1. fold (calls t2) in Ha2.
  change (titleAlphaOf (calls t1) = FrameClock.titleAlpha t1) in Ha1.
  change (titleAlphaOf (calls t2) = FrameClock.titleAlpha t2) in Ha2.
  rewrite Ha1, Ha2, Hd1.
  split; [apply Qltb_true|].
  split.
  { intro H. unfold FrameClock.titleAlpha. apply Qltb_true in H.
    rewrite H. reflexivity. }
  split; [reflexivity|].
  split.
  { unfold FrameClock.titleAlpha. destruct (Qltb t1 4).
    - split; [apply Q.le_max_l|]. apply Q.max_lub; [discriminate|].
      unfold Qdiv. change (/ 4) with (1 # 4). lra.
    - split; discriminate. }
  split; [now apply titleAlpha_antitone|].
  intro H4. apply Qltb_false in H4.
  unfold FrameClock.titleAlpha. rewrite H4. split; reflexivity.
Qed.

(** At 1 s the title is at 3/4, at 2 s at 1/2. *)
Lemma C4_title_alpha_witness :
  titleAlphaOf
    (events (drawFrame (sampleComponent [landscape] None None) 2 (Num 10) []))
  <= titleAlphaOf
       (events (drawFrame (sampleComponent [landscape] None None) 1 (Num 10)
                  [])).
Proof.
  destruct (C4_title_alpha (sampleComponent [landscape] None None) 1 2
              (Num 10) [])
    as (_ & _ & _ & _ & H & _); [cbn; lia | discriminate | discriminate |].
  exact H.
Defined.

(** ** C5: cover fit *)

Lemma Qmin_cases (a b : Q) :
  (a <= b /\ Qmin a b = a) \/ (b < a /\ Qmin a b = b).
Proof.
  unfold Qmin, GenericMinMax.gmin.
  destruct (a ?= b) eqn:E.
  - left. split; [|reflexivity]. apply Qeq_alt in E. rewrite E. apply Qle_refl.
  - left. split; [|reflexivity]. apply Qlt_alt in E. now apply Qlt_le_weak.
  - right. split; [|reflexivity]. now apply Qgt_alt in E.
Qed.

Lemma coverRect_scale (img : ImageBitmap) (w h : Q) :
  (0 < width img)%Z -> (0 < height img)%Z -> 0 < w -> 0 < h ->
  let iw := inject_Z (width img) in
  let ih := inject_Z (height img) in
  let scale := Qmax (w / iw) (h / ih) in
  exists nw nh,
    coverRect img w h = ((w - nw) * 0.5, (h - nh) * 0.5, nw, nh)
    /\ nw == iw * scale /\ nh == ih * scale.
Proof.
  intros Hw' Hh' Hw Hh iw ih scale.
  assert (0 < iw) as Hiw by (apply inject_Z_pos; lia).
  assert (0 < ih) as Hih by (apply inject_Z_pos; lia).
  assert (~ iw == 0) as Niw by (intro E; rewrite E in Hiw; now apply Qlt_irrefl in Hiw).
  assert (~ ih == 0) as Nih by (intro E; rewrite E in Hih; now apply Qlt_irrefl in Hih).
  assert (~ w == 0) as Nw by (intro E; rewrite E in Hw; now apply Qlt_irrefl in Hw).
  assert (~ h == 0) as Nh by (intro E; rewrite E in Hh; now apply Qlt_irrefl in Hh).
  unfold coverRect. fold iw ih.
  set (a := w / iw) in *. set (b := h / ih) in *.
  assert (iw * a == w) as Fa by (unfold a; field; exact Niw).
  assert (ih * b == h) as Fb by (unfold b; field; exact Nih).
  destruct (Qmin_cases a b) as [[Hab ->] | [Hba ->]].
  - assert (Qltb (iw * a) w = false) as ->
      by (apply Qltb_false; rewrite Fa; apply Qle_refl).
    change (Qltb (Qabs (1 - 1)) 1e-14) with true. cbn [andb].
    assert (scale == b) as Hs by (apply Q.max_r; exact Hab).
    destruct (Qltb (ih * a) h) eqn:E.
    + eexists _, _. split; [reflexivity|]. rewrite Hs.
      split; unfold a, b; field; auto.
    + apply Qltb_false in E.
      assert (a == b) as Heq.
      { apply Qle_antisym; [exact Hab|].
        apply Qmult_le_l with ih; [exact Hih|]. now rewrite Fb. }
      eexists _, _. split; [reflexivity|]. rewrite Hs, <- Heq.
      split; ring.
  - assert (Qltb (iw * b) w = true) as ->.
    { apply Qltb_true. rewrite <- Fa. now apply Qmult_lt_l. }
    assert (Qltb (ih * b) h = false) as ->
      by (apply Qltb_false; rewrite Fb; apply Qle_refl).
    rewrite andb_false_r.
    assert (scale == a) as Hs by (apply Q.max_l; now apply Qlt_le_weak).
    eexists _, _. split; [reflexivity|]. rewrite Hs.
    split; unfold a, b; field; auto.
Qed.

(** In exact arithmetic [drawImageProp] on the 1280 x 720 box draws the
    bitmap at the one scale max(1280 / width, 720 / height): the scaled
    width is at least 1280 and the scaled height at least 720, one of
    them exactly so, and the offsets are half of what is left over. *)
Lemma drawImageProp_exact (img : ImageBitmap) :
  (0 < width img)%Z -> (0 < height img)%Z ->
  let iw := inject_Z (width img) in
  let ih := inject_Z (height img) in
  let scale := Qmax (WIDTH / iw) (HEIGHT / ih) in
  exists cx cy nw nh,
    drawImageProp (Some img) 0 0 WIDTH HEIGHT
    = ([DrawImage img cx cy nw nh], Normal tt)
    /\ nw == iw * scale /\ nh == ih * scale
    /\ nw / iw == nh / ih
    /\ WIDTH <= nw /\ HEIGHT <= nh
    /\ (nw == WIDTH \/ nh == HEIGHT)
    /\ cx == (WIDTH - nw) / 2 /\ cy == (HEIGHT - nh) / 2.
Proof.
  intros Hw Hh iw ih scale.
  destruct (coverRect_scale img WIDTH HEIGHT Hw Hh) as (nw & nh & Hrect & Hnw & Hnh);
    [reflexivity | reflexivity |].
  fold iw ih scale in Hnw, Hnh.
  assert (0 < iw) as Hiw by (apply inject_Z_pos; lia).
  assert (0 < ih) as Hih by (apply inject_Z_pos; lia).
  assert (~ iw == 0) as Niw
    by (intro E; rewrite E in Hiw; now apply Qlt_irrefl in Hiw).
  assert (~ ih == 0) as Nih
    by (intro E; rewrite E in Hih; now apply Qlt_irrefl in Hih).
  assert (iw * (WIDTH / iw) == WIDTH) as Fa by (field; exact Niw).
  assert (ih * (HEIGHT / ih) == HEIGHT) as Fb by (field; exact Nih).
  exists ((WIDTH - nw) * 0.5), ((HEIGHT - nh) * 0.5), nw, nh.
  split.
  { unfold drawImageProp. rewrite Hrect. reflexivity. }
  split; [exact Hnw|]. split; [exact Hnh|].
  split.
  { rewrite Hnw, Hnh. field. split; assumption. }
  split.
  { rewrite Hnw, <- Fa at 1. apply Qmult_le_l; [exact Hiw|].
    apply Q.le_max_l. }
  split.
  { rewrite Hnh, <- Fb at 1. apply Qmult_le_l; [exact Hih|].
    apply Q.le_max_r. }
  split.
  { destruct (Q.max_spec (WIDTH / iw) (HEIGHT / ih)) as [[_ Hs] | [_ Hs]];
      fold scale in Hs.
    - right. now rewrite Hnh, Hs.
    - left. now rewrite Hnw, Hs. }
  split; field.
Qed.

(** *** The same lines as binary64 computes them *)

Module RoundedFacts.
Import Rounded.

(** Powers of two and the binary logarithm *)

Lemma two_neq_0 : ~ 2 == 0.
Proof. discriminate. Qed.

Lemma pow2_pos (e : Z) : 0 < pow2 e.
Proof. apply Qpower_0_lt. reflexivity. Qed.

Lemma pow2_neq_0 (e : Z) : ~ pow2 e == 0.
Proof. intro H. pose proof (pow2_pos e) as P. rewrite H in P. discriminate P. Qed.

Lemma pow2_plus (a b : Z) : pow2 (a + b) == pow2 a * pow2 b.
Proof. apply Qpower_plus, two_neq_0. Qed.

Lemma pow2_minus (a b : Z) : pow2 (a - b) == pow2 a / pow2 b.
Proof. apply Qpower_minus, two_neq_0. Qed.

Lemma pow2_le (a b : Z) : (a <= b)%Z -> pow2 a <= pow2 b.
Proof. intro H. apply Qpower_le_compat_l; [exact H | discriminate]. Qed.

Lemma pow2_lt (a b : Z) : (a < b)%Z -> pow2 a < pow2 b.
Proof. intro H. apply Qpower_lt_compat_l; [exact H | reflexivity]. Qed.

Lemma pow2_lt_inv (a b : Z) : pow2 a < pow2 b -> (a < b)%Z.
Proof. intro H. apply (Qpower_lt_compat_l_inv 2); [exact H | reflexivity]. Qed.

Lemma pow2_le_inv (a b : Z) : pow2 a <= pow2 b -> (a <= b)%Z.
Proof. intro H. apply (Qpower_le_compat_l_inv 2); [exact H | reflexivity]. Qed.

Lemma pow2_inject (n : Z) : (0 <= n)%Z -> pow2 n == inject_Z (2 ^ n).
Proof. intro H. unfold pow2. now rewrite Zpower_Qpower. Qed.

Lemma pow2_succ (a : Z) : pow2 (a + 1) == 2 * pow2 a.
Proof. rewrite pow2_plus. change (pow2 1) with 2. ring. Qed.

Lemma ilog2_spec (x : Q) :
  0 < x -> pow2 (ilog2 x) <= x /\ x < pow2 (ilog2 x + 1).
Proof.
  intro Hx. destruct x as [a b]. unfold Qlt in Hx. cbn in Hx.
  assert (0 < a)%Z as Ha by lia.
  unfold ilog2. cbn [Qnum Qden].
  set (la := Z.log2 a). set (lb := Z.log2 (Z.pos b)).
  pose proof (Z.log2_spec a Ha) as [A1 A2]. fold la in A1, A2.
  pose proof (Z.log2_spec (Z.pos b) eq_refl) as [B1 B2]. fold lb in B1, B2.
  pose proof (Z.log2_nonneg a) as La. fold la in La.
  pose proof (Z.log2_nonneg (Z.pos b)) as Lb. fold lb in Lb.
  assert (a # b == inject_Z a / inject_Z (Z.pos b)) as Hdiv
    by apply Qmake_Qdiv.
  assert (0 < inject_Z (Z.pos b)) as Hb by reflexivity.
  assert (pow2 la <= inject_Z a) as QA1
    by (rewrite pow2_inject by exact La; now rewrite <- Zle_Qle).
  assert (inject_Z a < 2 * pow2 la) as QA2.
  { rewrite <- pow2_succ, pow2_inject by lia. rewrite <- Zlt_Qlt.
    unfold Z.succ in A2. exact A2. }
  assert (pow2 lb <= inject_Z (Z.pos b)) as QB1
    by (rewrite pow2_inject by exact Lb; now rewrite <- Zle_Qle).
  assert (inject_Z (Z.pos b) < 2 * pow2 lb) as QB2.
  { rewrite <- pow2_succ, pow2_inject by lia. rewrite <- Zlt_Qlt.
    unfold Z.succ in B2. exact B2. }
  pose proof (pow2_pos la) as Pa. pose proof (pow2_pos lb) as Pb.
  assert (pow2 (la - lb) * pow2 lb == pow2 la) as Hk
    by (rewrite <- pow2_plus; now replace (la - lb + lb)%Z with la by lia).
  set (x := a # b) in *.
  assert (x * inject_Z (Z.pos b) == inject_Z a) as Hx'
    by (rewrite Hdiv; field; intro E; rewrite E in Hb; discriminate Hb).
  set (A := inject_Z a) in *. set (B := inject_Z (Z.pos b)) in *.
  set (P := pow2 (la - lb)) in *.
  pose proof (pow2_pos (la - lb)) as PP. fold P in PP.
  assert (0 < x) as Hxpos by (unfold x, Qlt; cbn; lia).
  destruct (Qle_bool P x) eqn:E.
  - apply Qle_bool_iff in E. split; [exact E|].
    rewrite pow2_succ. fold P.
    (* x * B = A < 2 Pa = 2 P Pb <= 2 P B *)
    apply Qnot_le_lt. intro Hge. nra.
  - assert (x < P) as Hlt.
    { apply Qnot_le_lt. intro Hle. apply Qle_bool_iff in Hle. congruence. }
    replace (la - lb - 1 + 1)%Z with (la - lb)%Z by lia. fold P.
    split; [|exact Hlt].
    assert (pow2 (la - lb - 1) * 2 == P) as Hhalf.
    { unfold P. replace (la - lb)%Z with (la - lb - 1 + 1)%Z at 2 by lia.
      rewrite pow2_succ. ring. }
    set (H := pow2 (la - lb - 1)) in *.
    apply Qnot_lt_le. intro Hgt. nra.
Qed.

Lemma ilog2_unique (x : Q) (k : Z) :
  pow2 k <= x -> x < pow2 (k + 1) -> ilog2 x = k.
Proof.
  intros Hlo Hhi.
  assert (0 < x) as Hx by (apply Qlt_le_trans with (pow2 k); [apply pow2_pos | exact Hlo]).
  destruct (ilog2_spec x Hx) as [Slo Shi].
  assert (pow2 (ilog2 x) < pow2 (k + 1)) as H1
    by (apply Qle_lt_trans with x; assumption).
  assert (pow2 k < pow2 (ilog2 x + 1)) as H2
    by (apply Qle_lt_trans with x; assumption).
  apply pow2_lt_inv in H1, H2. lia.
Qed.

Lemma ilog2_monotone (x y : Q) : 0 < x -> x <= y -> (ilog2 x <= ilog2 y)%Z.
Proof.
  intros Hx Hxy.
  assert (0 < y) as Hy by (apply Qlt_le_trans with x; assumption).
  destruct (ilog2_spec x Hx) as [Xlo _].
  destruct (ilog2_spec y Hy) as [_ Yhi].
  assert (pow2 (ilog2 x) < pow2 (ilog2 y + 1)) as H.
  { apply Qle_lt_trans with x; [exact Xlo|].
    apply Qle_lt_trans with y; assumption. }
  apply pow2_lt_inv in H. lia.
Qed.

(** Rounding to the nearest integer, ties to even *)

Lemma roundHalfEven_cases (y : Q) :
  roundHalfEven y = Qfloor y \/ roundHalfEven y = (Qfloor y + 1)%Z.
Proof.
  unfold roundHalfEven.
  destruct (Qcompare (y - inject_Z (Qfloor y)) (1 # 2)); auto.
  destruct (Z.even (Qfloor y)); auto.
Qed.

Lemma roundHalfEven_half (y : Q) :
  y - (1 # 2) <= inject_Z (roundHalfEven y)
  /\ inject_Z (roundHalfEven y) <= y + (1 # 2).
Proof.
  pose proof (Qfloor_le y) as Hlo. pose proof (Qlt_floor y) as Hhi.
  rewrite inject_Z_plus in Hhi. change (inject_Z 1) with 1 in Hhi.
  unfold roundHalfEven.
  destruct (Qcompare (y - inject_Z (Qfloor y)) (1 # 2)) eqn:E.
  - apply Qeq_alt in E.
    destruct (Z.even (Qfloor y)); rewrite ?inject_Z_plus;
      change (inject_Z 1) with 1; split; lra.
  - apply Qlt_alt in E. split; lra.
  - apply Qgt_alt in E. rewrite inject_Z_plus. change (inject_Z 1) with 1.
    split; lra.
Qed.

Lemma roundHalfEven_inject (n : Z) : roundHalfEven (inject_Z n) = n.
Proof.
  unfold roundHalfEven. rewrite Qfloor_Z.
  assert (Qcompare (inject_Z n - inject_Z n) (1 # 2) = Lt) as ->.
  { apply (proj1 (Qlt_alt _ _)). set (q := inject_Z n). lra. }
  reflexivity.
Qed.

Lemma roundHalfEven_ge (y : Q) (n : Z) :
  inject_Z n <= y -> (n <= roundHalfEven y)%Z.
Proof.
  intro H.
  assert (n <= Qfloor y)%Z
    by (rewrite <- (Qfloor_Z n); now apply Qfloor_resp_le).
  destruct (roundHalfEven_cases y) as [-> | ->]; lia.
Qed.

Lemma roundHalfEven_le (y : Q) (n : Z) :
  y <= inject_Z n -> (roundHalfEven y <= n)%Z.
Proof.
  intro H.
  assert (Qfloor y <= n)%Z as Hf
    by (rewrite <- (Qfloor_Z n); now apply Qfloor_resp_le).
  destruct (Z.eq_dec (Qfloor y) n) as [E|N].
  - (* y = n *)
    assert (y == inject_Z n) as Hy.
    { apply Qle_antisym; [exact H|]. rewrite <- E. apply Qfloor_le. }
    unfold roundHalfEven. rewrite E.
    assert (Qcompare (y - inject_Z n) (1 # 2) = Lt) as ->
      by (apply (proj1 (Qlt_alt _ _)); set (q := inject_Z n) in *; lra).
    lia.
  - destruct (roundHalfEven_cases y) as [-> | ->]; lia.
Qed.

Lemma roundHalfEven_monotone (x y : Q) :
  x <= y -> (roundHalfEven x <= roundHalfEven y)%Z.
Proof.
  intro H.
  assert (Qfloor x <= Qfloor y)%Z as Hf by now apply Qfloor_resp_le.
  destruct (Z.eq_dec (Qfloor x) (Qfloor y)) as [E|N].
  - unfold roundHalfEven. rewrite E.
    destruct (Qcompare (x - inject_Z (Qfloor y)) (1 # 2)) eqn:Ex;
      destruct (Qcompare (y - inject_Z (Qfloor y)) (1 # 2)) eqn:Ey;
      first [apply Qeq_alt in Ex | apply Qlt_alt in Ex | apply Qgt_alt in Ex];
      first [apply Qeq_alt in Ey | apply Qlt_alt in Ey | apply Qgt_alt in Ey];
      destruct (Z.even (Qfloor y)); try lia; exfalso;
      set (f := inject_Z (Qfloor y)) in *; lra.
  - destruct (roundHalfEven_cases x) as [-> | ->];
      destruct (roundHalfEven_cases y) as [-> | ->]; lia.
Qed.

(** One rounding: its relative error, its grid, its monotonicity *)

Lemma Qabs_pos_eq (x : Q) : 0 < x -> Qabs x = x.
Proof.
  destruct x as [[|a|a] b]; intro H; try reflexivity; discriminate H.
Qed.

Lemma fl_pos (x : Q) :
  0 < x ->
  fl x = inject_Z (roundHalfEven (x / pow2 (exponent x))) * pow2 (exponent x).
Proof.
  intro H. unfold fl.
  destruct (Qeq_bool x 0) eqn:E; [|reflexivity].
  apply Qeq_bool_iff in E. rewrite E in H. discriminate H.
Qed.

Lemma fl_zero (x : Q) : x == 0 -> fl x = 0.
Proof.
  intro H. unfold fl. apply Qeq_bool_iff in H. now rewrite H.
Qed.

Lemma exponent_pos (x : Q) :
  0 < x -> exponent x = Z.max (ilog2 x - 52) (-1074).
Proof. intro H. unfold exponent. now rewrite Qabs_pos_eq. Qed.

(** The relative error of one rounding, in the normal range. *)
Lemma fl_error (x : Q) :
  pow2 (-1022) <= x -> x * (1 - u) <= fl x /\ fl x <= x * (1 + u).
Proof.
  intro Hx.
  assert (0 < x) as Hpos
    by (apply Qlt_le_trans with (pow2 (-1022)); [apply pow2_pos | exact Hx]).
  destruct (ilog2_spec x Hpos) as [Hlo Hhi].
  assert (-1022 <= ilog2 x)%Z as Hk.
  { assert (pow2 (-1022) < pow2 (ilog2 x + 1)) as H
      by (apply Qle_lt_trans with x; assumption).
    apply pow2_lt_inv in H. lia. }
  rewrite (fl_pos x Hpos), (exponent_pos x Hpos).
  rewrite Z.max_l by lia.
  set (e := (ilog2 x - 52)%Z).
  pose proof (pow2_pos e) as Pe.
  pose proof (roundHalfEven_half (x / pow2 e)) as [Rlo Rhi].
  set (m := inject_Z (roundHalfEven (x / pow2 e))) in *.
  assert (x / pow2 e * pow2 e == x) as Hy
    by (field; apply pow2_neq_0).
  set (y := x / pow2 e) in *.
  assert (pow2 e * inject_Z (2 ^ 52) == pow2 (ilog2 x)) as He.
  { rewrite <- pow2_inject by lia. rewrite <- pow2_plus.
    unfold e. now replace (ilog2 x - 52 + 52)%Z with (ilog2 x) by lia. }
  set (P := pow2 e) in *.
  change (inject_Z (2 ^ 52)) with 4503599627370496 in He.
  unfold u.
  (* |m - y| <= 1/2, so |m P - x| <= P / 2 <= x * 2^-53 *)
  assert (P * 4503599627370496 <= x) as Hbig by (rewrite He; exact Hlo).
  split; nra.
Qed.

Lemma exponent_monotone (x y : Q) :
  0 < x -> x <= y -> (exponent x <= exponent y)%Z.
Proof.
  intros Hx Hxy.
  assert (0 < y) as Hy by (apply Qlt_le_trans with x; assumption).
  rewrite (exponent_pos x Hx), (exponent_pos y Hy).
  pose proof (ilog2_monotone x y Hx Hxy). lia.
Qed.

(** A value on the grid of [x], or on a coarser one, that bounds [x] also
    bounds its rounding. *)
Lemma fl_le_grid (x : Q) (j e0 : Z) :
  0 < x -> (exponent x <= e0)%Z ->
  x <= inject_Z j * pow2 e0 -> fl x <= inject_Z j * pow2 e0.
Proof.
  intros Hx He Hle. rewrite (fl_pos x Hx).
  set (e := exponent x) in *.
  pose proof (pow2_pos e) as Pe.
  assert (pow2 e0 == inject_Z (2 ^ (e0 - e)) * pow2 e) as Hgrid.
  { rewrite <- pow2_inject by lia. rewrite <- pow2_plus.
    now replace (e0 - e + e)%Z with e0 by lia. }
  assert (x / pow2 e <= inject_Z (j * 2 ^ (e0 - e))) as Hy.
  { rewrite inject_Z_mult. apply Qle_shift_div_r; [exact Pe|].
    rewrite <- Qmult_assoc, <- Hgrid. exact Hle. }
  apply roundHalfEven_le in Hy. rewrite Zle_Qle in Hy.
  rewrite inject_Z_mult in Hy.
  rewrite Hgrid, Qmult_assoc.
  apply Qmult_le_compat_r; [exact Hy | apply Qlt_le_weak, Pe].
Qed.

Lemma fl_ge_grid (x : Q) (j e0 : Z) :
  0 < x -> (exponent x <= e0)%Z ->
  inject_Z j * pow2 e0 <= x -> inject_Z j * pow2 e0 <= fl x.
Proof.
  intros Hx He Hle. rewrite (fl_pos x Hx).
  set (e := exponent x) in *.
  pose proof (pow2_pos e) as Pe.
  assert (pow2 e0 == inject_Z (2 ^ (e0 - e)) * pow2 e) as Hgrid.
  { rewrite <- pow2_inject by lia. rewrite <- pow2_plus.
    now replace (e0 - e + e)%Z with e0 by lia. }
  assert (inject_Z (j * 2 ^ (e0 - e)) <= x / pow2 e) as Hy.
  { rewrite inject_Z_mult. apply Qle_shift_div_l; [exact Pe|].
    rewrite <- Qmult_assoc, <- Hgrid. exact Hle. }
  apply roundHalfEven_ge in Hy. rewrite Zle_Qle in Hy.
  rewrite inject_Z_mult in Hy.
  rewrite Hgrid, Qmult_assoc.
  apply Qmult_le_compat_r; [exact Hy | apply Qlt_le_weak, Pe].
Qed.

Lemma fl_nonneg (x : Q) : 0 <= x -> 0 <= fl x.
Proof.
  intro H. destruct (Qeq_dec x 0) as [E|N].
  - rewrite (fl_zero x E). apply Qle_refl.
  - assert (0 < x) as Hx.
    { apply Qnot_le_lt. intro Hle. apply N. now apply Qle_antisym. }
    pose proof (fl_ge_grid x 0 (exponent x) Hx (Z.le_refl _)) as G.
    rewrite Qmult_0_l in G. apply G. exact H.
Qed.

Lemma fl_monotone (x y : Q) : 0 <= x -> x <= y -> fl x <= fl y.
Proof.
  intros H0 Hxy. destruct (Qeq_dec x 0) as [E|N].
  { rewrite (fl_zero x E). apply fl_nonneg.
    apply Qle_trans with x; assumption. }
  assert (0 < x) as Hx.
  { apply Qnot_le_lt. intro Hle. apply N. now apply Qle_antisym. }
  assert (0 < y) as Hy by (apply Qlt_le_trans with x; assumption).
  pose proof (exponent_monotone x y Hx Hxy) as He.
  destruct (Z.eq_dec (exponent x) (exponent y)) as [Eq|Ne].
  - rewrite (fl_pos x Hx), (fl_pos y Hy), Eq.
    pose proof (pow2_pos (exponent y)) as Pe.
    apply Qmult_le_compat_r; [|apply Qlt_le_weak, Pe].
    rewrite <- Zle_Qle. apply roundHalfEven_monotone.
    apply Qmult_le_compat_r; [exact Hxy|].
    apply Qlt_le_weak, Qinv_lt_0_compat, Pe.
  - (* the binade of [y] starts at a power of two between them *)
    assert (exponent x < exponent y)%Z as Hlt by lia.
    rewrite (exponent_pos y Hy) in Hlt.
    rewrite (exponent_pos x Hx) in Hlt.
    assert (ilog2 x + 1 <= ilog2 y)%Z as Hk by lia.
    destruct (ilog2_spec x Hx) as [_ Xhi].
    destruct (ilog2_spec y Hy) as [Ylo _].
    set (k := ilog2 y) in *.
    assert (x <= inject_Z 1 * pow2 k) as Hxk.
    { rewrite Qmult_1_l. apply Qlt_le_weak.
      apply Qlt_le_trans with (pow2 (ilog2 x + 1)); [exact Xhi|].
      now apply pow2_le. }
    assert (inject_Z 1 * pow2 k <= y) as Hky
      by (rewrite Qmult_1_l; exact Ylo).
    apply Qle_trans with (inject_Z 1 * pow2 k).
    + apply fl_le_grid; [exact Hx | | exact Hxk].
      rewrite (exponent_pos x Hx). lia.
    + apply fl_ge_grid; [exact Hy | | exact Hky].
      rewrite (exponent_pos y Hy). fold k. lia.
Qed.

(** One rounding as a factor within [u] of 1 *)

Lemma small_normal : pow2 (-1022) <= small.
Proof. apply Qle_bool_iff. vm_compute. reflexivity. Qed.

Lemma fl_factor (x : Q) :
  small <= x -> exists f, 1 - u <= f /\ f <= 1 + u /\ fl x == x * f.
Proof.
  intro Hx.
  assert (0 < x) as Hpos by (unfold small in Hx; lra).
  destruct (fl_error x) as [Hlo Hhi];
    [apply Qle_trans with small; [apply small_normal | exact Hx]|].
  exists (fl x / x).
  assert (fl x / x * x == fl x) as E
    by (field; intro Z; rewrite Z in Hpos; discriminate Hpos).
  set (f := fl x / x) in *.
  split; [|split].
  - apply Qnot_lt_le. intro L. nra.
  - apply Qnot_lt_le. intro L. nra.
  - rewrite <- E. ring.
Qed.

(** Some values and their roundings, by computation. *)
Lemma fl_1 : fl 1 == 1.
Proof. apply Qeq_bool_iff. vm_compute. reflexivity. Qed.

Lemma fl_c14 : fl c14 == c14.
Proof. apply Qeq_bool_iff. vm_compute. reflexivity. Qed.

Lemma fl_tiny : fl (pow2 (-1022)) == pow2 (-1022).
Proof. apply Qeq_bool_iff. vm_compute. reflexivity. Qed.

Lemma tiny_lt_c14 : pow2 (-1022) < c14.
Proof. apply Qltb_true. vm_compute. reflexivity. Qed.

Lemma c14_value : c14 == 6338253001141147 # 633825300114114700748351602688.
Proof. apply Qeq_bool_iff. vm_compute. reflexivity. Qed.

(** [fl z < c14] for [z >= 0] only when [z < c14]; and [fl z >= c14] only
    when [z] is within one rounding of it. *)
Lemma below_c14 (z : Q) : 0 <= z -> Qabs (fl z) < c14 -> z < c14.
Proof.
  intros Hz H. apply Qnot_le_lt. intro Hge.
  pose proof (fl_monotone c14 z) as M.
  assert (0 <= c14) as Hc by (rewrite c14_value; discriminate).
  specialize (M Hc Hge). rewrite fl_c14 in M.
  pose proof (fl_nonneg z Hz) as N.
  rewrite Qabs_pos in H by exact N. lra.
Qed.

Lemma above_c14 (z : Q) : 0 <= z -> c14 <= Qabs (fl z) -> c14 <= z * (1 + u).
Proof.
  intros Hz H.
  pose proof (fl_nonneg z Hz) as N.
  rewrite Qabs_pos in H by exact N.
  destruct (Qlt_le_dec z (pow2 (-1022))) as [Hsmall|Hnormal].
  - exfalso.
    pose proof (fl_monotone z (pow2 (-1022)) Hz (Qlt_le_weak _ _ Hsmall)) as M.
    rewrite fl_tiny in M. pose proof tiny_lt_c14. lra.
  - destruct (fl_error z Hnormal) as [_ Hhi]. lra.
Qed.

Lemma roundHalfEven_comp (x y : Q) : x == y -> roundHalfEven x = roundHalfEven y.
Proof.
  intro E. unfold roundHalfEven. rewrite (Qfloor_comp _ _ E).
  assert (Qcompare (x - inject_Z (Qfloor y)) (1 # 2)
          = Qcompare (y - inject_Z (Qfloor y)) (1 # 2)) as ->
    by (apply Qcompare_comp; [rewrite E|]; reflexivity).
  reflexivity.
Qed.

Lemma inject_Z_sub (a b : Z) : inject_Z (a - b) == inject_Z a - inject_Z b.
Proof. unfold Z.sub. rewrite inject_Z_plus, inject_Z_opp. reflexivity. Qed.

Lemma Qfloor_unique (y : Q) (n : Z) :
  inject_Z n <= y -> y < inject_Z (n + 1) -> Qfloor y = n.
Proof.
  intros Hlo Hhi.
  pose proof (Qfloor_le y) as Flo. pose proof (Qlt_floor y) as Fhi.
  assert (inject_Z n < inject_Z (Qfloor y + 1)) as A
    by (apply Qle_lt_trans with y; assumption).
  assert (inject_Z (Qfloor y) < inject_Z (n + 1)) as B
    by (apply Qle_lt_trans with y; assumption).
  rewrite <- Zlt_Qlt in A, B. lia.
Qed.

Lemma roundHalfEven_opp (y : Q) : roundHalfEven (- y) = (- roundHalfEven y)%Z.
Proof.
  destruct (Qeq_dec y (inject_Z (Qfloor y))) as [E|N].
  - rewrite (roundHalfEven_comp y _ E).
    assert (- y == inject_Z (- Qfloor y)) as E'
      by (rewrite inject_Z_opp, <- E; reflexivity).
    rewrite (roundHalfEven_comp _ _ E'). now rewrite !roundHalfEven_inject.
  - pose proof (Qfloor_le y) as Flo. pose proof (Qlt_floor y) as Fhi.
    rewrite inject_Z_plus in Fhi. change (inject_Z 1) with 1 in Fhi.
    assert (inject_Z (Qfloor y) < y) as Flo'.
    { apply Qnot_le_lt. intro L. apply N. now apply Qle_antisym. }
    assert (Qfloor (- y) = (- Qfloor y - 1)%Z) as Hf.
    { apply Qfloor_unique.
      - rewrite inject_Z_sub, inject_Z_opp. change (inject_Z 1) with 1. lra.
      - replace (- Qfloor y - 1 + 1)%Z with (- Qfloor y)%Z by lia.
        rewrite inject_Z_opp. lra. }
    unfold roundHalfEven. rewrite Hf.
    assert (inject_Z (- Qfloor y - 1) == - inject_Z (Qfloor y) - 1) as Hi.
    { rewrite inject_Z_sub, inject_Z_opp. reflexivity. }
    assert (Z.even (- Qfloor y - 1) = negb (Z.even (Qfloor y))) as Hev.
    { replace (- Qfloor y - 1)%Z with (- (Z.succ (Qfloor y)))%Z by lia.
      now rewrite Z.even_opp, Z.even_succ, Z.negb_even. }
    rewrite Hev.
    destruct (Qcompare (- y - inject_Z (- Qfloor y - 1)) (1 # 2)) eqn:E1;
      destruct (Qcompare (y - inject_Z (Qfloor y)) (1 # 2)) eqn:E2;
      first [apply Qeq_alt in E1 | apply Qlt_alt in E1 | apply Qgt_alt in E1];
      first [apply Qeq_alt in E2 | apply Qlt_alt in E2 | apply Qgt_alt in E2];
      rewrite Hi in E1;
      try (exfalso; set (f := inject_Z (Qfloor y)) in *; lra);
      try destruct (Z.even (Qfloor y)); cbn [negb]; lia.
Qed.

Lemma Qabs_opp_eq (x : Q) : Qabs (- x) = Qabs x.
Proof. destruct x as [a b]. unfold Qabs, Qopp. cbn. now rewrite Z.abs_opp. Qed.

Lemma fl_opp (x : Q) : fl (- x) == - fl x.
Proof.
  unfold fl, exponent. rewrite Qabs_opp_eq.
  assert (Qeq_bool (- x) 0 = Qeq_bool x 0) as ->.
  { destruct (Qeq_bool x 0) eqn:E.
    - apply Qeq_bool_iff in E. apply Qeq_bool_iff. rewrite E. reflexivity.
    - destruct (Qeq_bool (- x) 0) eqn:E'; [|reflexivity].
      apply Qeq_bool_iff in E'. apply Qeq_bool_neq in E. exfalso. apply E.
      lra. }
  destruct (Qeq_bool x 0); [reflexivity|].
  set (P := pow2 _).
  assert (- x / P == - (x / P)) as E
    by (field; apply pow2_neq_0).
  rewrite (roundHalfEven_comp _ _ E), roundHalfEven_opp, inject_Z_opp. ring.
Qed.

(** One rounding, either sign. *)
Lemma fl_factor_abs (x : Q) :
  small <= Qabs x -> exists f, 1 - u <= f /\ f <= 1 + u /\ fl x == x * f.
Proof.
  intro Hx. destruct (Qlt_le_dec x 0) as [Hneg|Hpos].
  - rewrite Qabs_neg in Hx by now apply Qlt_le_weak.
    destruct (fl_factor (- x) Hx) as (f & F1 & F2 & E).
    exists f. split; [exact F1|]. split; [exact F2|].
    rewrite fl_opp in E. lra.
  - rewrite Qabs_pos in Hx by exact Hpos. now apply fl_factor.
Qed.

(** A rounded value of magnitude at least [2^k] is a multiple of
    [2^(k-52)]. *)
Lemma fl_on_grid (z : Q) (k : Z) :
  (-1022 <= k)%Z -> pow2 k <= z ->
  exists n : Z, fl z == inject_Z n * pow2 (k - 52).
Proof.
  intros Hk Hz.
  assert (0 < z) as Hpos
    by (apply Qlt_le_trans with (pow2 k); [apply pow2_pos | exact Hz]).
  assert (k <= ilog2 z)%Z as Hlog.
  { destruct (ilog2_spec z Hpos) as [_ Hhi].
    assert (pow2 k < pow2 (ilog2 z + 1)) as H
      by (apply Qle_lt_trans with z; assumption).
    apply pow2_lt_inv in H. lia. }
  rewrite (fl_pos z Hpos), (exponent_pos z Hpos).
  rewrite Z.max_l by lia.
  set (e := (ilog2 z - 52)%Z).
  exists (roundHalfEven (z / pow2 e) * 2 ^ (e - (k - 52)))%Z.
  rewrite inject_Z_mult, <- pow2_inject by lia.
  rewrite <- Qmult_assoc, <- pow2_plus.
  now replace (e - (k - 52) + (k - 52))%Z with e by lia.
Qed.

(** The centring offset [(w - n) * 0.5] as computed, for [n] on a grid of
    step [2^-43] or coarser: it is within [|w - n| * 2^-50] of the exact
    value. *)
Lemma offset_centred (w : Z) (n : Q) (j : Z) :
  n == inject_Z j * pow2 (-43) ->
  Qabs (fl (fl (inject_Z w - n) * 0.5) - (inject_Z w - n) / 2)
  <= Qabs (inject_Z w - n) * (1 # 1125899906842624).
Proof.
  intro Hn.
  set (d := inject_Z w - n).
  assert (d == inject_Z (w * 2 ^ 43 - j) * pow2 (-43)) as Hd.
  { unfold d. rewrite Hn. rewrite inject_Z_sub, inject_Z_mult.
    change (inject_Z (2 ^ 43)) with (/ pow2 (-43)).
    field. apply pow2_neq_0. }
  destruct (Z.eq_dec (w * 2 ^ 43 - j) 0) as [Z0|NZ].
  - assert (d == 0) as D0 by (rewrite Hd, Z0; ring).
    rewrite (fl_zero d D0).
    assert (fl (0 * 0.5) = 0) as -> by (apply fl_zero; ring).
    rewrite D0.
    apply Qle_bool_iff. reflexivity.
  - assert (pow2 (-43) <= Qabs d) as Dbig.
    { rewrite Hd, Qabs_Qmult.
      rewrite (Qabs_pos (pow2 (-43))) by (apply Qlt_le_weak, pow2_pos).
      assert (1 <= Qabs (inject_Z (w * 2 ^ 43 - j))) as H1.
      { unfold Qabs, inject_Z. cbn [Qnum Qden].
        change 1 with (inject_Z 1).
        change (Z.abs (w * 2 ^ 43 - j) # 1)
          with (inject_Z (Z.abs (w * 2 ^ 43 - j))).
        rewrite <- Zle_Qle. lia. }
      pose proof (pow2_pos (-43)) as P.
      set (m := Qabs (inject_Z (w * 2 ^ 43 - j))) in *.
      set (P43 := pow2 (-43)) in *. nra. }
    assert (pow2 (-43) == 1 # 8796093022208) as P43
      by (apply Qeq_bool_iff; vm_compute; reflexivity).
    rewrite P43 in Dbig.
    destruct (fl_factor_abs d) as (g & G1 & G2 & Eg);
      [unfold small; lra|].
    assert (small <= Qabs (fl d * 0.5)) as Hhalf.
    { rewrite Eg, !Qabs_Qmult.
      assert (Qabs 0.5 == 1 # 2) as -> by reflexivity.
      unfold u in *.
      rewrite (Qabs_pos g) by lra.
      unfold small. set (D := Qabs d) in *. nra. }
    destruct (fl_factor_abs (fl d * 0.5) Hhalf) as (g' & G1' & G2' & Eg').
    rewrite Eg', Eg.
    assert (d * g * 0.5 * g' - d / 2 == d * ((g * g' - 1) * (1 # 2))) as ->
      by field.
    rewrite Qabs_Qmult, !(Qmult_comm (Qabs d)).
    apply Qmult_le_compat_r; [|apply Qabs_nonneg].
    apply Qabs_Qle_condition. unfold u in *.
    clear - G1 G2 G1' G2'. split; nra.
Qed.

(** A rectangle that covers the box up to [eps], is tight on one axis up
    to [eps] and keeps the aspect ratio up to [eps] is the image scaled by
    max(W / iw, H / ih), up to [8 eps]. *)
Lemma near_cover_scale (W H IW IH nw nh : Q) :
  0 < W -> 0 < H -> 0 < IW -> 0 < IH ->
  W * (1 - eps) <= nw -> H * (1 - eps) <= nh ->
  nw * IH * (1 - eps) <= nh * IW ->
  nh * IW <= nw * IH * (1 + eps) ->
  nw <= W * (1 + eps) \/ nh <= H * (1 + eps) ->
  let scale := Qmax (W / IW) (H / IH) in
  IW * scale * (1 - 8 * eps) <= nw /\ nw <= IW * scale * (1 + 8 * eps)
  /\ IH * scale * (1 - 8 * eps) <= nh /\ nh <= IH * scale * (1 + 8 * eps).
Proof.
  intros HW HH HIW HIH M1 M2 M3 M4 M5 scale.
  assert (~ IW == 0) as NW by (intro E; rewrite E in HIW; discriminate HIW).
  assert (~ IH == 0) as NH by (intro E; rewrite E in HIH; discriminate HIH).
  assert (W / IW * IW == W) as Ea by (field; exact NW).
  assert (H / IH * IH == H) as Eb by (field; exact NH).
  unfold scale. set (a := W / IW) in *. set (b := H / IH) in *.
  unfold eps in *.
  assert (0 < nw) as Pnw by nra.
  assert (0 < nh) as Pnh by nra.
  destruct (Q.max_spec a b) as [[Hab ->]|[Hba ->]].
  - (* the height decides *)
    set (t := IW * b).
    assert (t * IH == H * IW) as Et by (unfold t; rewrite <- Eb; ring).
    assert (W * IH <= H * IW) as Hc.
    { rewrite <- Ea, <- Eb.
      setoid_replace (a * IW * IH) with (a * (IW * IH)) by ring.
      setoid_replace (b * IH * IW) with (b * (IW * IH)) by ring.
      assert (0 < IW * IH) by (clear - HIW HIH; nra).
      set (I := IW * IH) in *. clear - Hab H0. nra. }
    assert (W <= t) as Wt by (apply Qnot_lt_le; intro G; nra).
    assert (IH * b == H) as -> by (rewrite <- Eb; ring).
    assert (nh <= H * (1 + (3 # 1125899906842624))) as Unh.
    { destruct M5 as [U|U]; [|lra].
      assert (nh * IW <= W * (1 + (1 # 1125899906842624)) * IH
                         * (1 + (1 # 1125899906842624))) as V by nra.
      assert (nh * IW <= H * IW * (1 + (1 # 1125899906842624))
                         * (1 + (1 # 1125899906842624))) as V'.
      { eapply Qle_trans; [exact V|]. clear - Hc. nra. }
      apply Qnot_lt_le. intro G.
      assert (H * (1 + (3 # 1125899906842624)) * IW < nh * IW) as G' by nra.
      clear - V' G' HH HIW.
      assert (0 < H * IW) by nra. nra. }
    split; [|split; [|split]]; try lra.
    + (* t (1 - 8 eps) <= nw *)
      apply Qnot_lt_le. intro G.
      assert (nw * IH < t * IH * (1 - (8 # 1125899906842624))) as G1
        by (clear - G HIH; nra).
      rewrite Et in G1.
      assert (H * IW * (1 - (1 # 1125899906842624)) <= nh * IW) as G2
        by (clear - M2 HIW; nra).
      assert (0 < H * IW) as P by (clear - HH HIW; nra).
      set (HI := H * IW) in *. set (N := nw * IH) in *.
      set (M := nh * IW) in *. clear - G1 G2 M4 P. nra.
    + apply Qnot_lt_le. intro G.
      assert (t * IH * (1 + (8 # 1125899906842624)) < nw * IH) as G1
        by (clear - G HIH; nra).
      rewrite Et in G1.
      assert (nh * IW <= H * IW * (1 + (3 # 1125899906842624))) as G2
        by (clear - Unh HIW; nra).
      assert (0 < H * IW) as P by (clear - HH HIW; nra).
      set (HI := H * IW) in *. set (N := nw * IH) in *.
      set (M := nh * IW) in *. clear - G1 G2 M3 P. nra.
  - (* the width decides *)
    set (t := IH * a).
    assert (t * IW == W * IH) as Et by (unfold t; rewrite <- Ea; ring).
    assert (H * IW <= W * IH) as Hc.
    { rewrite <- Ea, <- Eb.
      setoid_replace (a * IW * IH) with (a * (IW * IH)) by ring.
      setoid_replace (b * IH * IW) with (b * (IW * IH)) by ring.
      assert (0 < IW * IH) by (clear - HIW HIH; nra).
      set (I := IW * IH) in *. clear - Hba H0. nra. }
    assert (H <= t) as Ht by (apply Qnot_lt_le; intro G; nra).
    assert (IW * a == W) as -> by (rewrite <- Ea; ring).
    assert (nw <= W * (1 + (3 # 1125899906842624))) as Unw.
    { destruct M5 as [U|U]; [lra|].
      assert (nw * IH * (1 - (1 # 1125899906842624))
              <= H * (1 + (1 # 1125899906842624)) * IW) as V by nra.
      assert (nw * IH * (1 - (1 # 1125899906842624))
              <= W * IH * (1 + (1 # 1125899906842624))) as V'.
      { eapply Qle_trans; [exact V|]. clear - Hc. nra. }
      apply Qnot_lt_le. intro G.
      assert (W * (1 + (3 # 1125899906842624)) * IH < nw * IH) as G' by nra.
      clear - V' G' HW HIH.
      assert (0 < W * IH) by nra. nra. }
    split; [|split; [|split]]; try lra.
    + apply Qnot_lt_le. intro G.
      assert (nh * IW < t * IW * (1 - (8 # 1125899906842624))) as G1
        by (clear - G HIW; nra).
      rewrite Et in G1.
      assert (W * IH * (1 - (1 # 1125899906842624)) <= nw * IH) as G2
        by (clear - M1 HIH; nra).
      assert (0 < W * IH) as P by (clear - HW HIH; nra).
      set (WI := W * IH) in *. set (N := nw * IH) in *.
      set (M := nh * IW) in *. clear - G1 G2 M3 P. nra.
    + apply Qnot_lt_le. intro G.
      assert (t * IW * (1 + (8 # 1125899906842624)) < nh * IW) as G1
        by (clear - G HIW; nra).
      rewrite Et in G1.
      assert (nw * IH <= W * IH * (1 + (3 # 1125899906842624))) as G2
        by (clear - Unw HIH; nra).
      assert (0 < W * IH) as P by (clear - HW HIH; nra).
      set (WI := W * IH) in *. set (N := nw * IH) in *.
      set (M := nh * IW) in *. clear - G1 G2 M4 P. nra.
Qed.

Lemma Qpos_neq (x : Q) : 0 < x -> ~ x == 0.
Proof. intros H E. rewrite E in H. discriminate H. Qed.

(** Two and three roundings together stay within [2 u] and [4 u]. *)
Lemma fac2 (f g : Q) :
  1 - u <= f -> f <= 1 + u -> 1 - u <= g -> g <= 1 + u ->
  1 - (1 # 4503599627370496) <= f * g
  /\ f * g <= 1 + (5 # 18014398509481984).
Proof. unfold u. intros. split; nra. Qed.

Lemma fac3 (f g h : Q) :
  1 - u <= f -> f <= 1 + u -> 1 - u <= g -> g <= 1 + u ->
  1 - u <= h -> h <= 1 + u ->
  1 - (3 # 9007199254740992) <= f * g * h
  /\ f * g * h <= 1 + (1 # 2251799813685248).
Proof.
  intros F1 F2 G1 G2 H1 H2.
  destruct (fac2 f g F1 F2 G1 G2) as [L U].
  set (fg := f * g) in *. unfold u in *. split; nra.
Qed.

(** The rectangle of [Rounded.coverRect] on the 1280 x 720 box: it covers
    the box, is tight on one axis and keeps the aspect ratio of the bitmap,
    each up to [eps]; the offsets centre it. *)
Lemma coverRect_rounded (img : ImageBitmap) :
  (1 <= width img < 2 ^ 32)%Z -> (1 <= height img < 2 ^ 32)%Z ->
  exists cx cy nw nh,
    Rounded.coverRect img 1280 720 = (cx, cy, nw, nh)
    /\ 1280 * (1 - eps) <= nw /\ 720 * (1 - eps) <= nh
    /\ nw * inject_Z (height img) * (1 - eps) <= nh * inject_Z (width img)
    /\ nh * inject_Z (width img) <= nw * inject_Z (height img) * (1 + eps)
    /\ (nw <= 1280 * (1 + eps) \/ nh <= 720 * (1 + eps))
    /\ Qabs (cx - (1280 - nw) / 2) <= Qabs (1280 - nw) * eps
    /\ Qabs (cy - (720 - nh) / 2) <= Qabs (720 - nh) * eps.
Proof.
  intros Hiw Hih. unfold Rounded.coverRect.
  set (iw := width img) in *. set (ih := height img) in *.
  set (IW := inject_Z iw). set (IH := inject_Z ih).
  assert (1 <= IW /\ IW <= 4294967296) as [IW1 IW2].
  { unfold IW. change 1 with (inject_Z 1).
    change 4294967296 with (inject_Z (2 ^ 32)). rewrite <- !Zle_Qle. lia. }
  assert (1 <= IH /\ IH <= 4294967296) as [IH1 IH2].
  { unfold IH. change 1 with (inject_Z 1).
    change 4294967296 with (inject_Z (2 ^ 32)). rewrite <- !Zle_Qle. lia. }
  assert (~ IW == 0) as NW by (apply Qpos_neq; lra).
  assert (~ IH == 0) as NH by (apply Qpos_neq; lra).
  (* the two quotients *)
  assert (1280 / IW * IW == 1280) as Ea by (field; exact NW).
  assert (720 / IH * IH == 720) as Eb by (field; exact NH).
  set (a := 1280 / IW) in *. set (b := 720 / IH) in *.
  assert (small <= a) as Sa
    by (unfold small; apply Qnot_lt_le; intro L; nra).
  assert (small <= b) as Sb
    by (unfold small; apply Qnot_lt_le; intro L; nra).
  destruct (fl_factor a Sa) as (fa & Fa1 & Fa2 & EA).
  destruct (fl_factor b Sb) as (fb & Fb1 & Fb2 & EB).
  set (A := fl a) in *. set (B := fl b) in *.
  set (r := Qmin A B).
  assert (r <= A /\ r <= B /\ (r == A \/ r == B)) as (RA & RB & Rcase).
  { unfold r. destruct (Q.min_spec A B) as [[L E]|[L E]]; rewrite E.
    - split; [apply Qle_refl|]. split; [now apply Qlt_le_weak|now left].
    - split; [exact L|]. split; [apply Qle_refl|now right]. }
  unfold u in *.
  assert (1 # 16777216 <= r) as Rlo.
  { destruct Rcase as [E|E]; rewrite E; [rewrite EA | rewrite EB];
      unfold small in *; apply Qnot_lt_le; intro L; nra. }
  set (p := IW * r). set (q := IH * r).
  assert (p <= 1280 * fa) as Pa by (unfold p; nra).
  assert (q <= 720 * fb) as Qb by (unfold q; nra).
  assert (p == 1280 * fa \/ q == 720 * fb) as PQ.
  { destruct Rcase as [E|E]; [left|right]; unfold p, q; rewrite E;
      [rewrite EA | rewrite EB]; nra. }
  assert (p * IH == q * IW) as Epq by (unfold p, q; ring).
  assert (1 # 16777216 <= p) as Plo by (unfold p; nra).
  assert (1 # 16777216 <= q) as Qlo by (unfold q; nra).
  destruct (fl_factor p) as (f1 & F11 & F12 & E1); [unfold small; lra|].
  destruct (fl_factor q) as (f2 & F21 & F22 & E2); [unfold small; lra|].
  unfold u in *.
  set (nw0 := fl p) in *. set (nh0 := fl q) in *.
  assert (0 < nw0 /\ nw0 <= 1281) as [NW0 NW0'] by (split; nra).
  assert (0 < nh0 /\ nh0 <= 721) as [NH0 NH0'] by (split; nra).
  assert (~ nw0 == 0) as NNW by (apply Qpos_neq; exact NW0).
  assert (~ nh0 == 0) as NNH by (apply Qpos_neq; exact NH0).
  (* the two candidate ratios *)
  assert (1280 / nw0 * nw0 == 1280) as Ex by (field; exact NNW).
  assert (720 / nh0 * nh0 == 720) as Ey by (field; exact NNH).
  set (x := 1280 / nw0) in *. set (y := 720 / nh0) in *.
  assert (1 # 2 <= x) as Sx by (apply Qnot_lt_le; intro L; nra).
  assert (1 # 2 <= y) as Sy by (apply Qnot_lt_le; intro L; nra).
  destruct (fl_factor x) as (f3 & F31 & F32 & E3); [unfold small; lra|].
  destruct (fl_factor y) as (f4 & F41 & F42 & E4); [unfold small; lra|].
  unfold u in *.
  set (ar1 := fl x) in *. set (ar2 := fl y) in *.
  assert (nw0 < 1280 -> 1 <= ar1) as Har1.
  { intro L. rewrite <- fl_1. apply fl_monotone; [discriminate|].
    apply Qnot_lt_le. intro G. nra. }
  assert (nh0 < 720 -> 1 <= ar2) as Har2.
  { intro L. rewrite <- fl_1. apply fl_monotone; [discriminate|].
    apply Qnot_lt_le. intro G. nra. }
  set (ar := if Qltb (Qabs (fl ((if Qltb nw0 1280 then ar1 else 1) - 1)))
                  (fl 1e-14) && Qltb nh0 720
             then ar2 else if Qltb nw0 1280 then ar1 else 1).
  assert ((nw0 < 1280 /\ ar == ar1 /\ 1 <= ar1
           /\ (720 <= nh0
               \/ c14 <= (ar1 - 1) * (1 + (1 # 9007199254740992))))
          \/ (nw0 < 1280 /\ nh0 < 720 /\ ar == ar2 /\ 1 <= ar1 /\ 1 <= ar2
              /\ ar1 - 1 < c14)
          \/ (1280 <= nw0 /\ nh0 < 720 /\ ar == ar2 /\ 1 <= ar2)
          \/ (1280 <= nw0 /\ 720 <= nh0 /\ ar = 1)) as Hcases.
  { unfold ar. destruct (Qltb nw0 1280) eqn:T1.
    - apply Qltb_true in T1. specialize (Har1 T1).
      assert (0 <= ar1 - 1) as Hz by lra.
      destruct (Qltb (Qabs (fl (ar1 - 1))) (fl 1e-14)) eqn:T2;
        [destruct (Qltb nh0 720) eqn:T3|]; cbn [andb].
      + right; left. apply Qltb_true in T2, T3.
        apply (below_c14 _ Hz) in T2.
        repeat split; auto; try apply Qeq_refl. 
      + left. apply Qltb_false in T3.
        repeat split; auto; try apply Qeq_refl.
      + left. apply Qltb_false in T2.
        apply (above_c14 _ Hz) in T2.
        repeat split; auto; try apply Qeq_refl.
    - apply Qltb_false in T1.
      assert (Qltb (Qabs (fl (1 - 1))) (fl 1e-14) = true) as ->
        by (vm_compute; reflexivity).
      cbn [andb]. destruct (Qltb nh0 720) eqn:T3.
      + right; right; left. apply Qltb_true in T3.
        repeat split; auto; try apply Qeq_refl.
      + right; right; right. apply Qltb_false in T3. repeat split; auto. }
  assert (1 <= ar) as Har.
  { destruct Hcases as [(_ & E & L & _)|[(_ & _ & E & _ & L & _)
                       |[(_ & _ & E & L)|(_ & _ & E)]]];
      rewrite E; try exact L. apply Qle_refl. }
  destruct (fl_factor (nw0 * ar)) as (f5 & F51 & F52 & E5);
    [unfold small; clear - NW0 Har E1 Plo F11; nra|].
  destruct (fl_factor (nh0 * ar)) as (f6 & F61 & F62 & E6);
    [unfold small; clear - NH0 Har E2 Qlo F21; nra|].
  set (nw := fl (nw0 * ar)) in *. set (nh := fl (nh0 * ar)) in *.
  assert (1280 * (1 - eps) <= nw /\ 720 * (1 - eps) <= nh
          /\ nw * IH * (1 - eps) <= nh * IW
          /\ nh * IW <= nw * IH * (1 + eps)
          /\ (nw <= 1280 * (1 + eps) \/ nh <= 720 * (1 + eps))) as Hmain.
  {
  (* one scale for both axes *)
  assert (nw * IH * (1 - eps) <= nh * IW
          /\ nh * IW <= nw * IH * (1 + eps)) as Huniform.
  { assert (nw * IH == q * IW * ar * (f1 * f5)) as ->
      by (rewrite E5, E1, <- Epq; ring).
    assert (nh * IW == q * IW * ar * (f2 * f6)) as ->
      by (rewrite E6, E2; ring).
    destruct (fac2 f1 f5) as [L1 U1]; auto.
    destruct (fac2 f2 f6) as [L2 U2]; auto.
    assert (0 <= q * IW) as T0 by (clear - Qlo IW1; nra).
    assert (0 <= q * IW * ar) as T by (clear - T0 Har; nra).
    set (t := q * IW * ar) in *. set (g1 := f1 * f5) in *.
    set (g2 := f2 * f6) in *. unfold eps.
    assert (g1 * (1 - (1 # 1125899906842624)) <= g2
            /\ g2 <= g1 * (1 + (1 # 1125899906842624))) as [G1 G2]
      by (clear - L1 U1 L2 U2; split; lra).
    clear - T G1 G2. split; nra. }
  unfold u in *.
  assert (c14 == 6338253001141147 # 633825300114114700748351602688) as C14
    by apply c14_value.
  destruct Hcases as [(T1 & E & L & Hsub)|[(T1 & T3 & E & L1 & L2 & T2)
                     |[(T1 & T3 & E & L)|(T1 & T3 & E)]]].
  - (* the width is corrected *)
    assert (ar1 * nw0 == 1280 * f3) as Ear.
    { rewrite E3. setoid_replace (x * f3 * nw0) with (x * nw0 * f3) by ring.
      rewrite Ex. reflexivity. }
    assert (nw == 1280 * (f3 * f5)) as Enw.
    { rewrite E5, E. setoid_replace (nw0 * ar1 * f5) with (ar1 * nw0 * f5) by ring.
      rewrite Ear. ring. }
    destruct (fac2 f3 f5) as [L35 U35]; auto.
    split; [rewrite Enw; unfold eps; clear - L35; nra|].
    split; [|split; [apply Huniform|split; [apply Huniform|]]].
    + assert (nh == nh0 * ar1 * f6) as Enh by (rewrite E6, E; ring).
      destruct Hsub as [Hnh|Hc].
      * rewrite Enh. unfold eps.
        assert (720 <= nh0 * ar1) by (clear - Hnh L; nra).
        clear - H F61. nra.
      * (* the width fell well short, so the height ratio was the smaller *)
        assert (q == 720 * fb) as Eq.
        { destruct PQ as [Ep|Eq]; [exfalso|exact Eq].
          assert (1280 * (1 - (1 # 4503599627370496)) <= nw0) as N
            by (rewrite E1, Ep; clear - Fa1 F11; nra).
          assert (ar1 * (1280 * (1 - (1 # 4503599627370496))) <= 1280 * f3)
            as M by (clear - N Ear L; nra).
          rewrite C14 in Hc. clear - M Hc F32. nra. }
        rewrite Enh, E2, Eq. unfold eps.
        destruct (fac3 fb f2 f6) as [L3 U3]; auto.
        setoid_replace (720 * fb * f2 * ar1 * f6)
          with (720 * (fb * f2 * f6) * ar1) by ring.
        set (g := fb * f2 * f6) in *. clear - L3 L. nra.
    + left. rewrite Enw. unfold eps. clear - U35. nra.
  - (* the width fell short by less than the threshold: the height is corrected *)
    assert (ar2 * nh0 == 720 * f4) as Ear2.
    { rewrite E4. setoid_replace (y * f4 * nh0) with (y * nh0 * f4) by ring.
      rewrite Ey. reflexivity. }
    assert (ar1 * nw0 == 1280 * f3) as Ear.
    { rewrite E3. setoid_replace (x * f3 * nw0) with (x * nw0 * f3) by ring.
      rewrite Ex. reflexivity. }
    assert (nh == 720 * (f4 * f6)) as Enh.
    { rewrite E6, E. setoid_replace (nh0 * ar2 * f6) with (ar2 * nh0 * f6) by ring.
      rewrite Ear2. ring. }
    destruct (fac2 f4 f6) as [L46 U46]; auto.
    split; [|split; [rewrite Enh; unfold eps; clear - L46; nra
                    |split; [apply Huniform|split; [apply Huniform|]]]].
    + assert (0 < r) as Rpos by (clear - Rlo; lra).
      assert (0 < q) as Qpos by (clear - Qlo; lra).
      assert (0 < p) as Ppos by (clear - Plo; lra).
      assert ((16 * ih <= 9 * iw)%Z \/ (9 * iw + 1 <= 16 * ih)%Z) as [Z|Z]
        by lia.
      * (* the image is at least as wide as the canvas: covering the
           height covers the width *)
        assert (16 * IH <= 9 * IW) as ZQ.
        { unfold IH, IW. change 16 with (inject_Z 16).
          change 9 with (inject_Z 9). rewrite <- !inject_Z_mult, <- Zle_Qle.
          exact Z. }
        assert (1280 * q <= 720 * p) as M
          by (unfold p, q; clear - ZQ Rpos; nra).
        destruct (fac3 f1 f4 f5) as [L3 U3]; auto.
        assert (nw * (q * f2) == 720 * p * (f1 * f4 * f5)) as Hprod.
        { rewrite E5, E, <- E2.
          setoid_replace (nw0 * ar2 * f5 * nh0)
            with (nw0 * (ar2 * nh0) * f5) by ring.
          rewrite Ear2, E1. ring. }
        set (g := f1 * f4 * f5) in *.
        assert (1280 * q * g <= nw * q * f2) as M1.
        { setoid_replace (nw * q * f2) with (nw * (q * f2)) by ring.
          rewrite Hprod. clear - M L3. nra. }
        assert (1280 * g <= nw * f2) as M2.
        { apply Qnot_lt_le. intro G. clear - G M1 Qpos. nra. }
        assert (0 <= nw) as Nnw.
        { rewrite E5. assert (0 <= nw0 * ar) by (clear - NW0 Har; nra).
          clear - H F51. nra. }
        unfold eps. apply Qnot_lt_le. intro G.
        assert (nw * f2 <= nw * (1 + (1 # 9007199254740992))) as M3
          by (clear - Nnw F22; nra).
        clear - G M2 M3 L3. nra.
      * (* otherwise the width could not have fallen short by so little *)
        exfalso.
        assert (720 * IW + 80 <= 1280 * IH) as ZQ.
        { assert (720 * IW + 80 == inject_Z (80 * (9 * iw + 1))) as ->
            by (unfold IW; rewrite !inject_Z_mult, inject_Z_plus,
                  inject_Z_mult; ring).
          assert (1280 * IH == inject_Z (80 * (16 * ih))) as ->
            by (unfold IH; rewrite !inject_Z_mult; ring).
          rewrite <- Zle_Qle. lia. }
        assert (720 * p + 80 * r <= 1280 * q) as M
          by (unfold p, q; clear - ZQ Rpos; nra).
        assert (q <= 4294967296 * r) as M'
          by (unfold q; clear - IH2 Rpos; nra).
        rewrite C14 in T2.
        assert (1280 * f3
                < (1 + (6338253001141147 # 633825300114114700748351602688))
                  * nw0) as P0 by (rewrite <- Ear; clear - T2 NW0; nra).
        assert (nw0 <= p * (1 + (1 # 9007199254740992))) as P1
          by (rewrite E1; clear - Ppos F12; nra).
        assert (q * (1 - (1 # 9007199254740992)) < 720) as Q1.
        { apply Qle_lt_trans with (y := nh0); [|exact T3].
          rewrite E2. clear - Qpos F21. nra. }
        clear - M M' P0 P1 Q1 F31. lra.
    + right. rewrite Enh. unfold eps. clear - U46. nra.
  - (* the width already covers: the height is corrected *)
    assert (ar2 * nh0 == 720 * f4) as Ear2.
    { rewrite E4. setoid_replace (y * f4 * nh0) with (y * nh0 * f4) by ring.
      rewrite Ey. reflexivity. }
    assert (nh == 720 * (f4 * f6)) as Enh.
    { rewrite E6, E. setoid_replace (nh0 * ar2 * f6) with (ar2 * nh0 * f6) by ring.
      rewrite Ear2. ring. }
    destruct (fac2 f4 f6) as [L46 U46]; auto.
    split; [|split; [rewrite Enh; unfold eps; clear - L46; nra
                    |split; [apply Huniform|split; [apply Huniform|]]]].
    + rewrite E5, E. unfold eps.
      assert (1280 <= nw0 * ar2) by (clear - T1 L; nra).
      clear - H F51. nra.
    + right. rewrite Enh. unfold eps. clear - U46. nra.
  - (* both sides already cover *)
    assert (ar == 1) as E' by (rewrite E; apply Qeq_refl).
    assert (nw == nw0 * f5) as Enw by (rewrite E5, E'; ring).
    assert (nh == nh0 * f6) as Enh by (rewrite E6, E'; ring).
    split; [rewrite Enw; unfold eps; clear - T1 F51; nra|].
    split; [rewrite Enh; unfold eps; clear - T3 F61; nra|].
    split; [apply Huniform|split; [apply Huniform|]].
    destruct PQ as [Ep|Eq]; [left|right].
    + rewrite Enw, E1, Ep. destruct (fac3 fa f1 f5) as [L3 U3]; auto.
      setoid_replace (1280 * fa * f1 * f5) with (1280 * (fa * f1 * f5))
        by ring.
      unfold eps. clear - U3. nra.
    + rewrite Enh, E2, Eq. destruct (fac3 fb f2 f6) as [L3 U3]; auto.
      setoid_replace (720 * fb * f2 * f6) with (720 * (fb * f2 * f6))
        by ring.
      unfold eps. clear - U3. nra.
  }
  destruct Hmain as (M1 & M2 & M3 & M4 & M5).
  exists (fl (fl (1280 - nw) * 0.5)), (fl (fl (720 - nh) * 0.5)), nw, nh.
  split; [reflexivity|].
  do 5 (split; [assumption|]).
  unfold eps in M1, M2. unfold u in *.
  assert (pow2 9 == 512) as P9 by reflexivity.
  split.
  - destruct (fl_on_grid (nw0 * ar) 9) as (j & Hj); [lia| |].
    + rewrite P9. fold nw in E5. apply Qnot_lt_le. intro G.
      assert (0 <= nw0 * ar) by (clear - NW0 Har; nra).
      clear - G M1 E5 F52 H. nra.
    + exact (offset_centred 1280 nw j Hj).
  - destruct (fl_on_grid (nh0 * ar) 9) as (j & Hj); [lia| |].
    + rewrite P9. fold nh in E6. apply Qnot_lt_le. intro G.
      assert (0 <= nh0 * ar) by (clear - NH0 Har; nra).
      clear - G M2 E6 F62 H. nra.
    + exact (offset_centred 720 nh j Hj).
Qed.

Lemma ilog2_comp (x y : Q) : 0 < x -> x == y -> ilog2 x = ilog2 y.
Proof.
  intros Hx E. destruct (ilog2_spec x Hx) as [Lo Hi].
  symmetry. apply ilog2_unique; rewrite <- E; assumption.
Qed.

Lemma exponent_comp (x y : Q) : ~ x == 0 -> x == y -> exponent x = exponent y.
Proof.
  intros N E. unfold exponent.
  assert (0 < Qabs x) as P.
  { destruct (Qlt_le_dec 0 x) as [G|G].
    - rewrite Qabs_pos by now apply Qlt_le_weak. exact G.
    - rewrite Qabs_neg by exact G.
      apply Qnot_le_lt. intro L. apply N. lra. }
  assert (Qabs x == Qabs y) as E' by now rewrite E.
  now rewrite (ilog2_comp _ _ P E').
Qed.

(** [fl] does not depend on how the rational is written. *)
Lemma fl_comp (x y : Q) : x == y -> fl x == fl y.
Proof.
  intro E. destruct (Qeq_dec x 0) as [Z|N].
  - rewrite (fl_zero x Z). rewrite E in Z. now rewrite (fl_zero y Z).
  - assert (~ y == 0) as N' by now rewrite <- E.
    unfold fl.
    destruct (Qeq_bool x 0) eqn:Ex.
    { exfalso. apply N. now apply Qeq_bool_iff. }
    destruct (Qeq_bool y 0) eqn:Ey.
    { exfalso. apply N'. now apply Qeq_bool_iff. }
    rewrite (exponent_comp x y N E).
    assert (x / pow2 (exponent y) == y / pow2 (exponent y)) as E'
      by now rewrite E.
    now rewrite (roundHalfEven_comp _ _ E').
Qed.

End RoundedFacts.

(** The two embeddings of binary64, [Binary64.coverRect] over the
    machine's floats and [Rounded.coverRect] over [Q], give the same
    rectangle on every sample size. *)
Lemma rounded_agrees_with_floats :
  forallb Rounded.sameRect sampleSizes = true.
Proof. vm_compute. reflexivity. Qed.

(** C5.  As binary64 computes it, for a bitmap of width and height in
    [1, 2^32), [drawImageProp] on the 1280 x 720 box draws a rectangle
    that covers the box up to a relative 2^-50 (the scaled width is at
    least 1280 (1 - 2^-50), the scaled height at least 720 (1 - 2^-50)),
    is tight on one axis up to 2^-50, keeps the aspect ratio of the bitmap
    up to 2^-50, so that both sides are within 2^-47 of the bitmap scaled by
    max(1280 / width, 720 / height), and is centred: cx and cy are
    (1280 - nw) / 2 and (720 - nh) / 2 up to 2^-50 of the part left
    over. *)
Theorem C5_cover_fit (img : ImageBitmap) :
  (1 <= width img < 2 ^ 32)%Z -> (1 <= height img < 2 ^ 32)%Z ->
  let iw := inject_Z (width img) in
  let ih := inject_Z (height img) in
  let scale := Qmax (WIDTH / iw) (HEIGHT / ih) in
  let eps := Rounded.eps in
  exists cx cy nw nh,
    Rounded.drawImageProp (Some img) 0 0 WIDTH HEIGHT
    = ([DrawImage img cx cy nw nh], Normal tt)
    /\ WIDTH * (1 - eps) <= nw /\ HEIGHT * (1 - eps) <= nh
    /\ (nw <= WIDTH * (1 + eps) \/ nh <= HEIGHT * (1 + eps))
    /\ nw * ih * (1 - eps) <= nh * iw /\ nh * iw <= nw * ih * (1 + eps)
    /\ iw * scale * (1 - 8 * eps) <= nw /\ nw <= iw * scale * (1 + 8 * eps)
    /\ ih * scale * (1 - 8 * eps) <= nh /\ nh <= ih * scale * (1 + 8 * eps)
    /\ Qabs (cx - (WIDTH - nw) / 2) <= Qabs (WIDTH - nw) * eps
    /\ Qabs (cy - (HEIGHT - nh) / 2) <= Qabs (HEIGHT - nh) * eps.
Proof.
  intros Hw Hh iw ih scale eps.
  destruct (RoundedFacts.coverRect_rounded img Hw Hh)
    as (cx & cy & nw & nh & Hrect & M1 & M2 & M3 & M4 & M5 & Ox & Oy).
  fold iw ih eps in M1, M2, M3, M4, M5, Ox, Oy.
  assert (0 < iw) as Hiw by (apply inject_Z_pos; lia).
  assert (0 < ih) as Hih by (apply inject_Z_pos; lia).
  destruct (RoundedFacts.near_cover_scale 1280 720 iw ih nw nh)
    as (S1 & S2 & S3 & S4); try assumption; try reflexivity.
  exists cx, cy, nw, nh.
  split.
  { unfold Rounded.drawImageProp. change WIDTH with 1280.
    change HEIGHT with 720. rewrite Hrect. reflexivity. }
  change WIDTH with 1280. change HEIGHT with 720.
  repeat split; assumption.
Qed.

(** The 601 x 706 upright is drawn, not 1280 wide, but within 2^-50 of
    it. *)
Lemma C5_cover_fit_witness :
  exists cx cy nw nh,
    Rounded.drawImageProp (Some upright) 0 0 WIDTH HEIGHT
    = ([DrawImage upright cx cy nw nh], Normal tt)
    /\ WIDTH * (1 - Rounded.eps) <= nw
    /\ HEIGHT * (1 - Rounded.eps) <= nh.
Proof.
  destruct (C5_cover_fit upright) as (cx & cy & nw & nh & H);
    [cbn; lia | cbn; lia |].
  exists cx, cy, nw, nh.
  destruct H as (H1 & H2 & H3 & _). auto.
Defined.

(** The rectangle does not always cover the box.  In binary64 the
    601 x 706 upright is scaled to a width of 1279.9999999999998, the
    float just below 1280, and placed at cx = 2^-43 > 0; the 4436 x 76
    strip is scaled to a height of 719.99999999999989, the float just
    below 720.  [Rounded.coverRect] gives the same width for the upright;
    in exact arithmetic it is 1280. *)
Lemma C5_counterexample :
  snd (fst Binary64.uprightRect) = PrimFloat.next_down Binary64.WIDTH
  /\ PrimFloat.ltb (snd (fst Binary64.uprightRect)) Binary64.WIDTH = true
  /\ PrimFloat.ltb PrimFloat.zero (fst (fst (fst Binary64.uprightRect)))
     = true
  /\ snd Binary64.stripRect = PrimFloat.next_down Binary64.HEIGHT
  /\ PrimFloat.ltb (snd Binary64.stripRect) Binary64.HEIGHT = true
  /\ (exists cx cy nw nh,
        Rounded.coverRect upright WIDTH HEIGHT = (cx, cy, nw, nh)
        /\ nw < WIDTH /\ 0 < cx
        /\ Rounded.sameNumber (snd (fst Binary64.uprightRect)) nw = true)
  /\ (exists cx cy nw nh,
        coverRect upright WIDTH HEIGHT = (cx, cy, nw, nh)
        /\ nw == WIDTH).
Proof.
  do 5 (split; [vm_compute; reflexivity|]).
  split.
  - eexists _, _, _, _. split; [vm_compute; reflexivity|].
    repeat split; vm_compute; reflexivity.
  - eexists _, _, _, _. split; [vm_compute; reflexivity|].
    vm_compute. reflexivity.
Qed.

(** ** A frame fixes the state it reads *)

Ltac agree_simpl := unfold agree; simpl.

Lemma exec_agree (call : CanvasCall) (k : Known) (s1 s2 : Context2D) :
  reads call k = true -> agree k s1 s2 ->
  agree (learn call k) (exec call s1) (exec call s2).
Proof.
  intros Hreads (Ha & Hf & Hal & Hfo & Hp & Hs).
  destruct call; cbn [reads] in Hreads;
    repeat match goal with
      | H : _ && _ = true |- _ => apply andb_true_iff in H as [? ?]
      end;
    repeat match goal with
      | H : ?b = true, I : ?b = true -> _ |- _ => specialize (I H)
      end.
  - (* globalAlpha *)
    cbn [exec learn].
    destruct (validAlpha a); agree_simpl.
    + rewrite orb_true_r. repeat split; auto.
    + rewrite orb_false_r. repeat split; auto.
  - (* fillStyle *) agree_simpl. repeat split; auto.
  - (* textAlign *) agree_simpl. repeat split; auto.
  - (* font *) agree_simpl. repeat split; auto.
  - (* drawImage *) agree_simpl. repeat split; auto. congruence.
  - (* fillRect *) agree_simpl. repeat split; auto. congruence.
  - (* fillText *) agree_simpl. repeat split; auto. congruence.
  - (* beginPath *) agree_simpl. repeat split; auto.
  - (* roundRect *)
    cbn [exec learn]. destruct y as [|y]; [repeat split; auto|].
    destruct h as [|h]; [repeat split; auto|].
    agree_simpl. repeat split; auto. congruence.
  - (* fill *)
    cbn [exec learn]. rewrite Hp. destruct (path s2) eqn:E.
    + repeat split; auto. congruence.
    + agree_simpl. repeat split; auto; congruence.
Qed.

Lemma selfContained_sound (calls : list CanvasCall) (k : Known)
  (s1 s2 : Context2D) :
  selfContained k calls = true -> agree k s1 s2 ->
  surface (run calls s1) = surface (run calls s2).
Proof.
  revert k s1 s2. induction calls as [|call calls IH]; intros k s1 s2 Hc Hagree.
  - apply Hagree.
  - cbn [selfContained] in Hc. apply andb_true_iff in Hc as [Hreads Hrest].
    cbn [run fold_left]. apply (IH (learn call k)); [exact Hrest|].
    now apply exec_agree.
Qed.

Lemma selfContained_bars (dataArray : list Z) (l : list Z) (k : Known) :
  k_alpha k = true -> k_fill k = true ->
  selfContained k (flat_map (barCalls dataArray) l) = true.
Proof.
  revert k. induction l as [|i l IH]; intros k Ha Hf; [reflexivity|].
  cbn [flat_map barCalls app selfContained reads learn k_alpha k_fill k_path].
  rewrite Ha, Hf. cbn [andb]. apply IH; reflexivity || assumption.
Qed.

Lemma drawFrame_selfContained (c : Component) (t : Q) (duration : number)
  (dataArray : list Z) :
  selfContained nothingKnown (events (drawFrame c t duration dataArray)) = true.
Proof.
  unfold drawFrame.
  destruct (Nat.eqb _ 0); [reflexivity|].
  set (n := Z.of_nat _).
  destruct (array_get (imageBitmapsRef c) (currentIndex t duration n))
    as [cur|]; [|reflexivity].
  rewrite drawImageProp_some. unfold imageCall.
  destruct (coverRect cur WIDTH HEIGHT) as [[[? ?] ?] ?].
  destruct (crossfading t duration n);
    [destruct (array_get (imageBitmapsRef c) (nextIndex t duration n))
       as [next|];
     [rewrite drawImageProp_some; unfold imageCall;
      destruct (coverRect next WIDTH HEIGHT) as [[[? ?] ?] ?]|reflexivity]|];
    destruct (Qltb t 4); destruct (analyserRef c) as [a|];
    rewrite ?for_loop_drawBar; try reflexivity;
    unfold bind, emit, ret, events; cbn [fst snd app];
    cbn [selfContained reads learn k_alpha k_fill k_align k_font k_path
         nothingKnown andb orb];
    change (validAlpha 1) with true; cbn [andb orb];
    apply selfContained_bars; reflexivity.
Qed.

(** ** C6: what a frame depends on *)

(** C6, counterexample.  One component heard at two moments, in silence
    and at full level: same configuration, same decoded images, same
    arguments to [drawFrame], a freshly cleared surface, and the two
    frames differ. *)
Lemma C6_counterexample :
  let quiet := sampleComponent [landscape] (Some silence) None in
  let loud := sampleComponent [landscape] (Some fullLevel) None in
  config quiet = config loud
  /\ imageBitmapsRef quiet = imageBitmapsRef loud
  /\ surface (run (events (drawFrame quiet 5 (Num 10) (new_Uint8Array 128)))
                fresh)
     <> surface (run (events (drawFrame loud 5 (Num 10) (new_Uint8Array 128)))
                   fresh).
Proof.
  split; [reflexivity|]. split; [reflexivity|].
  intro H. vm_compute in H. discriminate H.
Qed.

(** C6, as amended.  The frame is determined by currentTime, duration,
    the configuration, the decoded images and the frequency data the
    analyser hands over during the draw: two calls that agree on these
    make the same calls on the context, and on surfaces with the same
    contents they leave the same contents, whatever styles, opacity and
    path earlier calls left in the two contexts.  The dataArray argument
    is a buffer, overwritten before it is read. *)
Theorem C6_frame_determined (c1 c2 : Component) (t : Q) (duration : number)
  (dataArray1 dataArray2 : list Z) :
  config c1 = config c2 ->
  imageBitmapsRef c1 = imageBitmapsRef c2 ->
  option_map (fun a => getByteFrequencyData a dataArray1) (analyserRef c1)
  = option_map (fun a => getByteFrequencyData a dataArray2) (analyserRef c2) ->
  drawFrame c1 t duration dataArray1 = drawFrame c2 t duration dataArray2
  /\ (forall s1 s2, surface s1 = surface s2 ->
      surface (run (events (drawFrame c1 t duration dataArray1)) s1)
      = surface (run (events (drawFrame c2 t duration dataArray2)) s2)).
Proof.
  intros Hcfg Himgs Hdata.
  assert (drawFrame c1 t duration dataArray1
          = drawFrame c2 t duration dataArray2) as Heq.
  { unfold drawFrame. rewrite Hcfg, Himgs.
    destruct (analyserRef c1) as [a1|]; destruct (analyserRef c2) as [a2|];
      cbn [option_map] in Hdata; try discriminate Hdata.
    - injection Hdata as ->. reflexivity.
    - reflexivity. }
  split; [exact Heq|].
  intros s1 s2 Hs. rewrite Heq.
  apply (selfContained_sound _ nothingKnown).
  - apply drawFrame_selfContained.
  - repeat split; try discriminate. exact Hs.
Qed.

(** The same analyser data read into two buffers of different contents. *)
Lemma C6_frame_determined_witness :
  drawFrame (sampleComponent [landscape] (Some fullLevel) None) 5 (Num 10)
    (new_Uint8Array 128)
  = drawFrame (sampleComponent [landscape] (Some fullLevel) None) 5 (Num 10)
      (repeat 7%Z 128).
Proof.
  destruct (C6_frame_determined
              (sampleComponent [landscape] (Some fullLevel) None)
              (sampleComponent [landscape] (Some fullLevel) None)
              5 (Num 10) (new_Uint8Array 128) (repeat 7%Z 128))
    as [H _]; [reflexivity | reflexivity | reflexivity |].
  exact H.
Defined.

(** ** C7: the bars of the visualizer *)

Lemma array_get_nat {A : Type} (arr : list A) (i : nat) :
  array_get arr (Z.of_nat i) = nth_error arr i.
Proof.
  unfold array_get. destruct (Z.of_nat i <? 0)%Z eqn:E.
  - apply Z.ltb_lt in E. lia.
  - now rewrite Nat2Z.id.
Qed.

Lemma barsOf_app (l1 l2 : list CanvasCall) :
  barsOf (l1 ++ l2) = barsOf l1 ++ barsOf l2.
Proof.
  induction l1 as [|call l1 IH]; [reflexivity|].
  destruct call; cbn [app barsOf]; rewrite IH; reflexivity.
Qed.

Lemma barsOf_loop (dataArray : list Z) (l : list Z) :
  barsOf (flat_map (barCalls dataArray) l)
  = map (fun i => (visualizerX + inject_Z i * (barWidth + gap),
                   nsub (Num visualizerY) (barHeight dataArray i),
                   barWidth, barHeight dataArray i)) l.
Proof.
  induction l as [|i l IH]; [reflexivity|].
  cbn [flat_map map]. rewrite barsOf_app, IH. reflexivity.
Qed.

Lemma drawFrame_bars (c : Component) (t : Q) (duration : number)
  (dataArray : list Z) :
  (1 <= Z.of_nat (List.length (imageBitmapsRef c)))%Z -> 0 <= t ->
  barsOf (events (drawFrame c t duration dataArray))
  = barsOf (visualizerCalls (analyserRef c) dataArray).
Proof.
  intros Hn Ht.
  destruct (drawFrame_layers c t duration dataArray Hn Ht)
    as (current & next & _ & _ & ->).
  unfold events. cbn [fst]. rewrite !barsOf_app.
  assert (barsOf (backgroundCalls current next t duration
                    (Z.of_nat (List.length (imageBitmapsRef c)))) = [])
    as ->.
  { unfold backgroundCalls, imageCall.
    destruct (coverRect current WIDTH HEIGHT) as [[[? ?] ?] ?].
    destruct (coverRect next WIDTH HEIGHT) as [[[? ?] ?] ?].
    destruct (crossfading t duration _); reflexivity. }
  assert (barsOf (titleCalls (config c) t) = []) as ->
    by (unfold titleCalls; destruct (Qltb t 4); reflexivity).
  reflexivity.
Qed.










(** ** C10 and C8: no images *)

Lemma drawFrame_no_images (c : Component) (t : Q) (duration : number)
  (dataArray : list Z) :
  imageBitmapsRef c = [] -> drawFrame c t duration dataArray = ([], Normal tt).
Proof. intro H. unfold drawFrame. rewrite H. reflexivity. Qed.

(** C10.  With no decoded image, [drawFrame] returns at once, whatever
    currentTime, duration and dataArray are: it makes no call on the
    context, so the surface stays as it was, and it does not throw. *)
Theorem C10_no_images_no_op (c : Component) (t : Q) (duration : number)
  (dataArray : list Z) (s : Context2D) :
  imageBitmapsRef c = [] ->
  drawFrame c t duration dataArray = ([], Normal tt)
  /\ events (drawFrame c t duration dataArray) = []
  /\ outcome (drawFrame c t duration dataArray) = Normal tt
  /\ run (events (drawFrame c t duration dataArray)) s = s.
Proof.
  intro H. rewrite (drawFrame_no_images c t duration dataArray H).
  repeat split.
Qed.

(** No image, an analyser at full level, an unknown duration. *)
Lemma C10_no_images_no_op_witness :
  drawFrame (sampleComponent [] (Some fullLevel) None) 7 NaN
    (new_Uint8Array 128)
  = ([], Normal tt).
Proof.
  destruct (C10_no_images_no_op (sampleComponent [] (Some fullLevel) None)
              7 NaN (new_Uint8Array 128) fresh) as [H _]; [reflexivity|].
  exact H.
Defined.

(** C8, counterexample.  No image, a canvas and an audio element: the
    export does not fail; it captures the canvas at 30 frames a second,
    adds the audio track, constructs the recorder and starts it. *)
Lemma C8_counterexample :
  let c := sampleComponent [] (Some silence) (Some (sampleAudio 0 (Num 10))) in
  imageBitmapsRef c = []
  /\ images (config c) = []
  /\ startExport chromium c
     = ([AudioPause; AudioSetCurrentTime 0; CanvasCaptureStream 30;
         AudioCaptureStream; StreamAddTrack;
         NewMediaRecorder (Some "video/mp4"%string); AudioPlay;
         RecorderStart],
        Normal "video/mp4"%string).
Proof. repeat split. Qed.

Ltac find_event :=
  cbn; repeat first [left; reflexivity | right].

(** C8, as amended.  [startExport] rejects with Error("Not ready"), before
    anything is constructed, exactly when the canvas or the audio element
    is missing.  It does not look at the images: with both elements
    present it pauses and rewinds the audio and captures the canvas at 30
    frames a second, whatever the images are (none included), and when
    the recorder can be constructed and playback starts it records.  In a
    recording with no decoded image the frames are empty: [checkEnd]
    draws nothing. *)
Theorem C8_export_guard (p : Platform) (c : Component) :
  (canvasRef c = None \/ audioRef c = None ->
   startExport p c = ([], Throw (Error "Not ready")))
  /\ (canvasRef c <> None /\ audioRef c <> None ->
      In AudioPause (events (startExport p c))
      /\ In (AudioSetCurrentTime 0) (events (startExport p c))
      /\ In (CanvasCaptureStream 30) (events (startExport p c)))
  /\ (canvasRef c <> None /\ audioRef c <> None ->
      recorderAccepts p (chooseMimeType p) = true ->
      playRejection p = None ->
      In (NewMediaRecorder (Some (chooseMimeType p)))
        (events (startExport p c))
      /\ In RecorderStart (events (startExport p c))
      /\ outcome (startExport p c) = Normal (chooseMimeType p))
  /\ (forall c', canvasRef c' = canvasRef c -> audioRef c' = audioRef c ->
      requestRef c' = requestRef c -> startExport p c' = startExport p c)
  /\ (imageBitmapsRef c = [] ->
      forall canvas audio call,
        ~ In (Canvas call) (events (checkEnd c canvas audio))).
Proof.
  split.
  { intros [H|H]; unfold startExport; rewrite H; [reflexivity|].
    destruct (canvasRef c); reflexivity. }
  split.
  { intros [Hc Ha]. unfold startExport, events.
    destruct (canvasRef c) as [canvas|]; [|contradiction].
    destruct (audioRef c) as [audio|]; [|contradiction].
    destruct (requestRef c) as [[|id]|]; destruct (audioTracks p) as [[|k]|];
      destruct (recorderAccepts p (chooseMimeType p));
      destruct (recorderDefault p);
      destruct (playRejection p) as [e|];
      repeat split; find_event. }
  split.
  { intros [Hc Ha] Hrec Hplay. unfold startExport, events, outcome.
    destruct (canvasRef c) as [canvas|]; [|contradiction].
    destruct (audioRef c) as [audio|]; [|contradiction].
    rewrite Hrec, Hplay.
    destruct (requestRef c) as [[|id]|]; destruct (audioTracks p) as [[|k]|];
      repeat split; find_event. }
  split.
  { intros c' Hc Ha Hr. unfold startExport. rewrite Hc, Ha, Hr. reflexivity. }
  intros Himgs canvas audio call. unfold checkEnd, events.
  destruct (audio_ended audio).
  { cbn. intros [H|[]]. discriminate H. }
  destruct (analyserRef c) as [a|];
    rewrite ?(drawFrame_no_images c _ _ _ Himgs);
    destruct (onExportProgress c && truthy (audio_duration audio));
    destruct (context2d canvas); cbn;
    intuition discriminate.
Qed.

(** An export on a component without a canvas is refused; with one, and
    no image, the canvas is captured. *)
Lemma C8_export_guard_witness :
  startExport chromium
    {| config := sampleConfig []; isPlaying := false;
       onExportProgress := false; canvasRef := None;
       audioRef := Some (sampleAudio 0 (Num 10)); analyserRef := None;
       requestRef := None; imageBitmapsRef := [] |}
  = ([], Throw (Error "Not ready")).
Proof.
  destruct (C8_export_guard chromium
              {| config := sampleConfig []; isPlaying := false;
                 onExportProgress := false; canvasRef := None;
                 audioRef := Some (sampleAudio 0 (Num 10));
                 analyserRef := None; requestRef := None;
                 imageBitmapsRef := [] |}) as [H _].
  apply H. left. reflexivity.
Defined.


(** ** C9: the metadata fallback *)

Lemma generateVideoMetadata_returns
  (generateContent : GoogleGenAI -> GenerateContentParameters ->
                     completion GenerateContentResponse)
  (JSON_parse : option string -> completion json)
  (env : ProcessEnv) (title subtitle : string) :
  exists value,
    outcome (generateVideoMetadata generateContent JSON_parse env
               title subtitle)
    = Normal value.
Proof.
  unfold generateVideoMetadata, outcome, of_completion.
  destruct (getAiClient env) as [ai|e]; cbn; [|eauto].
  destruct (generateContent ai (metadataRequest title subtitle))
    as [response|e]; cbn; [|eauto].
  destruct (JSON_parse (text response)) as [value|e]; cbn; eauto.
Qed.

(** C9.  For every title and subtitle, if the call to the metadata
    service rejects or throws, that is, the request made with the client
    that [getAiClient] builds from the environment, then
    [generateVideoMetadata] returns, and what it returns is the object
    with description "Check out my new video: <title>!" and hashtags
    "#musicvideo", "#newupload"; and whatever the service and the parser
    do, it returns and does not throw. *)
Theorem C9_metadata_fallback
  (generateContent : GoogleGenAI -> GenerateContentParameters ->
                     completion GenerateContentResponse)
  (JSON_parse : option string -> completion json)
  (env : ProcessEnv) (title subtitle : string) :
  (forall ai, getAiClient env = Normal ai ->
     exists e,
       generateContent ai (metadataRequest title subtitle) = Throw e) ->
  outcome (generateVideoMetadata generateContent JSON_parse env
             title subtitle)
  = Normal
      (JObject
         [("description"%string,
           JString ("Check out my new video: " ++ title ++ "!"));
          ("hashtags"%string,
           JArray [JString "#musicvideo"; JString "#newupload"])])
  /\ (forall generateContent' JSON_parse' env',
        exists value,
          outcome (generateVideoMetadata generateContent' JSON_parse' env'
                     title subtitle)
          = Normal value).
Proof.
  intro Hrejects. split.
  - unfold generateVideoMetadata, outcome, of_completion.
    destruct (getAiClient env) as [ai|e]; cbn; [|reflexivity].
    destruct (Hrejects ai eq_refl) as [e ->]. reflexivity.
  - intros. apply generateVideoMetadata_returns.
Qed.

(** The service refuses the key in use and would answer any other. *)
Lemma C9_metadata_fallback_witness :
  outcome (generateVideoMetadata
             (fun ai _ =>
                if String.eqb (apiKey ai) "key"
                then Throw (Rejected "403 Forbidden")
                else Normal {| text := Some "{}"%string |})
             (fun _ => Normal (JObject []))
             {| API_KEY := Some "key"%string |}
             "Summer Vibes" "Artist Name")
  = Normal
      (JObject
         [("description"%string,
           JString "Check out my new video: Summer Vibes!");
          ("hashtags"%string,
           JArray [JString "#musicvideo"; JString "#newupload"])]).
Proof.
  destruct (C9_metadata_fallback
              (fun ai _ =>
                 if String.eqb (apiKey ai) "key"
                 then Throw (Rejected "403 Forbidden")
                 else Normal {| text := Some "{}"%string |})
              (fun _ => Normal (JObject []))
              {| API_KEY := Some "key"%string |}
              "Summer Vibes" "Artist Name") as [H _].
  - intros ai Hai. injection Hai as <-. eexists. reflexivity.
  - exact H.
Defined.

(** ** Beyond the claims: the duration the preview passes, and the next
    slide *)



(** The next slide: one further, and back to the first after the last;
    with a single image it is that image. *)
Theorem next_index_wraps (t : Q) (duration : number) (n : Z) :
  (1 <= n)%Z -> 0 <= t ->
  nextIndex t duration n = ((currentIndex t duration n + 1) mod n)%Z
  /\ (currentIndex t duration n = (n - 1)%Z -> nextIndex t duration n = 0%Z)
  /\ ((currentIndex t duration n < n - 1)%Z ->
      nextIndex t duration n = (currentIndex t duration n + 1)%Z)
  /\ (n = 1%Z -> nextIndex t duration n = currentIndex t duration n).
Proof.
  intros Hn Ht.
  pose proof (currentIndex_range t duration n Hn Ht) as Hrange.
  unfold nextIndex.
  rewrite Z.rem_mod_nonneg by lia.
  split; [reflexivity|]. split; [|split].
  - intros ->. replace (n - 1 + 1)%Z with n by lia. apply Z.mod_same. lia.
  - intro Hlt. apply Z.mod_small. lia.
  - intros ->. assert (currentIndex t duration 1 = 0%Z) as -> by lia.
    reflexivity.
Qed.

Lemma next_index_wraps_witness :
  nextIndex 8.9 (Num 9) 3 = 0%Z.
Proof.
  destruct (next_index_wraps 8.9 (Num 9) 3) as (_ & H & _);
    [lia | discriminate |].
  apply H. reflexivity.
Defined.

(** * Properties of the rest of the code *)

(** ** [loadImages] *)

Lemma Promise_all_fulfilled {A B : Type} (f : A -> completion B)
  (l : list A) (values : list B) :
  Promise_all (map f l) = Normal values <->
  Forall2 (fun x v => f x = Normal v) l values.
Proof.
  revert values. induction l as [|x l IH]; intro values; cbn [map Promise_all].
  - split; intro H.
    + injection H as <-. constructor.
    + inversion H. reflexivity.
  - destruct (f x) as [v|e] eqn:Hx.
    + destruct (Promise_all (map f l)) as [vs|e] eqn:Hrest.
      * split; intro H.
        -- injection H as <-. constructor; [exact Hx|]. now apply IH.
        -- inversion H as [|x' v' l' vs' Hv Htail]; subst.
           rewrite Hx in Hv. injection Hv as <-.
           apply IH in Htail. now injection Htail as <-.
      * split; intro H; [discriminate H|].
        inversion H as [|x' v' l' vs' Hv Htail]; subst.
        apply IH in Htail. discriminate Htail.
    + split; intro H; [discriminate H|].
      inversion H as [|x' v' l' vs' Hv Htail]; subst. congruence.
Qed.

Lemma Promise_all_rejected {A B : Type} (f : A -> completion B) (l : list A) :
  (exists e, Promise_all (map f l) = Throw e) <->
  (exists x e, In x l /\ f x = Throw e).
Proof.
  induction l as [|x l IH]; cbn [map Promise_all].
  - split; [intros [e H]; discriminate H | intros (x & e & [] & _)].
  - destruct (f x) as [v|e] eqn:Hx.
    + destruct (Promise_all (map f l)) as [vs|e] eqn:Hrest.
      * split; [intros [e H]; discriminate H|].
        intros (y & e & [<-|Hin] & Hy); [congruence|].
        destruct (proj2 IH) as [e' He']; [now exists y, e | discriminate He'].
      * split; [|intros _; now exists e].
        intros _. destruct (proj1 IH) as (y & e' & Hin & Hy); [now exists e|].
        exists y, e'. split; [now right | exact Hy].
    + split; [|intros _; now exists e].
      intros _. exists x, e. split; [now left | exact Hx].
Qed.

Lemma loadImages_fulfilled
  (createImageBitmap : string -> completion ImageBitmap) (c : Component) :
  (forall f, In f (images (config c)) ->
             exists b, createImageBitmap f = Normal b) ->
  List.length (imageBitmapsRef (loadImages createImageBitmap c))
  = List.length (images (config c))
  /\ forall i f, nth_error (images (config c)) i = Some f ->
       exists b, createImageBitmap f = Normal b
                 /\ nth_error
                      (imageBitmapsRef (loadImages createImageBitmap c)) i
                    = Some b.
Proof.
  intro Hall'. unfold loadImages.
  destruct (Promise_all (map createImageBitmap (images (config c))))
    as [bitmaps|e] eqn:Hall.
  - apply Promise_all_fulfilled in Hall.
    cbn [set_imageBitmapsRef imageBitmapsRef].
    split; [symmetry; exact (Forall2_length Hall)|].
    clear -Hall. induction Hall as [|f b fs bs Hf Hrest IH];
      intros i g Hi; destruct i as [|i]; cbn in Hi; try discriminate Hi.
    + injection Hi as <-. now exists b.
    + exact (IH i g Hi).
  - exfalso.
    assert (exists x e', In x (images (config c))
                         /\ createImageBitmap x = Throw e')
      as (x & e' & Hin & Hx)
      by (apply Promise_all_rejected; now exists e).
    destruct (Hall' x Hin) as [b Hb]. congruence.
Qed.

Lemma loadImages_rejected
  (createImageBitmap : string -> completion ImageBitmap) (c : Component) :
  (exists f e, In f (images (config c)) /\ createImageBitmap f = Throw e) ->
  loadImages createImageBitmap c = c.
Proof.
  intro Hfail. apply Promise_all_rejected in Hfail as [e He].
  unfold loadImages. now rewrite He.
Qed.

(** The decoded set is swapped as a whole or not at all.  When every file
    decodes, the ref holds one bitmap per file, in the order of the files;
    when one file fails to decode, the component is left exactly as it
    was, with the bitmaps of the previous set. *)
Theorem loadImages_all_or_nothing
  (createImageBitmap : string -> completion ImageBitmap) (c : Component) :
  let files := images (config c) in
  let c' := loadImages createImageBitmap c in
  ((forall f, In f files -> exists b, createImageBitmap f = Normal b) ->
   List.length (imageBitmapsRef c') = List.length files
   /\ forall i f, nth_error files i = Some f ->
        exists b, createImageBitmap f = Normal b
                  /\ nth_error (imageBitmapsRef c') i = Some b)
  /\ ((exists f e, In f files /\ createImageBitmap f = Throw e) -> c' = c)
  /\ config c' = config c /\ audioRef c' = audioRef c
  /\ analyserRef c' = analyserRef c /\ canvasRef c' = canvasRef c.
Proof.
  intros files c'. subst files c'.
  split; [apply loadImages_fulfilled|].
  split; [apply loadImages_rejected|].
  unfold loadImages.
  destruct (Promise_all (map createImageBitmap (images (config c))));
    repeat split.
Qed.

(** What the slideshow shows after a load.  On a component that holds no
    bitmap yet, one undecodable file leaves every frame empty, whatever
    the other files are; when all files decode and there is at least one,
    a frame at currentTime >= 0 shows as current slide the bitmap decoded
    from the file at [currentIndex]. *)
Theorem loadImages_then_drawFrame
  (createImageBitmap : string -> completion ImageBitmap) (c : Component)
  (t : Q) (duration : number) (dataArray : list Z) :
  let files := images (config c) in
  let n := Z.of_nat (List.length files) in
  let frame := drawFrame (loadImages createImageBitmap c) t duration
                 dataArray in
  0 <= t ->
  (imageBitmapsRef c = [] ->
   (exists f e, In f files /\ createImageBitmap f = Throw e) ->
   frame = ([], Normal tt))
  /\ (files <> [] ->
      (forall f, In f files -> exists b, createImageBitmap f = Normal b) ->
      outcome frame = Normal tt
      /\ exists f b,
           nth_error files (Z.to_nat (currentIndex t duration n)) = Some f
           /\ createImageBitmap f = Normal b
           /\ currentImageOf (events frame) = Some b).
Proof.
  intros files n frame Ht.
  pose proof (loadImages_fulfilled createImageBitmap c) as Hok.
  pose proof (loadImages_rejected createImageBitmap c) as Hfail.
  fold files in Hok, Hfail. split.
  - intros Hnone Hbad. subst frame. rewrite (Hfail Hbad).
    now apply drawFrame_no_images.
  - intros Hfiles Hall. destruct (Hok Hall) as [Hlen Hnth].
    set (c' := loadImages createImageBitmap c) in *.
    assert (1 <= Z.of_nat (List.length (imageBitmapsRef c')))%Z as Hn.
    { rewrite Hlen. destruct files; [congruence | cbn; lia]. }
    destruct (drawFrame_layers c' t duration dataArray Hn Ht)
      as (current & next & Hcur & _ & Hframe).
    destruct (drawFrame_shown c' t duration dataArray Hn Ht) as [Hshown _].
    rewrite Hlen in Hcur, Hshown. fold n in Hcur, Hshown.
    pose proof (currentIndex_range t duration n) as Hrange.
    assert (1 <= n)%Z as Hn' by (subst n; rewrite <- Hlen; exact Hn).
    specialize (Hrange Hn' Ht).
    unfold array_get in Hcur.
    destruct (currentIndex t duration n <? 0)%Z eqn:E;
      [apply Z.ltb_lt in E; lia|].
    destruct (nth_error files (Z.to_nat (currentIndex t duration n)))
      as [f|] eqn:Hf.
    2:{ apply nth_error_None in Hf. subst n. lia. }
    destruct (Hnth _ f Hf) as (b & Hb & Hbit).
    split; [subst frame; rewrite Hframe; reflexivity|].
    exists f, b. split; [reflexivity|]. split; [exact Hb|].
    subst frame. rewrite Hshown. unfold array_get. rewrite E.
    rewrite Hcur in Hbit. congruence.
Qed.

Lemma loadImages_then_drawFrame_witness :
  drawFrame
    (loadImages sampleDecoder
       (mounted (sampleConfig ["a.jpg"; "broken.jpg"; "c.jpg"]%string)))
    3 (Num 10) []
  = ([], Normal tt).
Proof.
  destruct (loadImages_then_drawFrame sampleDecoder
              (mounted (sampleConfig ["a.jpg"; "broken.jpg"; "c.jpg"]%string))
              3 (Num 10) []) as [H _]; [discriminate|].
  apply H; [reflexivity|].
  exists "broken.jpg"%string, (Error "InvalidStateError").
  split; [cbn; auto | reflexivity].
Defined.

(** ** Which slide is current, and what follows it *)

(** A quotient that is a relative [eps] clear of the integers [k] and
    [k + 1] on either side has floor [k] when computed exactly, *)
Lemma scaled_index_exact (x : Q) (k : Z) :
  (0 <= k)%Z ->
  inject_Z k * (1 + Rounded.eps) <= x ->
  x < inject_Z (k + 1) * (1 - Rounded.eps) ->
  Qfloor x = k.
Proof.
  intros Hk Hlo Hhi. apply RoundedFacts.Qfloor_unique.
  - assert (0 <= inject_Z k) as K0
      by (change 0 with (inject_Z 0); now rewrite <- Zle_Qle).
    unfold Rounded.eps in *. set (K := inject_Z k) in *. nra.
  - assert (0 <= inject_Z (k + 1)) as K0
      by (change 0 with (inject_Z 0); rewrite <- Zle_Qle; lia).
    unfold Rounded.eps in *. set (K := inject_Z (k + 1)) in *. nra.
Qed.

(** and also when computed by dividing by a rounded divisor and rounding
    the quotient. *)
Lemma scaled_index_rounded (x s s' : Q) (k : Z) :
  (0 <= k)%Z -> 0 < s ->
  s * (1 - Rounded.u) <= s' -> s' <= s * (1 + Rounded.u) ->
  inject_Z k * (1 + Rounded.eps) <= x ->
  x < inject_Z (k + 1) * (1 - Rounded.eps) ->
  Qfloor (Rounded.fl (x * s / s')) = k.
Proof.
  intros Hk Hs Hlo' Hhi' Hlo Hhi.
  assert (0 <= inject_Z k) as K0
    by (change 0 with (inject_Z 0); now rewrite <- Zle_Qle).
  assert (inject_Z (k + 1) == inject_Z k + 1) as K1
    by (rewrite inject_Z_plus; reflexivity).
  unfold Rounded.u, Rounded.eps in *.
  assert (0 < s') as Hs' by nra.
  assert (~ s' == 0) as Ns' by (intro E; rewrite E in Hs'; discriminate Hs').
  assert (x * s / s' * s' == x * s) as Ey by (field; exact Ns').
  set (y := x * s / s') in *.
  set (K := inject_Z k) in *.
  assert (0 <= x) as Hx by nra.
  assert (0 <= y) as Hy.
  { apply Qnot_lt_le. intro G. assert (0 <= x * s) by nra. nra. }
  apply RoundedFacts.Qfloor_unique; fold K.
  - (* K <= fl y *)
    destruct (Z.eq_dec k 0) as [->|Nk].
    + now apply RoundedFacts.fl_nonneg.
    + assert (1 <= K) as K1'.
      { unfold K. change 1 with (inject_Z 1). rewrite <- Zle_Qle. lia. }
      assert (K * (1 + (1 # 4503599627370496)) <= y) as Ylo.
      { apply Qnot_lt_le. intro G.
        assert (y * s' < K * (1 + (1 # 4503599627370496)) * s') as G1
          by (clear - G Hs'; nra).
        rewrite Ey in G1.
        assert (K * (1 + (1 # 1125899906842624)) * s <= x * s) as G2
          by (clear - Hlo Hs; nra).
        assert (K * (1 + (1 # 4503599627370496)) * s'
                <= K * (1 + (1 # 4503599627370496))
                   * (s * (1 + (1 # 9007199254740992)))) as G3
          by (clear - Hhi' K0; nra).
        assert (0 <= K * s) as P by (clear - K0 Hs; nra).
        clear - G1 G2 G3 P. nra. }
      destruct (RoundedFacts.fl_error y) as [E _].
      { apply Qle_trans with 1; [|lra].
        apply Qle_bool_iff. vm_compute. reflexivity. }
      unfold Rounded.u in E. clear - E Ylo K1'. nra.
  - (* fl y < K + 1 *)
    rewrite K1.
    set (top := (K + 1) * (1 - (1 # 2251799813685248))).
    assert (y <= top) as Yhi.
    { unfold top. apply Qnot_lt_le. intro G.
      assert ((K + 1) * (1 - (1 # 2251799813685248)) * s' < y * s') as G1
        by (clear - G Hs'; nra).
      rewrite Ey in G1. rewrite K1 in Hhi.
      assert (x * s <= (K + 1) * (1 - (1 # 1125899906842624)) * s) as G2
        by (clear - Hhi Hs; nra).
      assert ((K + 1) * (1 - (1 # 2251799813685248))
              * (s * (1 - (1 # 9007199254740992)))
              <= (K + 1) * (1 - (1 # 2251799813685248)) * s') as G3
        by (clear - Hlo' K0; nra).
      assert (0 < (K + 1) * s) as P by (clear - K0 Hs; nra).
      clear - G1 G2 G3 P. nra. }
    apply Qle_lt_trans with (Rounded.fl top);
      [now apply RoundedFacts.fl_monotone|].
    destruct (RoundedFacts.fl_error top) as [_ E].
    { apply Qle_trans with (1 # 2); [|unfold top; clear - K0; nra].
      apply Qle_bool_iff. vm_compute. reflexivity. }
    unfold Rounded.u, top in *. clear - E K0. nra.
Qed.

(** As binary64 computes it, for a track of duration d > 0 with n >= 1
    images, slides of s = d / n seconds: at every time at least a relative
    2^-50 past the start k s of slide k and before its end (k + 1) s, the
    current slide is slide k (the last one once k >= n - 1), as in exact
    arithmetic, and the next one is k + 1, or 0 on the last slide.  At a
    boundary itself rounding can keep the earlier slide: 9 seconds into
    an 18-second track with 14 images binary64 still shows slide 6, where
    exact arithmetic gives 7. *)
Theorem current_slide_away_from_boundaries (t d : Q) (n k : Z) :
  let s := d / inject_Z n in
  (1 <= n)%Z -> (0 <= k)%Z -> Rounded.small <= s ->
  inject_Z k * s * (1 + Rounded.eps) <= t ->
  t < inject_Z (k + 1) * s * (1 - Rounded.eps) ->
  Rounded.currentIndex t (Num d) n = Z.min k (n - 1)
  /\ currentIndex t (Num d) n = Z.min k (n - 1)
  /\ ((k < n - 1)%Z -> Rounded.nextIndex t (Num d) n = (k + 1)%Z)
  /\ ((n - 1 <= k)%Z -> Rounded.nextIndex t (Num d) n = 0%Z)
  /\ Rounded.currentIndex 9 (Num 18) 14 = 6%Z
  /\ currentIndex 9 (Num 18) 14 = 7%Z.
Proof.
  intros s Hn Hk Hs Hlo Hhi.
  assert (Rounded.currentIndex t (Num d) n = Z.min k (n - 1)
          /\ currentIndex t (Num d) n = Z.min k (n - 1)) as [HR HE].
  {
  assert (0 < s) as Spos by (unfold Rounded.small in Hs; lra).
  assert (0 < inject_Z n) as HN by (apply inject_Z_pos; exact Hn).
  assert (0 < d) as Hd.
  { apply Qnot_le_lt. intro G.
    assert (s * inject_Z n == d) as E
      by (unfold s; field; intro Z; rewrite Z in HN; discriminate HN).
    set (N := inject_Z n) in *. nra. }
  assert (~ s == 0) as Ns by (intro E; rewrite E in Spos; discriminate Spos).
  assert (t / s * s == t) as Ex by (field; exact Ns).
  set (x := t / s) in *.
  assert (inject_Z k * (1 + Rounded.eps) <= x) as Xlo.
  { apply Qnot_lt_le. intro G.
    assert (x * s < inject_Z k * (1 + Rounded.eps) * s) as G1
      by (set (K := inject_Z k * (1 + Rounded.eps)) in *; nra).
    rewrite Ex in G1. lra. }
  assert (x < inject_Z (k + 1) * (1 - Rounded.eps)) as Xhi.
  { apply Qnot_le_lt. intro G.
    assert (inject_Z (k + 1) * (1 - Rounded.eps) * s <= x * s) as G1
      by (set (K := inject_Z (k + 1) * (1 - Rounded.eps)) in *; nra).
    rewrite Ex in G1. lra. }
  split.
  - unfold Rounded.currentIndex, Rounded.slideDuration. cbn [gt0 finite].
    apply Qltb_true in Hd. rewrite Hd. fold s.
    destruct (RoundedFacts.fl_error s) as [L U];
      [apply Qle_trans with Rounded.small;
       [apply RoundedFacts.small_normal | exact Hs]|].
    assert (0 < Rounded.fl s) as Fpos by (unfold Rounded.u in L; nra).
    assert (t / Rounded.fl s == x * s / Rounded.fl s) as E.
    { rewrite Ex. reflexivity. }
    rewrite (Qfloor_comp _ _ (RoundedFacts.fl_comp _ _ E)).
    now rewrite (scaled_index_rounded x s (Rounded.fl s) k).
  - unfold currentIndex. rewrite (slideDuration_known d n Hd). fold s x.
    now rewrite (scaled_index_exact x k).
  }
  split; [exact HR|]. split; [exact HE|].
  split; [|split; [|split; vm_compute; reflexivity]].
  - intro Hlt. unfold Rounded.nextIndex. rewrite HR, Z.min_l by lia.
    apply Z.rem_small. lia.
  - intro Hge. unfold Rounded.nextIndex. rewrite HR, Z.min_r by lia.
    replace (n - 1 + 1)%Z with n by lia. apply Z.rem_same. lia.
Qed.

(** Ten seconds into the 18-second track with 14 images slide 7 is shown,
    in binary64 as in exact arithmetic. *)
Lemma current_slide_away_from_boundaries_witness :
  Rounded.currentIndex 10 (Num 18) 14 = 7%Z
  /\ currentIndex 10 (Num 18) 14 = 7%Z.
Proof.
  destruct (current_slide_away_from_boundaries 10 18 14 7)
    as (H1 & H2 & _);
    [lia | lia | vm_compute; discriminate | vm_compute; discriminate
    | vm_compute; reflexivity |].
  split; [exact H1 | exact H2].
Defined.

(** ** The fonts of a frame *)

Lemma fontsOf_app (l1 l2 : list CanvasCall) :
  fontsOf (l1 ++ l2) = fontsOf l1 ++ fontsOf l2.
Proof.
  induction l1 as [|call l1 IH]; [reflexivity|].
  destruct call; cbn [app fontsOf]; rewrite IH; reflexivity.
Qed.

Lemma fontsOf_bars (dataArray : list Z) (l : list Z) :
  fontsOf (flat_map (barCalls dataArray) l) = [].
Proof. induction l as [|i l IH]; [reflexivity | exact IH]. Qed.

(** The face chosen as mono shows in the title only.  A frame with at
    least one image at currentTime >= 0 selects the title font while
    currentTime < 4 and then the subtitle font, which for mono is the one
    of sans; so from 4 seconds on a frame drawn with mono is the frame
    drawn with sans, while before that the two differ, and serif differs
    from sans in every frame. *)
Theorem mono_shows_in_title_only (c : Component) (t : Q) (duration : number)
  (dataArray : list Z) :
  let frame := fun f => drawFrame (set_fontFamily f c) t duration dataArray in
  (1 <= Z.of_nat (List.length (imageBitmapsRef c)))%Z -> 0 <= t ->
  (forall f,
     fontsOf (events (frame f))
     = (if Qltb t 4 then ["bold 80px " ++ titleFace f]%string else [])
       ++ ["italic 30px " ++ subtitleFace f]%string)
  /\ (4 <= t -> frame mono = frame sans)
  /\ (t < 4 -> frame mono <> frame sans)
  /\ frame serif <> frame sans.
Proof.
  intros frame Hn Ht.
  assert (forall f,
     fontsOf (events (frame f))
     = (if Qltb t 4 then ["bold 80px " ++ titleFace f]%string else [])
       ++ ["italic 30px " ++ subtitleFace f]%string) as Hfonts.
  { intro f. subst frame. cbv beta.
    destruct (drawFrame_layers (set_fontFamily f c) t duration dataArray
                Hn Ht) as (current & next & _ & _ & ->).
    unfold events. cbn [fst]. rewrite !fontsOf_app.
    assert (fontsOf (backgroundCalls current next t duration
              (Z.of_nat (List.length (imageBitmapsRef (set_fontFamily f c)))))
            = []) as ->.
    { unfold backgroundCalls, imageCall.
      destruct (coverRect current WIDTH HEIGHT) as [[[? ?] ?] ?].
      destruct (coverRect next WIDTH HEIGHT) as [[[? ?] ?] ?].
      destruct (crossfading t duration _); reflexivity. }
    assert (fontsOf (visualizerCalls (analyserRef (set_fontFamily f c))
                       dataArray) = []) as ->.
    { unfold visualizerCalls. destruct (analyserRef _); [|reflexivity].
      cbn [fontsOf]. apply fontsOf_bars. }
    unfold titleCalls. destruct (Qltb t 4); reflexivity. }
  split; [exact Hfonts|]. split; [|split].
  - intro H4. apply Qltb_false in H4. subst frame. cbv beta.
    unfold drawFrame. cbn [set_fontFamily imageBitmapsRef config analyserRef
                            fontFamily title subtitle].
    rewrite H4. reflexivity.
  - intros H4 Heq. apply Qltb_true in H4.
    pose proof (Hfonts mono) as Hm. pose proof (Hfonts sans) as Hs.
    rewrite Heq, Hs, H4 in Hm. discriminate Hm.
  - intro Heq.
    pose proof (Hfonts serif) as Hm. pose proof (Hfonts sans) as Hs.
    rewrite Heq, Hs in Hm. destruct (Qltb t 4); discriminate Hm.
Qed.

Lemma mono_shows_in_title_only_witness :
  drawFrame (set_fontFamily mono (sampleComponent [landscape] None None))
    5 (Num 10) []
  = drawFrame (set_fontFamily sans (sampleComponent [landscape] None None))
      5 (Num 10) [].
Proof.
  destruct (mono_shows_in_title_only
              (sampleComponent [landscape] None None) 5 (Num 10) [])
    as (_ & H & _); [cbn; lia | discriminate |].
  apply H. discriminate.
Defined.

(** ** The bars as the two drivers draw them *)

Lemma getByteFrequencyData_length (a : AnalyserNode) (array : list Z) :
  List.length (getByteFrequencyData a array) = List.length array.
Proof.
  unfold getByteFrequencyData.
  rewrite length_app, length_firstn, length_skipn. lia.
Qed.

Lemma Forall_firstn_skipn {A} (P : A -> Prop) (n : nat) (l : list A) :
  Forall P l -> Forall P (firstn n l) /\ Forall P (skipn n l).
Proof.
  intro H. apply Forall_app. now rewrite firstn_skipn.
Qed.

Lemma getByteFrequencyData_bytes (a : AnalyserNode) (array : list Z) :
  Forall isByte (frequencyData a) -> Forall isByte array ->
  Forall isByte (getByteFrequencyData a array).
Proof.
  intros Hdata Harr. unfold getByteFrequencyData.
  apply Forall_app. split.
  - apply Forall_firstn_skipn. now apply Forall_firstn_skipn.
  - now apply Forall_firstn_skipn.
Qed.

Lemma new_Uint8Array_bytes (n : nat) : Forall isByte (new_Uint8Array n).
Proof.
  apply Forall_forall. intros v Hv. apply repeat_spec in Hv. subst v.
  unfold isByte. lia.
Qed.

Lemma bars_in_box (dataArray : list Z) :
  (40 <= List.length dataArray)%nat -> Forall isByte dataArray ->
  Forall barInBox
    (barsOf (flat_map (barCalls dataArray) (indices 0 barsToDraw))).
Proof.
  intros Hlen Hbytes. rewrite barsOf_loop. apply Forall_forall.
  intros bar Hbar. apply in_map_iff in Hbar as (i & <- & Hi).
  unfold indices in Hi. apply in_map_iff in Hi as (k & <- & Hk).
  apply in_seq in Hk. unfold barsToDraw in Hk. cbn [Z.add].
  destruct (nth_error dataArray k) as [v|] eqn:Hv.
  2:{ apply nth_error_None in Hv. lia. }
  assert (isByte v) as [Hv0 Hv1].
  { apply nth_error_In in Hv.
    exact (proj1 (Forall_forall _ _) Hbytes v Hv). }
  unfold barInBox, barHeight. rewrite array_get_nat, Hv.
  cbn [ToNumber ndiv nmul nsub].
  exists (inject_Z v / 255 * maxBarHeight).
  assert (0 <= inject_Z v) as Q0 by (change 0 with (inject_Z 0); now rewrite <- Zle_Qle).
  assert (inject_Z v <= 255) as Q1
    by (change 255 with (inject_Z 255); now rewrite <- Zle_Qle).
  assert (0 <= inject_Z (Z.of_nat k)) as K0
    by (change 0 with (inject_Z 0); rewrite <- Zle_Qle; lia).
  assert (inject_Z (Z.of_nat k) <= 39) as K1
    by (change 39 with (inject_Z 39); rewrite <- Zle_Qle; lia).
  unfold maxBarHeight, visualizerX, barWidth, gap, Qdiv.
  change (/ 255) with (1 # 255).
  repeat split; try reflexivity; lra.
Qed.

Lemma canvasCalls_app (l1 l2 : list BrowserEvent) :
  canvasCalls (l1 ++ l2) = canvasCalls l1 ++ canvasCalls l2.
Proof. apply flat_map_app. Qed.

Lemma canvasCalls_Canvas (calls : list CanvasCall) :
  canvasCalls (map Canvas calls) = calls.
Proof.
  induction calls as [|call calls IH]; [reflexivity|].
  cbn. f_equal. exact IH.
Qed.

Lemma drawFrame_completes (c : Component) (t : Q) (duration : number)
  (dataArray : list Z) :
  0 <= t -> outcome (drawFrame c t duration dataArray) = Normal tt.
Proof.
  intro Ht. destruct (imageBitmapsRef c) as [|b bs] eqn:Himgs.
  - now rewrite drawFrame_no_images.
  - destruct (drawFrame_layers c t duration dataArray)
      as (current & next & _ & _ & ->); [rewrite Himgs; cbn; lia | exact Ht |].
    reflexivity.
Qed.

(** What [animate] does once the canvas, its context and the audio are
    there. *)
Lemma animate_frame (c : Component) (canvas : HTMLCanvasElement)
  (audio : HTMLAudioElement) :
  canvasRef c = Some canvas -> context2d canvas = true ->
  audioRef c = Some audio -> 0 <= audio_currentTime audio ->
  let frame :=
    drawFrame c (audio_currentTime audio) (or_else (audio_duration audio) 1)
      (new_Uint8Array (match analyserRef c with
                       | Some analyser => frequencyBinCount analyser
                       | None => O
                       end)) in
  animate c
  = (map Canvas (events frame)
     ++ (if isPlaying c then [RequestAnimationFrame "animate"] else []),
     Normal tt).
Proof.
  intros Hcanvas Hctx Haudio Ht frame. unfold animate.
  rewrite Hcanvas, Haudio, Hctx. cbn [negb].
  fold frame. pose proof (drawFrame_completes c _
    (or_else (audio_duration audio) 1)
    (new_Uint8Array (match analyserRef c with
                     | Some analyser => frequencyBinCount analyser
                     | None => O
                     end)) Ht) as Hdone.
  fold frame in Hdone. unfold outcome, events in *.
  destruct frame as [calls r]. cbn [snd fst] in *. subst r.
  unfold on_canvas, bind. cbn [fst snd].
  destruct (isPlaying c); reflexivity.
Qed.

(** What [checkEnd] does while the audio has not ended. *)
Lemma checkEnd_frame (c : Component) (canvas : HTMLCanvasElement)
  (audio : HTMLAudioElement) :
  audio_ended audio = false -> 0 <= audio_currentTime audio ->
  checkEnd c canvas audio
  = ((if onExportProgress c && truthy (audio_duration audio)
      then [ExportProgress
              (audio_currentTime audio / finite (audio_duration audio) * 100)]
      else [])
     ++ [RequestAnimationFrame "checkEnd"]
     ++ (if context2d canvas then
           match analyserRef c with
           | Some analyser =>
               map Canvas
                 (events (drawFrame c (audio_currentTime audio)
                            (audio_duration audio)
                            (new_Uint8Array (frequencyBinCount analyser))))
           | None => []
           end
         else []),
     Normal tt).
Proof.
  intros Hended Ht. unfold checkEnd. rewrite Hended.
  destruct (context2d canvas); destruct (analyserRef c) as [a|];
    try (destruct (onExportProgress c && truthy (audio_duration audio));
         reflexivity).
  pose proof (drawFrame_completes c _ (audio_duration audio)
                (new_Uint8Array (frequencyBinCount a)) Ht) as Hdone.
  unfold outcome, events in *.
  destruct (drawFrame c _ _ _) as [calls r]. cbn [snd fst] in *. subst r.
  destruct (onExportProgress c && truthy (audio_duration audio));
    reflexivity.
Qed.

(** From the preview and from the export loop the 40 bars are always
    drawable.  With an analyser of at least 40 bins (the component makes
    it with 128) whose data are bytes, at least one image and an audio
    time >= 0, each frame that [animate] or [checkEnd] draws has exactly
    40 bars, each with a finite height between 0 and 150 that stands on
    the line y = 670, 6 wide, within x = 50 ... 368. *)
Theorem driver_bars_in_the_box (c : Component) (canvas : HTMLCanvasElement)
  (audio : HTMLAudioElement) (analyser : AnalyserNode) :
  canvasRef c = Some canvas -> context2d canvas = true ->
  audioRef c = Some audio -> analyserRef c = Some analyser ->
  (40 <= frequencyBinCount analyser)%nat ->
  Forall isByte (frequencyData analyser) ->
  (1 <= Z.of_nat (List.length (imageBitmapsRef c)))%Z ->
  0 <= audio_currentTime audio ->
  (List.length (barsOf (canvasCalls (events (animate c)))) = 40%nat
   /\ Forall barInBox (barsOf (canvasCalls (events (animate c)))))
  /\ (audio_ended audio = false ->
      List.length (barsOf (canvasCalls (events (checkEnd c canvas audio))))
      = 40%nat
      /\ Forall barInBox
           (barsOf (canvasCalls (events (checkEnd c canvas audio))))).
Proof.
  intros Hcanvas Hctx Haudio Han Hbins Hbytes Hn Ht.
  assert (forall duration,
            let bars := barsOf (events (drawFrame c (audio_currentTime audio)
                                  duration
                                  (new_Uint8Array (frequencyBinCount analyser))))
            in List.length bars = 40%nat /\ Forall barInBox bars) as Hframe.
  { intros duration bars. subst bars.
    rewrite (drawFrame_bars c _ duration _ Hn Ht), Han.
    cbn [visualizerCalls barsOf]. split.
    - rewrite barsOf_loop, length_map. unfold indices.
      now rewrite length_map, length_seq.
    - apply bars_in_box.
      + rewrite getByteFrequencyData_length. unfold new_Uint8Array.
        now rewrite repeat_length.
      + apply getByteFrequencyData_bytes;
          [exact Hbytes | apply new_Uint8Array_bytes]. }
  split.
  - rewrite (animate_frame c canvas audio Hcanvas Hctx Haudio Ht).
    unfold events at 1 3. cbn [fst]. rewrite Han.
    rewrite canvasCalls_app, canvasCalls_Canvas.
    assert (canvasCalls (if isPlaying c
                         then [RequestAnimationFrame "animate"] else []) = [])
      as -> by (destruct (isPlaying c); reflexivity).
    rewrite app_nil_r. apply Hframe.
  - intro Hended.
    rewrite (checkEnd_frame c canvas audio Hended Ht).
    unfold events at 1 3. cbn [fst]. rewrite Hctx, Han.
    rewrite !canvasCalls_app, canvasCalls_Canvas.
    assert (canvasCalls (if onExportProgress c && truthy (audio_duration audio)
                         then [ExportProgress
                                 (audio_currentTime audio
                                  / finite (audio_duration audio) * 100)]
                         else []) = []) as ->
      by (destruct (onExportProgress c && truthy (audio_duration audio));
          reflexivity).
    cbn [canvasCalls flat_map app]. apply Hframe.
Qed.

Lemma driver_bars_in_the_box_witness :
  Forall barInBox
    (barsOf (canvasCalls
               (events (animate
                          (sampleComponent [landscape] (Some fullLevel)
                             (Some (sampleAudio 3 (Num 10)))))))).
Proof.
  destruct (driver_bars_in_the_box
              (sampleComponent [landscape] (Some fullLevel)
                 (Some (sampleAudio 3 (Num 10))))
              {| context2d := true |} (sampleAudio 3 (Num 10)) fullLevel)
    as [[_ H] _]; try reflexivity.
  - cbn. lia.
  - apply Forall_forall. intros v Hv. apply repeat_spec in Hv. subst v.
    unfold isByte. lia.
  - discriminate.
  - exact H.
Defined.

(** ** One tick of the preview and of the export loop *)

Lemma events_pair {E A : Type} (evs : list E) (r : completion A) :
  events (evs, r) = evs.
Proof. reflexivity. Qed.

Lemma frameRequests_app (l1 l2 : list BrowserEvent) :
  frameRequests (l1 ++ l2) = (frameRequests l1 + frameRequests l2)%nat.
Proof. unfold frameRequests. now rewrite filter_app, length_app. Qed.

Lemma frameRequests_Canvas (calls : list CanvasCall) :
  frameRequests (map Canvas calls) = 0%nat.
Proof.
  induction calls as [|call calls IH]; [reflexivity | exact IH].
Qed.

Lemma progressReports_app (l1 l2 : list BrowserEvent) :
  progressReports (l1 ++ l2) = progressReports l1 ++ progressReports l2.
Proof. apply flat_map_app. Qed.

Lemma progressReports_Canvas (calls : list CanvasCall) :
  progressReports (map Canvas calls) = [].
Proof.
  induction calls as [|call calls IH]; [reflexivity | exact IH].
Qed.

(** The preview loop.  A tick of [animate] does nothing at all while the
    canvas, its 2D context or the audio element is missing, so the loop
    ends there.  Otherwise, for an audio time >= 0, it completes, it
    draws what [drawFrame] draws at the audio time with the duration
    [audio.duration || 1], and it asks for exactly one further frame when
    the [isPlaying] it was rendered with is true and for none when it is
    false. *)
Theorem preview_tick_rearms_while_playing (c : Component) :
  (canvasRef c = None \/ audioRef c = None
   \/ (exists canvas, canvasRef c = Some canvas /\ context2d canvas = false) ->
   animate c = ([], Normal tt))
  /\ (forall canvas audio,
        canvasRef c = Some canvas -> context2d canvas = true ->
        audioRef c = Some audio -> 0 <= audio_currentTime audio ->
        outcome (animate c) = Normal tt
        /\ frameRequests (events (animate c))
           = (if isPlaying c then 1 else 0)%nat
        /\ canvasCalls (events (animate c))
           = events (drawFrame c (audio_currentTime audio)
                       (or_else (audio_duration audio) 1)
                       (new_Uint8Array
                          (match analyserRef c with
                           | Some analyser => frequencyBinCount analyser
                           | None => O
                           end)))).
Proof.
  split.
  - intros [H|[H|(canvas & Hc & Hctx)]]; unfold animate.
    + now rewrite H.
    + rewrite H. now destruct (canvasRef c).
    + rewrite Hc, Hctx. now destruct (audioRef c).
  - intros canvas audio Hc Hctx Ha Ht.
    pose proof (animate_frame c canvas audio Hc Hctx Ha Ht) as Hframe.
    cbv zeta in Hframe.
    set (frame := drawFrame c _ _ _) in *. rewrite Hframe.
    rewrite !events_pair.
    split; [reflexivity|]. split.
    + rewrite frameRequests_app, frameRequests_Canvas.
      now destruct (isPlaying c).
    + rewrite canvasCalls_app, canvasCalls_Canvas.
      destruct (isPlaying c); cbn; apply app_nil_r.
Qed.

Lemma progress_in_percent (t d : Q) :
  0 < d -> 0 <= t -> t <= d -> 0 <= t / d * 100 /\ t / d * 100 <= 100.
Proof.
  intros Hd Ht Htd.
  assert (~ d == 0) as Nd
    by (intro E; rewrite E in Hd; now apply Qlt_irrefl in Hd).
  assert (t / d * d == t) as Hx by (field; exact Nd).
  set (x := t / d) in *. split; nra.
Qed.

Lemma progress_monotone (t t' d : Q) :
  0 < d -> t <= t' -> t / d * 100 <= t' / d * 100.
Proof.
  intros Hd Htt.
  assert (~ d == 0) as Nd
    by (intro E; rewrite E in Hd; now apply Qlt_irrefl in Hd).
  assert (t / d * d == t) as Hx by (field; exact Nd).
  assert (t' / d * d == t') as Hx' by (field; exact Nd).
  set (x := t / d) in *. set (x' := t' / d) in *. nra.
Qed.

(** The export loop.  On the tick that finds the audio ended, [checkEnd]
    stops the recorder and does nothing else: no frame is requested, so
    the loop ends, and no progress is reported, so 100 is reported only
    if the audio time reaches the duration before [ended] is set.  On
    every other tick (audio time >= 0) it completes, does not stop the
    recorder and requests exactly one further frame.  It reports progress
    only when a callback is given and the duration is neither NaN nor 0;
    for a duration d > 0 and an audio time in [0, d] the value reported is
    in [0, 100], and it does not decrease when the audio time grows. *)
Theorem export_tick_stops_or_rearms (c : Component)
  (canvas : HTMLCanvasElement) (audio : HTMLAudioElement) :
  let tick := checkEnd c canvas audio in
  (audio_ended audio = true -> tick = ([RecorderStop], Normal tt))
  /\ (audio_ended audio = false -> 0 <= audio_currentTime audio ->
      outcome tick = Normal tt
      /\ frameRequests (events tick) = 1%nat
      /\ ~ In RecorderStop (events tick)
      /\ progressReports (events tick)
         = if onExportProgress c && truthy (audio_duration audio)
           then [audio_currentTime audio / finite (audio_duration audio)
                 * 100]
           else [])
  /\ (forall d,
        audio_ended audio = false -> onExportProgress c = true ->
        audio_duration audio = Num d -> 0 < d ->
        0 <= audio_currentTime audio -> audio_currentTime audio <= d ->
        exists percent,
          progressReports (events tick) = [percent]
          /\ 0 <= percent /\ percent <= 100
          /\ forall later percent',
               audio_ended later = false ->
               audio_duration later = Num d ->
               audio_currentTime audio <= audio_currentTime later ->
               progressReports (events (checkEnd c canvas later))
               = [percent'] ->
               percent <= percent').
Proof.
  intro tick. subst tick.
  assert (forall a : HTMLAudioElement,
            audio_ended a = false -> 0 <= audio_currentTime a ->
            progressReports (events (checkEnd c canvas a))
            = if onExportProgress c && truthy (audio_duration a)
              then [audio_currentTime a / finite (audio_duration a) * 100]
              else []) as Hreports.
  { intros a Hended Ht. rewrite (checkEnd_frame c canvas a Hended Ht).
    unfold events. cbn [fst].
    rewrite !progressReports_app.
    assert (progressReports
              (if context2d canvas
               then match analyserRef c with
                    | Some analyser =>
                        map Canvas
                          (fst (drawFrame c (audio_currentTime a)
                                  (audio_duration a)
                                  (new_Uint8Array
                                     (frequencyBinCount analyser))))
                    | None => []
                    end
               else []) = []) as ->.
    { destruct (context2d canvas); [|reflexivity].
      destruct (analyserRef c); [apply progressReports_Canvas|reflexivity]. }
    destruct (onExportProgress c && truthy (audio_duration a)); reflexivity. }
  split; [|split].
  - intro Hended. unfold checkEnd. now rewrite Hended.
  - intros Hended Ht. split; [|split; [|split]].
    + now rewrite (checkEnd_frame c canvas audio Hended Ht).
    + rewrite (checkEnd_frame c canvas audio Hended Ht).
      unfold events. cbn [fst].
      rewrite !frameRequests_app.
      assert (forall l, frameRequests
                (if context2d canvas
                 then match analyserRef c with
                      | Some analyser => map Canvas (l analyser)
                      | None => []
                      end
                 else []) = 0%nat) as Hcanvas.
      { intro l. destruct (context2d canvas); [|reflexivity].
        destruct (analyserRef c); [apply frameRequests_Canvas|reflexivity]. }
      rewrite (Hcanvas (fun analyser =>
                 fst (drawFrame c (audio_currentTime audio)
                        (audio_duration audio)
                        (new_Uint8Array (frequencyBinCount analyser))))).
      destruct (onExportProgress c && truthy (audio_duration audio));
        reflexivity.
    + rewrite (checkEnd_frame c canvas audio Hended Ht).
      unfold events. cbn [fst]. intro Hin.
      apply in_app_or in Hin as [Hin|Hin].
      { destruct (onExportProgress c && truthy (audio_duration audio));
          cbn in Hin; intuition discriminate. }
      apply in_app_or in Hin as [Hin|Hin].
      { cbn in Hin. intuition discriminate. }
      destruct (context2d canvas); [|exact Hin].
      destruct (analyserRef c); [|exact Hin].
      apply in_map_iff in Hin as (call & Hcall & _). discriminate Hcall.
    + now apply Hreports.
  - intros d Hended Hcb Hd Hpos Ht Htd.
    exists (audio_currentTime audio / d * 100).
    assert (truthy (Num d) = true) as Htruthy.
    { cbn. destruct (Qeq_bool d 0) eqn:E; [|reflexivity].
      apply Qeq_bool_iff in E. rewrite E in Hpos.
      now apply Qlt_irrefl in Hpos. }
    split; [|split; [|split]].
    + rewrite (Hreports audio Hended Ht), Hcb, Hd, Htruthy. reflexivity.
    + now apply progress_in_percent.
    + now apply progress_in_percent.
    + intros later percent' Hended' Hd' Hlater Hrep.
      assert (0 <= audio_currentTime later) as Ht'
        by (apply Qle_trans with (audio_currentTime audio); assumption).
      rewrite (Hreports later Hended' Ht'), Hcb, Hd', Htruthy in Hrep.
      injection Hrep as <-. cbn [finite]. now apply progress_monotone.
Qed.

(** ** What [startExport] resolves and rejects with *)

Lemma startExportThen_started (p : Platform) (c : Component) :
  startExportThen (Normal tt) (ret tt) p c = startExport p c.
Proof.
  unfold startExportThen, startExport.
  destruct (canvasRef c) as [canvas|]; [|reflexivity].
  destruct (audioRef c) as [audio|]; [|reflexivity].
  destruct (requestRef c) as [[|id]|]; destruct (audioTracks p) as [[|k]|];
    destruct (recorderAccepts p (chooseMimeType p));
    destruct (recorderDefault p);
    destruct (playRejection p) as [e|]; reflexivity.
Qed.

(** When the promise of [startExport] is rejected.  With the callback of
    [audio.play()] spelled out, it is rejected in exactly these
    situations: the canvas or the audio element is missing; the recorder
    can be constructed neither for the chosen container nor without one;
    [audio.play()] is refused; [recorder.start()] throws; the first run of
    [checkEnd] throws.  When [play()] is refused the canvas has been
    captured, the refusal is logged and passed on as it is, and
    [recorder.start()] is never called; when [recorder.start()] throws,
    that error is logged under the same label and passed on, and no
    frame of the export loop runs. *)
Theorem startExport_rejects_exactly_when (start : completion unit)
  (firstTick : Eff BrowserEvent unit) (p : Platform) (c : Component) :
  let export := startExportThen start firstTick p c in
  ((exists e, outcome export = Throw e) <->
   canvasRef c = None \/ audioRef c = None
   \/ (recorderAccepts p (chooseMimeType p) = false
       /\ recorderDefault p = false)
   \/ playRejection p <> None
   \/ (exists e, start = Throw e)
   \/ (exists e, outcome firstTick = Throw e))
  /\ (forall e,
        canvasRef c <> None -> audioRef c <> None ->
        (recorderAccepts p (chooseMimeType p) = true
         \/ recorderDefault p = true) ->
        playRejection p = Some e ->
        outcome export = Throw e
        /\ In (CanvasCaptureStream 30) (events export)
        /\ In AudioPlay (events export)
        /\ In (ConsoleError "Export Play Error:") (events export)
        /\ ~ In RecorderStart (events export))
  /\ (forall e,
        canvasRef c <> None -> audioRef c <> None ->
        (recorderAccepts p (chooseMimeType p) = true
         \/ recorderDefault p = true) ->
        playRejection p = None -> start = Throw e ->
        outcome export = Throw e
        /\ In RecorderStart (events export)
        /\ In (ConsoleError "Export Play Error:") (events export)
        /\ frameRequests (events export) = 0%nat).
Proof.
  intro export. subst export.
  destruct firstTick as [tickEvents tickOutcome].
  split; [|split].
  - unfold startExportThen, outcome.
    destruct (canvasRef c) as [canvas|];
      [|split; [intros _; now left | intros _; now eexists]].
    destruct (audioRef c) as [audio|];
      [|split; [intros _; right; now left | intros _; now eexists]].
    destruct (requestRef c) as [[|id]|]; destruct (audioTracks p) as [[|k]|];
      destruct (recorderAccepts p (chooseMimeType p));
      destruct (recorderDefault p);
      destruct (playRejection p) as [e|];
      destruct start as [[]|e0]; destruct tickOutcome as [[]|e1]; cbn;
      (split;
       [ intros [e' He'];
         first [ discriminate He'
               | right; right; left; split; reflexivity
               | right; right; right; left; discriminate
               | right; right; right; right; left; eexists; reflexivity
               | right; right; right; right; right; eexists; reflexivity ]
       | intros [H|[H|[[H1 H2]|[H|[[e' H]|[e' H]]]]]];
         first [ discriminate H | discriminate H1 | discriminate H2
               | exfalso; apply H; reflexivity
               | eexists; reflexivity ] ]).
  - intros e Hc Ha Hrec Hplay. unfold startExportThen, outcome, events.
    destruct (canvasRef c) as [canvas|]; [|contradiction].
    destruct (audioRef c) as [audio|]; [|contradiction].
    rewrite Hplay.
    destruct (requestRef c) as [[|id]|]; destruct (audioTracks p) as [[|k]|];
      destruct (recorderAccepts p (chooseMimeType p));
      destruct (recorderDefault p);
      try (destruct Hrec as [Hrec|Hrec]; discriminate Hrec);
      (split; [reflexivity|]);
      (split; [find_event|]); (split; [find_event|]);
      (split; [find_event|]);
      cbn; intuition discriminate.
  - intros e Hc Ha Hrec Hplay Hstart. unfold startExportThen, outcome, events.
    destruct (canvasRef c) as [canvas|]; [|contradiction].
    destruct (audioRef c) as [audio|]; [|contradiction].
    rewrite Hplay, Hstart.
    destruct (requestRef c) as [[|id]|]; destruct (audioTracks p) as [[|k]|];
      destruct (recorderAccepts p (chooseMimeType p));
      destruct (recorderDefault p);
      try (destruct Hrec as [Hrec|Hrec]; discriminate Hrec);
      (split; [reflexivity|]);
      (split; [find_event|]); (split; [find_event|]);
      reflexivity.
Qed.

(** ** The recorded blob *)

Lemma fold_ondataavailable (datas chunks : list Blob) :
  fold_left ondataavailable datas chunks
  = chunks ++ filter (fun data => Nat.ltb 0 (blob_size data)) datas.
Proof.
  revert chunks. induction datas as [|data datas IH]; intro chunks.
  - cbn. now rewrite app_nil_r.
  - cbn [fold_left filter]. rewrite IH. unfold ondataavailable.
    destruct (Nat.ltb 0 (blob_size data)); [|reflexivity].
    now rewrite <- app_assoc.
Qed.

Lemma flat_map_nonempty_bytes (datas : list Blob) :
  flat_map blob_bytes
    (filter (fun data => Nat.ltb 0 (blob_size data)) datas)
  = flat_map blob_bytes datas.
Proof.
  induction datas as [|data datas IH]; [reflexivity|].
  cbn [filter]. destruct (Nat.ltb 0 (blob_size data)) eqn:Hsize.
  - cbn [flat_map]. now rewrite IH.
  - apply Nat.ltb_ge in Hsize. unfold blob_size in Hsize.
    assert (blob_bytes data = []) as Hempty
      by (destruct (blob_bytes data); [reflexivity | cbn in Hsize; lia]).
    cbn [flat_map]. rewrite Hempty. exact IH.
Qed.

(** What an export resolves with.  When [startExport] gets as far as
    recording, the blob it resolves with when the recorder stops holds
    the bytes of everything the recorder delivered, in the order of
    delivery: dropping the empty deliveries loses nothing.  Its type is
    the container chosen with [isTypeSupported], also when the recorder
    refused that container and was constructed without one, in which
    case the type says nothing about what the recorder wrote.  Stopping
    pauses and rewinds the audio. *)
Theorem exported_blob_holds_all_data (p : Platform) (c : Component)
  (datas : list Blob) (mimeType : string) :
  outcome (startExport p c) = Normal mimeType ->
  mimeType = chooseMimeType p
  /\ (recorderAccepts p mimeType = false ->
      In (NewMediaRecorder None) (events (startExport p c))
      /\ ~ In (NewMediaRecorder (Some mimeType)) (events (startExport p c)))
  /\ exists blob,
       onstop (collected datas) mimeType
       = ([AudioPause; AudioSetCurrentTime 0], Normal blob)
       /\ blob_type blob = chooseMimeType p
       /\ blob_bytes blob = flat_map blob_bytes datas
       /\ Forall (fun chunk => (0 < blob_size chunk)%nat) (collected datas).
Proof.
  intro Hout.
  assert (mimeType = chooseMimeType p) as Hm.
  { revert Hout. unfold startExport, outcome.
    destruct (canvasRef c) as [canvas|]; [|discriminate].
    destruct (audioRef c) as [audio|]; [|discriminate].
    destruct (requestRef c) as [[|id]|]; destruct (audioTracks p) as [[|k]|];
      destruct (recorderAccepts p (chooseMimeType p));
      destruct (recorderDefault p);
      destruct (playRejection p) as [e|]; cbn;
      intro H; first [discriminate H | now injection H]. }
  split; [exact Hm|]. split.
  - intro Hrec. rewrite Hm in Hrec. revert Hout.
    unfold startExport, outcome, events.
    destruct (canvasRef c) as [canvas|]; [|discriminate].
    destruct (audioRef c) as [audio|]; [|discriminate].
    rewrite Hrec.
    destruct (requestRef c) as [[|id]|]; destruct (audioTracks p) as [[|k]|];
      destruct (recorderDefault p);
      destruct (playRejection p) as [e|]; cbn;
      intro H; try discriminate H;
      (split; [find_event | intuition discriminate]).
  - exists (new_Blob (collected datas) mimeType).
    split; [reflexivity|]. split; [exact Hm|]. split.
    + unfold new_Blob, collected. cbn [blob_bytes].
      rewrite fold_ondataavailable. cbn [app].
      apply flat_map_nonempty_bytes.
    + unfold collected. rewrite fold_ondataavailable. cbn [app].
      apply Forall_forall. intros chunk Hin.
      apply filter_In in Hin as [_ Hsize]. now apply Nat.ltb_lt in Hsize.
Qed.

Lemma exported_blob_holds_all_data_witness :
  exists blob,
    onstop (collected [ {| blob_bytes := [26; 69]%Z; blob_type := "" |};
                        {| blob_bytes := []; blob_type := "" |};
                        {| blob_bytes := [223]%Z; blob_type := "" |} ])
      "video/webm;codecs=vp9"
    = ([AudioPause; AudioSetCurrentTime 0], Normal blob)
    /\ blob_type blob = chooseMimeType safari
    /\ blob_bytes blob = [26; 69; 223]%Z.
Proof.
  destruct (exported_blob_holds_all_data safari
              (sampleComponent [landscape] (Some silence)
                 (Some (sampleAudio 0 (Num 10))))
              [ {| blob_bytes := [26; 69]%Z; blob_type := "" |};
                {| blob_bytes := []; blob_type := "" |};
                {| blob_bytes := [223]%Z; blob_type := "" |} ]
              "video/webm;codecs=vp9" eq_refl)
    as (_ & _ & blob & Hstop & Htype & Hbytes & _).
  exists blob. repeat split; assumption.
Defined.

(** ** The page: what holds after every event *)

Module AppFacts.
Import App.

Lemma exportsPending_app (ks ks' : list Pending) :
  exportsPending (ks ++ ks')
  = (exportsPending ks + exportsPending ks')%nat.
Proof. unfold exportsPending. now rewrite filter_app, length_app. Qed.

Lemma exportsPending_Removed (k : Pending) (ks ks' : list Pending) :
  Removed k ks ks' ->
  exportsPending ks
  = ((if exportPending k then 1 else 0) + exportsPending ks')%nat.
Proof.
  induction 1 as [k rest|k k' rest rest' _ IH].
  - unfold exportsPending. cbn [filter].
    destruct (exportPending k); reflexivity.
  - unfold exportsPending in *. cbn [filter].
    destruct (exportPending k'), (exportPending k);
      cbn [List.length] in *; lia.
Qed.

Lemma Removed_In (k : Pending) (ks ks' : list Pending) :
  Removed k ks ks' -> In k ks.
Proof.
  induction 1; [now left | now right].
Qed.

Lemma Removed_incl (k k0 : Pending) (ks ks' : list Pending) :
  Removed k ks ks' -> In k0 ks' -> In k0 ks.
Proof.
  induction 1 as [k rest|k k' rest rest' _ IH]; intro Hin.
  - now right.
  - destruct Hin as [<-|Hin]; [now left | right; now apply IH].
Qed.

Lemma Removed_last (k : Pending) (ks : list Pending) :
  Removed k (ks ++ [k]) ks.
Proof.
  induction ks as [|k' ks IH]; cbn; constructor. exact IH.
Qed.

Lemma recordingPending_Removed (k : Pending) (ks ks' : list Pending) :
  Removed k ks ks' ->
  existsb recordingPending ks' = true -> existsb recordingPending ks = true.
Proof.
  intros Hrem Hex. apply existsb_exists in Hex as (k0 & Hin & Hk0).
  apply existsb_exists. exists k0. split; [|exact Hk0].
  exact (Removed_incl _ _ _ _ Hrem Hin).
Qed.

Lemma recordingPending_In (k : Pending) (ks : list Pending) :
  In k ks -> recordingPending k = true ->
  existsb recordingPending ks = true.
Proof.
  intros Hin Hk. apply existsb_exists. now exists k.
Qed.

Lemma exportsPending_In (k : Pending) (ks : list Pending) :
  In k ks -> exportPending k = true -> (1 <= exportsPending ks)%nat.
Proof.
  intros Hin Hk. unfold exportsPending.
  assert (In k (filter exportPending ks)) as Hf
    by (apply filter_In; now split).
  destruct (filter exportPending ks); [destruct Hf | cbn; lia].
Qed.

Lemma audioAnalysed_frame (analysis : json) (s s' : State) :
  audioAnalysed analysis s = Normal s' ->
  step s' = step s /\ images (config s') = images (config s)
  /\ audio (config s') = audio (config s)
  /\ title (config s') = title (config s)
  /\ isPlaying s' = isPlaying s /\ isProcessing s' = isProcessing s
  /\ result s' = result s /\ resultBlob s' = resultBlob s
  /\ user s' = user s.
Proof.
  unfold audioAnalysed.
  destruct (getProp analysis "font") as [font|e]; [|discriminate].
  destruct (if truthyAny (subtitle (config s)) then _ else _) as [sub|e];
    [|discriminate].
  intro H. injection H as <-. repeat split.
Qed.

Lemma metadataGenerated_frame (meta : json) (s s' : State) :
  metadataGenerated meta s = Normal s' ->
  step s' = step s /\ config s' = config s
  /\ isPlaying s' = isPlaying s /\ isProcessing s' = isProcessing s
  /\ resultBlob s' = resultBlob s /\ user s' = user s
  /\ exists r, result s' = Some r /\ videoUrl r = prevVideoUrl (result s).
Proof.
  unfold metadataGenerated.
  destruct (getProp meta "description") as [d|e]; [|discriminate].
  destruct (getProp meta "hashtags") as [h|e]; [|discriminate].
  intro H. injection H as <-. repeat split. eexists. split; reflexivity.
Qed.

Lemma exportMetadata_frame (meta : json) (s s' : State)
  (more : list Pending) :
  exportMetadata meta s = Normal (s', more) ->
  more = [AwaitExportTimer]
  /\ step s' = step s /\ config s' = config s
  /\ isPlaying s' = isPlaying s /\ isProcessing s' = isProcessing s
  /\ resultBlob s' = resultBlob s /\ user s' = user s
  /\ result s' <> None.
Proof.
  unfold exportMetadata.
  destruct (getProp meta "description") as [d|e]; [|discriminate].
  destruct (getProp meta "hashtags") as [h|e]; [|discriminate].
  intro H. injection H as <- <-. repeat split. discriminate.
Qed.

Ltac page_simpl :=
  unfold hasAssets, handleLogin, handleImageUpload, handleAudioUpload,
    handleGenerateMetadata, handleExport, exportTimer, exportSettled,
    editorMounted, nextEnabled in *;
  cbn [fst snd step user config isPlaying isProcessing exportProgress result
       resultBlob isGeminiLoading setStep setUser setConfig setIsPlaying
       setIsProcessing setExportProgress setResult setResultBlob
       setIsGeminiLoading title subtitle fontFamily images audio withTitle
       withSubtitle withFontFamily withImages withAudio videoUrl
       videoDescription hashtags exportsPending filter exportPending
       existsb recordingPending orb List.length Nat.add] in *.

Ltac page_solve :=
  repeat match goal with
         | |- _ /\ _ => split
         | |- _ <-> _ => split
         | |- _ -> _ => intro
         end;
  try solve [ congruence | lia | tauto | discriminate
            | intuition (first [congruence | lia | discriminate])
            | eauto ].

Lemma Step_wellFormed (x y : State * list Pending) :
  wellFormed x -> Step x y -> wellFormed y.
Proof.
  intros (Hassets & Hone & Hproc & Hplay & Hflag & Hrec & Hdone) Hstep.
  unfold wellFormed.
  inversion Hstep; subst; cbn [fst snd] in *;
    rewrite ?exportsPending_app, ?existsb_app.
  - (* ClickLogin *) page_simpl. page_solve.
  - (* PickImages *) destruct files as [fs|]; page_simpl; page_solve.
  - (* PickAudio *)
    destruct files as [[|file fs]|]; page_simpl;
      rewrite ?Nat.add_0_r, ?orb_false_r; page_solve.
  - (* ClickNext *)
    page_simpl.
    destruct (audio (config s)) eqn:Ha; [|discriminate].
    destruct (images (config s)) eqn:Hi; [discriminate|].
    page_solve.
  - (* TypeTitle *) page_simpl. page_solve.
  - (* TypeSubtitle *) page_simpl. page_solve.
  - (* PickFont *) page_simpl. page_solve.
  - (* ClickWand *)
    page_simpl. destruct (String.eqb (title (config s)) ""); page_simpl;
      rewrite ?Nat.add_0_r, ?orb_false_r; page_solve.
  - (* TogglePlay *) page_simpl. page_solve.
  - (* ClickExport *)
    assert (exportsPending ks = 0%nat) as Hnone.
    { destruct (exportsPending ks) as [|[|n]]; [reflexivity| |lia].
      specialize (Hproc eq_refl). congruence. }
    rewrite Hnone.
    page_simpl. unfold hasDescription.
    destruct (result s) as [prev|] eqn:Hres;
      [destruct (truthyAny (videoDescription prev))|];
      page_simpl; rewrite ?orb_false_r; page_solve.
  - (* VisualizerEnded *) page_simpl. page_solve.
  - (* VisualizerProgress *) page_simpl. page_solve.
  - (* ClickBack *) page_simpl. page_solve.
  - (* ClickPublish *) page_simpl. page_solve.
  - (* AnalysisSettled *)
    pose proof (recordingPending_Removed _ _ _ H) as Hsub.
    apply exportsPending_Removed in H. cbn [exportPending Nat.add] in H.
    apply audioAnalysed_frame in H0
      as (Es & Ei & Ea & _ & Ep & Ef & Er & Eb & _).
    unfold hasAssets in *. rewrite Es, Ei, Ea, Ep, Ef, Er, Eb, <- H.
    page_solve.
  - (* MetadataSettled *)
    apply exportsPending_Removed in H. cbn [exportPending Nat.add] in H.
    apply metadataGenerated_frame in H0
      as (Es & Ec & Ep & Ef & Eb & _ & r' & Er & Eurl).
    unfold hasAssets in *. rewrite Es, Ec, Ep, Ef, Eb, Er, <- H.
    page_solve.
  - (* ExportMetadataSettled *)
    pose proof (recordingPending_Removed _ _ _ H) as Hsub.
    apply exportsPending_Removed in H. cbn [exportPending] in H.
    destruct (exportMetadata meta s) as [[s' more]|e] eqn:Hmeta;
      cbn [fst snd].
    + apply exportMetadata_frame in Hmeta
        as (-> & Es & Ec & Ep & Ef & Eb & _ & Er).
      rewrite exportsPending_app. page_simpl.
      rewrite Es, Ec, Ep, Ef, Eb.
      assert (step s = PROCESSING) by (apply Hproc; lia).
      page_solve.
    + page_solve.
  - (* ExportTimerFired *)
    pose proof (recordingPending_In _ _ (Removed_In _ _ _ H) eq_refl)
      as Hin.
    apply exportsPending_Removed in H. cbn [exportPending] in H.
    assert (step s = PROCESSING) as Hs by (apply Hproc; lia).
    page_simpl. rewrite Hs. page_simpl.
    page_solve.
  - (* ExportSettled *)
    pose proof (recordingPending_Removed _ _ _ H) as Hsub.
    apply exportsPending_Removed in H. cbn [exportPending] in H.
    assert (step s = PROCESSING) as Hs by (apply Hproc; lia).
    assert (hasAssets s) as Has
      by (destruct Hassets as [E|[E|E]]; [congruence | congruence | exact E]).
    destruct settled as [blob|e]; page_simpl; page_solve.
Qed.

Lemma Reachable_wellFormed (x : State * list Pending) :
  Reachable x -> wellFormed x.
Proof.
  induction 1 as [|x y _ IH Hstep].
  - unfold wellFormed. cbn. repeat split; try discriminate; auto; lia.
  - exact (Step_wellFormed x y IH Hstep).
Qed.

End AppFacts.

(** ** The rest of [geminiService.ts] *)

Lemma generateVideoMetadata_logged
  (generateContent : GoogleGenAI -> GenerateContentParameters ->
                     completion GenerateContentResponse)
  (JSON_parse : option string -> completion json)
  (env : ProcessEnv) (title subtitle : string) :
  events (generateVideoMetadata generateContent JSON_parse env title subtitle)
  <> [] ->
  outcome (generateVideoMetadata generateContent JSON_parse env title
             subtitle)
  = Normal (metadataFallback title).
Proof.
  unfold generateVideoMetadata, outcome, events, of_completion.
  destruct (getAiClient env) as [ai|e]; cbn; [|reflexivity].
  destruct (generateContent ai (metadataRequest title subtitle))
    as [response|e]; cbn; [|reflexivity].
  destruct (JSON_parse (text response)) as [value|e]; cbn;
    [intro H; now contradiction H | reflexivity].
Qed.

Lemma analyzeMoodAndSuggestFont_logged
  (generateContent : GoogleGenAI -> GenerateContentParameters ->
                     completion GenerateContentResponse)
  (JSON_parse : option string -> completion json)
  (env : ProcessEnv) (audioFileName : string) :
  events (analyzeMoodAndSuggestFont generateContent JSON_parse env
            audioFileName) <> [] ->
  outcome (analyzeMoodAndSuggestFont generateContent JSON_parse env
             audioFileName)
  = Normal moodFallback.
Proof.
  unfold analyzeMoodAndSuggestFont, outcome, events, of_completion.
  destruct (getAiClient env) as [ai|e]; cbn; [|reflexivity].
  destruct (generateContent ai (moodRequest audioFileName))
    as [response|e]; cbn; [|reflexivity].
  destruct (JSON_parse (text response)) as [value|e]; cbn;
    [intro H; now contradiction H | reflexivity].
Qed.

(** [analyzeMoodAndSuggestFont] never rejects.  When the client can be
    made, the request is answered and the answer parses, it returns what
    the parser gave, unchecked and without writing to the console; when
    any of the three fails, it logs that error once under
    "Gemini Analysis Error:" and returns the font "sans" with the
    subtitle "Music & Vibes". *)
Theorem mood_analysis_never_rejects
  (generateContent : GoogleGenAI -> GenerateContentParameters ->
                     completion GenerateContentResponse)
  (JSON_parse : option string -> completion json)
  (env : ProcessEnv) (audioFileName : string) :
  let answer :=
    analyzeMoodAndSuggestFont generateContent JSON_parse env audioFileName in
  (exists value, outcome answer = Normal value)
  /\ (forall ai response value,
        getAiClient env = Normal ai ->
        generateContent ai (moodRequest audioFileName) = Normal response ->
        JSON_parse (text response) = Normal value ->
        answer = ([], Normal value))
  /\ (forall e,
        getAiClient env = Throw e
        \/ (exists ai, getAiClient env = Normal ai
                       /\ generateContent ai (moodRequest audioFileName)
                          = Throw e)
        \/ (exists ai response,
              getAiClient env = Normal ai
              /\ generateContent ai (moodRequest audioFileName)
                 = Normal response
              /\ JSON_parse (text response) = Throw e) ->
        answer = ([console_error "Gemini Analysis Error:" e],
                  Normal moodFallback)).
Proof.
  intro answer. subst answer.
  unfold analyzeMoodAndSuggestFont, outcome, of_completion.
  split; [|split].
  - destruct (getAiClient env) as [ai|e]; cbn; [|eauto].
    destruct (generateContent ai (moodRequest audioFileName))
      as [response|e]; cbn; [|eauto].
    destruct (JSON_parse (text response)) as [value|e]; cbn; eauto.
  - intros ai response value -> Hresponse Hvalue. cbn.
    rewrite Hresponse. cbn. rewrite Hvalue. reflexivity.
  - intros e [->|[(ai & -> & Hresponse)|(ai & response & -> & Hresponse & Hvalue)]];
      cbn; [reflexivity | |].
    + rewrite Hresponse. reflexivity.
    + rewrite Hresponse. cbn. rewrite Hvalue. reflexivity.
Qed.

(** Without an API key ([process.env.API_KEY] undefined or empty) neither
    function sends a request: whatever the service and the parser would
    do, each logs Error("API_KEY is missing") and returns its fallback. *)
Theorem no_api_key_no_request
  (generateContent : GoogleGenAI -> GenerateContentParameters ->
                     completion GenerateContentResponse)
  (JSON_parse : option string -> completion json)
  (env : ProcessEnv) (title subtitle audioFileName : string) :
  API_KEY env = None \/ API_KEY env = Some ""%string ->
  generateVideoMetadata generateContent JSON_parse env title subtitle
  = ([console_error "Gemini Metadata Error:" (Error "API_KEY is missing")],
     Normal (metadataFallback title))
  /\ analyzeMoodAndSuggestFont generateContent JSON_parse env audioFileName
     = ([console_error "Gemini Analysis Error:" (Error "API_KEY is missing")],
        Normal moodFallback).
Proof.
  intro Hkey.
  assert (getAiClient env = Throw (Error "API_KEY is missing")) as Hclient
    by (unfold getAiClient; destruct Hkey as [-> | ->]; reflexivity).
  unfold generateVideoMetadata, analyzeMoodAndSuggestFont.
  rewrite Hclient. split; reflexivity.
Qed.

Lemma no_api_key_no_request_witness :
  generateVideoMetadata
    (fun _ _ => Normal {| text := Some "{}"%string |})
    (fun _ => Normal (JObject []))
    {| API_KEY := None |} "Summer Vibes" "Artist Name"
  = ([console_error "Gemini Metadata Error:" (Error "API_KEY is missing")],
     Normal (metadataFallback "Summer Vibes")).
Proof.
  apply (no_api_key_no_request
           (fun _ _ => Normal {| text := Some "{}"%string |})
           (fun _ => Normal (JObject []))
           {| API_KEY := None |} "Summer Vibes" "Artist Name" "song.mp3").
  left. reflexivity.
Defined.

(** ** The page *)

Import App.
Import AppFacts.

Lemma pickedAssets_reachable :
  Reachable (pickedAssets, [AwaitAnalysis "song.mp3"]).
Proof.
  apply (Reachable_step
           (handleImageUpload (Some ["a.jpg"; "b.jpg"]%string)
              (handleLogin init), [])).
  - apply (Reachable_step (handleLogin init, [])).
    + apply (Reachable_step (init, [])); [constructor|].
      apply ClickLogin. reflexivity.
    + apply PickImages. reflexivity.
  - exact (PickAudio (Some ["song.mp3"%string])
             (handleImageUpload (Some ["a.jpg"; "b.jpg"]%string)
                (handleLogin init)) [] eq_refl).
Defined.

Lemma sampleEditor_reachable :
  Reachable (sampleEditor, []).
Proof.
  apply (Reachable_step
           (match audioAnalysed moodFallback pickedAssets with
            | Normal s => s
            | Throw _ => pickedAssets
            end, [])).
  - apply (Reachable_step (pickedAssets, [AwaitAnalysis "song.mp3"]));
      [exact pickedAssets_reachable|].
    apply (AnalysisSettled "song.mp3" moodFallback); [constructor|].
    reflexivity.
  - apply ClickNext; reflexivity.
Defined.

Lemma sampleExporting_reachable :
  Reachable sampleExporting.
Proof.
  apply (Reachable_step (sampleEditor, []));
    [exact sampleEditor_reachable|].
  exact (ClickExport sampleEditor [] eq_refl).
Defined.

(** The editor, the export and the result page are never reached without
    an audio file and at least one photo: the disabled [Next: Editor]
    button is the only way in, and no event removes an asset.  So
    [startExport], which does not look at the images, is never called
    with none chosen. *)
Theorem editor_never_without_assets (s : State) (ks : list Pending) :
  Reachable (s, ks) ->
  step s = EDITOR \/ step s = PROCESSING \/ step s = DONE ->
  audio (config s) <> None /\ images (config s) <> [].
Proof.
  intros Hreach Hstep.
  destruct (Reachable_wellFormed _ Hreach) as (Hassets & _).
  cbn [fst] in Hassets.
  destruct Hassets as [E|[E|E]]; [| |exact E];
    destruct Hstep as [E'|[E'|E']]; congruence.
Qed.

Lemma editor_never_without_assets_witness :
  audio (config (fst sampleExporting)) <> None
  /\ images (config (fst sampleExporting)) <> [].
Proof.
  apply (editor_never_without_assets (fst sampleExporting)
           (snd sampleExporting) sampleExporting_reachable).
  right. left. reflexivity.
Defined.

(** At most one export is under way at any time, and the page shows
    PROCESSING for as long as one is; the [isProcessing] cell is true
    exactly in PROCESSING; and the preview is not playing during
    PROCESSING. *)
Theorem one_export_at_a_time (s : State) (ks : list Pending) :
  Reachable (s, ks) ->
  (exportsPending ks <= 1)%nat
  /\ (exportsPending ks = 1%nat -> step s = PROCESSING)
  /\ (isProcessing s = true <-> step s = PROCESSING)
  /\ (step s = PROCESSING -> isPlaying s = false).
Proof.
  intro Hreach.
  destruct (Reachable_wellFormed _ Hreach)
    as (_ & Hone & Hproc & Hplay & Hflag & _).
  cbn [fst snd] in *. repeat split; try assumption; apply Hflag.
Qed.

Lemma one_export_at_a_time_witness :
  (exportsPending (snd sampleExporting) <= 1)%nat
  /\ (exportsPending (snd sampleExporting) = 1%nat ->
      step (fst sampleExporting) = PROCESSING).
Proof.
  destruct (one_export_at_a_time (fst sampleExporting)
              (snd sampleExporting) sampleExporting_reachable)
    as (H1 & H2 & _).
  split; assumption.
Defined.

Lemma Reachable_PageReachable (x : State * list Pending) :
  Reachable x -> PageReachable (Mounted (fst x), snd x).
Proof.
  induction 1 as [|[s ks] [s' ks'] _ IH Hstep]; [constructor|].
  apply (PageReachable_step (Mounted s, ks)); [exact IH|].
  now apply Page_event.
Qed.

Lemma PageReachable_Mounted (x : Page * list Pending) :
  PageReachable x ->
  forall s, fst x = Mounted s -> Reachable (s, snd x).
Proof.
  induction 1 as [|x y _ IH Hstep]; intros s Hs.
  - cbn in Hs. injection Hs as <-. constructor.
  - inversion Hstep; subst; cbn [fst snd] in *; try discriminate Hs.
    injection Hs as <-.
    apply (Reachable_step (s0, ks)); [now apply IH | assumption].
Qed.

(** The callbacks of an export find what they rely on, while the page
    stands.  When the timer of [handleExport] fires on a mounted page, the
    visualizer is mounted: the branch "Visualizer ref is missing" is
    taken only after React has removed the page.  When [startExport]
    settles, [result] is not null, so [{...prev!, videoUrl: url}] keeps
    the description and the hashtags; with a blob the page goes to DONE
    holding that blob, with a rejection back to EDITOR with nothing else
    changed but [isProcessing].  On DONE the blob and the result are
    there. *)
Theorem export_callbacks_find_what_they_need (s : State)
  (ks : list Pending) :
  PageReachable (Mounted s, ks) ->
  (In AwaitExportTimer ks -> exportTimer s = (s, [AwaitExport]))
  /\ (In AwaitExport ks ->
      exists prev,
        result s = Some prev
        /\ (forall url blob,
              exportSettled url (Normal blob) s
              = setIsProcessing false
                  (setStep DONE
                     (setResult
                        (Some {| videoUrl := url;
                                 videoDescription := videoDescription prev;
                                 hashtags := hashtags prev |})
                        (setResultBlob (Some blob) s))))
        /\ (forall url e,
              exportSettled url (Throw e) s
              = setIsProcessing false (setStep EDITOR s)))
  /\ (step s = DONE -> resultBlob s <> None /\ result s <> None).
Proof.
  intro Hpage.
  pose proof (PageReachable_Mounted _ Hpage s eq_refl) as Hreach.
  cbn [snd] in Hreach.
  destruct (Reachable_wellFormed _ Hreach)
    as (_ & Hone & Hproc & _ & _ & Hrec & Hdone).
  cbn [fst snd] in *. split; [|split; [|exact Hdone]].
  - intro Hin.
    pose proof (exportsPending_In _ _ Hin eq_refl) as Hge.
    assert (step s = PROCESSING) as Hs by (apply Hproc; lia).
    unfold exportTimer, editorMounted. now rewrite Hs.
  - intro Hin.
    pose proof (Hrec (recordingPending_In _ _ Hin eq_refl)) as Hres.
    destruct (result s) as [prev|] eqn:Eres; [|now contradiction Hres].
    exists prev. split; [reflexivity|]. split.
    + intros url blob. unfold exportSettled. now rewrite Eres.
    + reflexivity.
Qed.

Lemma sampleTimer_reachable : Reachable sampleTimer.
Proof.
  apply (Reachable_step (sampleDescribed, [])).
  - apply (Reachable_step
             (fst (handleGenerateMetadata sampleEditor),
              snd (handleGenerateMetadata sampleEditor))).
    + apply (Reachable_step (sampleEditor, []));
        [exact sampleEditor_reachable|].
      exact (ClickWand sampleEditor [] eq_refl).
    + apply (MetadataSettled "My Video" (Some (JString "Music & Vibes"))
               (metadataFallback "My Video"));
        [constructor | reflexivity].
  - exact (ClickExport sampleDescribed [] eq_refl).
Defined.

Lemma export_callbacks_find_what_they_need_witness :
  exportTimer (fst sampleTimer) = (fst sampleTimer, [AwaitExport]).
Proof.
  refine (proj1 (export_callbacks_find_what_they_need
                   (fst sampleTimer) (snd sampleTimer)
                   (Reachable_PageReachable _ sampleTimer_reachable)) _).
  now left.
Defined.

(** In PROCESSING with no export pending, no event that leaves the page
    standing leads anywhere else. *)
Lemma hung_step (x y : State * list Pending) :
  Step x y ->
  step (fst x) = PROCESSING -> exportsPending (snd x) = 0%nat ->
  isProcessing (fst x) = true -> isPlaying (fst x) = false ->
  step (fst y) = PROCESSING /\ exportsPending (snd y) = 0%nat
  /\ isProcessing (fst y) = true /\ isPlaying (fst y) = false.
Proof.
  intros Hstep Hs Hnone Hflag Hplay.
  inversion Hstep; subst; cbn [fst snd] in *;
    rewrite ?exportsPending_app;
    try congruence;
    try (apply exportsPending_Removed in H; cbn [exportPending] in H);
    try lia.
  - (* TypeTitle *) page_simpl. page_solve.
  - (* TypeSubtitle *) page_simpl. page_solve.
  - (* PickFont *) page_simpl. page_solve.
  - (* ClickWand *)
    page_simpl. destruct (String.eqb (title (config s)) ""); page_simpl;
      rewrite ?Nat.add_0_r; page_solve.
  - (* VisualizerEnded *) page_simpl. page_solve.
  - (* VisualizerProgress *) page_simpl. page_solve.
  - (* AnalysisSettled *)
    apply audioAnalysed_frame in H0 as (Es & _ & _ & _ & Ep & Ef & _).
    rewrite Es, Ep, Ef. cbn [Nat.add] in H. repeat split; try assumption.
    lia.
  - (* MetadataSettled *)
    apply metadataGenerated_frame in H0 as (Es & _ & Ep & Ef & _).
    rewrite Es, Ep, Ef. cbn [Nat.add] in H. repeat split; try assumption.
    lia.
Qed.

Lemma hung_PageStep (x y : Page * list Pending) :
  PageStep x y -> hung x -> hung y.
Proof.
  intros Hstep [Hnone Hpage].
  inversion Hstep; subst; cbn [fst snd] in *; unfold hung; cbn [fst snd];
    try match goal with
        | R : Removed _ _ _ |- _ =>
            apply exportsPending_Removed in R;
            cbn [exportPending Nat.add] in R
        end;
    try (split; [lia | exact I]); try lia.
  destruct Hpage as (Hs & Hflag & Hplay).
  destruct (hung_step _ _ H Hs Hnone Hflag Hplay) as (Hs' & Hnone' & H').
  cbn [fst snd] in *. split; [exact Hnone'|]. split; [exact Hs' | exact H'].
Qed.

Lemma hung_PageRun (x z : Page * list Pending) :
  PageRun x z -> hung x -> hung z.
Proof.
  intros Hrun Hx. induction Hrun as [|x y z _ IH Hstep]; [exact Hx|].
  exact (hung_PageStep y z Hstep (IH Hx)).
Qed.

(** An answer [null] from the metadata service during an export hangs the
    page.  From the editor with no description yet, [Export Video] asks
    for the metadata; when the answer parses to [null], reading
    [meta.description] throws in [handleExport] after the page has gone
    to PROCESSING and before the timer is set.  From then on, whatever
    happens, the page either stands in PROCESSING, its export and play
    buttons disabled and the preview paused, or has been removed by React
    (a later answer [null] to the wand or the analysis does that); it
    never gets back to the editor or on to DONE, and no part of an export
    is pending again. *)
Theorem export_hangs_on_null_metadata (s : State) (ks : list Pending) :
  PageReachable (Mounted s, ks) ->
  step s = EDITOR -> hasDescription (result s) = false ->
  let clicked := (fst (handleExport s), ks ++ snd (handleExport s)) in
  let stuck := (fst (handleExport s), ks) in
  Step (s, ks) clicked
  /\ snd (handleExport s)
     = [AwaitExportMetadata (title (config s)) (subtitle (config s))]
  /\ exportMetadata JNull (fst clicked)
     = Throw (TypeError "Cannot read properties of null")
  /\ Step clicked stuck
  /\ forall z, PageRun (Mounted (fst stuck), snd stuck) z ->
       exportsPending (snd z) = 0%nat
       /\ match fst z with
          | Unmounted => True
          | Mounted s' =>
              step s' = PROCESSING /\ isProcessing s' = true
              /\ isPlaying s' = false
          end.
Proof.
  intros Hpage Hs Hdesc clicked stuck.
  pose proof (PageReachable_Mounted _ Hpage s eq_refl) as Hreach.
  cbn [snd] in Hreach.
  assert (snd (handleExport s)
          = [AwaitExportMetadata (title (config s)) (subtitle (config s))])
    as Hsnd by (unfold handleExport; now rewrite Hdesc).
  assert (Step (s, ks) clicked) as Hclick by (apply ClickExport; exact Hs).
  assert (Step clicked stuck) as Hnull.
  { subst clicked stuck. rewrite Hsnd.
    exact (ExportMetadataSettled (title (config s)) (subtitle (config s))
             JNull (fst (handleExport s)) _ ks (Removed_last _ ks)). }
  split; [exact Hclick|]. split; [exact Hsnd|].
  split; [reflexivity|]. split; [exact Hnull|].
  intros z Hrun.
  assert (exportsPending ks = 0%nat) as Hnone.
  { destruct (Reachable_wellFormed _ Hreach) as (_ & Hone & Hproc & _).
    cbn [fst snd] in *.
    destruct (exportsPending ks) as [|[|n]]; [reflexivity| |lia].
    specialize (Hproc eq_refl). congruence. }
  apply (hung_PageRun (Mounted (fst stuck), snd stuck) z Hrun).
  split; [exact Hnone|]. repeat split.
Qed.

Lemma export_hangs_on_null_metadata_witness :
  Step sampleExporting (fst sampleExporting, []).
Proof.
  destruct (export_hangs_on_null_metadata sampleEditor []
              (Reachable_PageReachable _ sampleEditor_reachable)
              eq_refl eq_refl)
    as (_ & _ & _ & H & _).
  exact H.
Defined.

(** A metadata service that fails does not stop an export.  Whenever
    [generateVideoMetadata] has logged an error, what it returns lets
    [handleExport] go on to the timer with the description
    "Check out my new video: <title>!" and the two fallback hashtags
    stored, the URL still empty; the description counts as present, so a
    later export does not ask again. *)
Theorem failing_metadata_service_does_not_block_export
  (generateContent : GoogleGenAI -> GenerateContentParameters ->
                     completion GenerateContentResponse)
  (JSON_parse : option string -> completion json)
  (env : ProcessEnv) (requestTitle requestSubtitle : string) (s : State) :
  events (generateVideoMetadata generateContent JSON_parse env requestTitle
            requestSubtitle) <> [] ->
  exists meta stored,
    outcome (generateVideoMetadata generateContent JSON_parse env
               requestTitle requestSubtitle) = Normal meta
    /\ stored
       = {| videoUrl := "";
            videoDescription :=
              Some (JString ("Check out my new video: " ++ requestTitle
                             ++ "!"));
            hashtags :=
              Some (JArray [JString "#musicvideo"; JString "#newupload"]) |}
    /\ exportMetadata meta s
       = Normal (setResult (Some stored) s, [AwaitExportTimer])
    /\ hasDescription (Some stored) = true
    /\ snd (handleExport (setResult (Some stored) s)) = [AwaitExportTimer].
Proof.
  intro Hlogged.
  apply generateVideoMetadata_logged in Hlogged.
  exists (metadataFallback requestTitle). eexists.
  split; [exact Hlogged|]. split; [reflexivity|].
  repeat split.
Qed.

Lemma failing_metadata_service_does_not_block_export_witness :
  exists meta,
    outcome (generateVideoMetadata
               (fun _ _ => Throw (Rejected "503 Service Unavailable"))
               (fun _ => Throw (SyntaxError "Unexpected token"))
               {| API_KEY := Some "key"%string |} "" "Music & Vibes")
    = Normal meta
    /\ exists s', exportMetadata meta (fst sampleExporting)
                  = Normal (s', [AwaitExportTimer]).
Proof.
  destruct (failing_metadata_service_does_not_block_export
              (fun _ _ => Throw (Rejected "503 Service Unavailable"))
              (fun _ => Throw (SyntaxError "Unexpected token"))
              {| API_KEY := Some "key"%string |} "" "Music & Vibes"
              (fst sampleExporting))
    as (meta & stored & Hmeta & _ & Hexport & _); [discriminate|].
  exists meta. split; [exact Hmeta|]. eexists. exact Hexport.
Defined.

(** What the analysis of the audio may change.  When the answer is
    applied, the step, the title and the assets are as before and the
    loading flag is cleared; a subtitle that is not empty is kept; the
    font is replaced whatever it was, also one picked in the editor
    while the analysis was under way, by the font of the answer or, when
    that is missing or falsy, by "sans"; an empty subtitle is replaced
    by the [suggestedSubtitle] of the answer. *)
Theorem analysis_keeps_subtitle_replaces_font (analysis : json)
  (s s' : State) :
  audioAnalysed analysis s = Normal s' ->
  step s' = step s /\ title (config s') = title (config s)
  /\ images (config s') = images (config s)
  /\ audio (config s') = audio (config s)
  /\ isGeminiLoading s' = false
  /\ (truthyAny (subtitle (config s)) = true ->
      subtitle (config s') = subtitle (config s))
  /\ (truthyAny (subtitle (config s)) = false ->
      getProp analysis "suggestedSubtitle"
      = Normal (subtitle (config s')))
  /\ (exists font,
        getProp analysis "font" = Normal font
        /\ fontFamily (config s')
           = (if truthyAny font then font else Some (JString "sans")))
  /\ truthyAny (fontFamily (config s')) = true
  /\ (forall picked,
        exists s2,
          audioAnalysed analysis
            (setConfig (withFontFamily picked (config s)) s) = Normal s2
          /\ fontFamily (config s2) = fontFamily (config s')).
Proof.
  unfold audioAnalysed.
  destruct (getProp analysis "font") as [font|e]; [|discriminate].
  cbn [setConfig config withFontFamily subtitle].
  destruct (truthyAny (subtitle (config s))) eqn:Hsub.
  - intro H. injection H as <-. cbn.
    repeat split.
    + discriminate.
    + exists font. split; reflexivity.
    + unfold orAny. destruct (truthyAny font) eqn:Hfont; [exact Hfont|].
      reflexivity.
    + intro picked. eexists. split; reflexivity.
  - destruct (getProp analysis "suggestedSubtitle") as [sub|e];
      [|discriminate].
    intro H. injection H as <-. cbn.
    repeat split.
    + discriminate.
    + exists font. split; reflexivity.
    + unfold orAny. destruct (truthyAny font) eqn:Hfont; [exact Hfont|].
      reflexivity.
    + intro picked. eexists. split; reflexivity.
Qed.

Lemma analysis_keeps_subtitle_replaces_font_witness :
  title (config sampleEditor) = title (config pickedAssets)
  /\ images (config sampleEditor) = images (config pickedAssets).
Proof.
  destruct (analysis_keeps_subtitle_replaces_font moodFallback pickedAssets
              (match audioAnalysed moodFallback pickedAssets with
               | Normal s => s
               | Throw _ => pickedAssets
               end) eq_refl)
    as (_ & Htitle & Himages & _).
  split; [exact Htitle | exact Himages].
Defined.

(** An analysis service that fails leaves the defaults.  Whenever
    [analyzeMoodAndSuggestFont] has logged an error, applying what it
    returns succeeds and gives the font "sans" and, if the subtitle was
    empty, the subtitle "Music & Vibes". *)
Theorem failed_analysis_gives_defaults
  (generateContent : GoogleGenAI -> GenerateContentParameters ->
                     completion GenerateContentResponse)
  (JSON_parse : option string -> completion json)
  (env : ProcessEnv) (audioFileName : string) (s : State) :
  events (analyzeMoodAndSuggestFont generateContent JSON_parse env
            audioFileName) <> [] ->
  exists analysis s',
    outcome (analyzeMoodAndSuggestFont generateContent JSON_parse env
               audioFileName) = Normal analysis
    /\ audioAnalysed analysis s = Normal s'
    /\ fontFamily (config s') = Some (JString "sans")
    /\ subtitle (config s')
       = (if truthyAny (subtitle (config s)) then subtitle (config s)
          else Some (JString "Music & Vibes"))
    /\ isGeminiLoading s' = false.
Proof.
  intro Hlogged. apply analyzeMoodAndSuggestFont_logged in Hlogged.
  exists moodFallback. unfold audioAnalysed. cbn [getProp moodFallback].
  destruct (truthyAny (subtitle (config s))) eqn:Hsub;
    eexists; (split; [exact Hlogged|]); (split; [reflexivity|]);
    repeat split.
Qed.

Lemma failed_analysis_gives_defaults_witness :
  exists analysis s',
    outcome (analyzeMoodAndSuggestFont
               (fun _ _ => Throw (Rejected "503 Service Unavailable"))
               (fun _ => Throw (SyntaxError "Unexpected token"))
               {| API_KEY := Some "key"%string |} "song.mp3")
    = Normal analysis
    /\ audioAnalysed analysis pickedAssets = Normal s'
    /\ fontFamily (config s') = Some (JString "sans").
Proof.
  destruct (failed_analysis_gives_defaults
              (fun _ _ => Throw (Rejected "503 Service Unavailable"))
              (fun _ => Throw (SyntaxError "Unexpected token"))
              {| API_KEY := Some "key"%string |} "song.mp3" pickedAssets)
    as (analysis & s' & H1 & H2 & H3 & _); [discriminate|].
  exists analysis, s'. repeat split; assumption.
Defined.

(** The wand with an empty title.  The page sets the title to
    "My Awesome Journey" but asks for the metadata of "My Video", the
    value computed from the title of the render in which the button was
    clicked; so when the service fails, the description stored reads
    "Check out my new video: My Video!" under the title
    "My Awesome Journey". *)
Theorem wand_describes_another_title
  (generateContent : GoogleGenAI -> GenerateContentParameters ->
                     completion GenerateContentResponse)
  (JSON_parse : option string -> completion json)
  (env : ProcessEnv) (requestSubtitle : string) (s : State) :
  title (config s) = ""%string ->
  let clicked := fst (handleGenerateMetadata s) in
  title (config clicked) = "My Awesome Journey"%string
  /\ isGeminiLoading clicked = true
  /\ snd (handleGenerateMetadata s)
     = [AwaitMetadata "My Video" (subtitle (config s))]
  /\ (events (generateVideoMetadata generateContent JSON_parse env
                "My Video" requestSubtitle) <> [] ->
      exists meta s' stored,
        outcome (generateVideoMetadata generateContent JSON_parse env
                   "My Video" requestSubtitle) = Normal meta
        /\ metadataGenerated meta clicked = Normal s'
        /\ result s' = Some stored
        /\ videoDescription stored
           = Some (JString "Check out my new video: My Video!")
        /\ title (config s') = "My Awesome Journey"%string
        /\ isGeminiLoading s' = false).
Proof.
  intros Htitle clicked. subst clicked. unfold handleGenerateMetadata.
  rewrite Htitle. cbn [String.eqb fst snd].
  split; [reflexivity|]. split; [reflexivity|]. split; [reflexivity|].
  intro Hlogged. apply generateVideoMetadata_logged in Hlogged.
  exists (metadataFallback "My Video"). eexists. eexists.
  split; [exact Hlogged|]. split; [reflexivity|]. repeat split.
Qed.

Lemma wand_describes_another_title_witness :
  title (config (fst (handleGenerateMetadata sampleEditor)))
  = "My Awesome Journey"%string
  /\ snd (handleGenerateMetadata sampleEditor)
     = [AwaitMetadata "My Video" (subtitle (config sampleEditor))].
Proof.
  destruct (wand_describes_another_title
              (fun _ _ => Throw (Rejected "503 Service Unavailable"))
              (fun _ => Throw (SyntaxError "Unexpected token"))
              {| API_KEY := Some "key"%string |} "Music & Vibes"
              sampleEditor eq_refl)
    as (H1 & _ & H3 & _).
  split; [exact H1 | exact H3].
Defined.
